(** * B+ tree over an ordered key-value store: a shallow embedding

    The development follows [src/bptree/bptree.ts] (class [BPlusTree]); the
    second copy of that class in the repository, the one carrying doc
    comments, which differs only in [list] (it skips a leaf without a
    matching key and post-processes [offset] and [reverse]) and is called
    the sibling variant below; and [src/database/InMemoryDatabase.ts].  The
    suspending class [AsyncBPlusTree] runs the same algorithm with the
    [list] of [src/bptree/bptree.ts].

    Conventions of the embedding.
    - JavaScript strings are [string]; [<], [<=] on strings is the
      lexicographic order on code units ([String.ltb], [String.leb]).
    - JavaScript numbers that the code uses as sizes, indices and counters are
      integers [Z]; array positions that can only be non-negative are [nat].
    - [undefined] is [None].  A string is falsy exactly when it is empty and
      a number exactly when it is [0].
    - A node record is what [JSON.parse] returns: an object whose fields
      [keys], [values], [children], [next] may each be missing.  Arrays hold
      strings.  [JSON.stringify] followed by [JSON.parse] is the identity on
      such objects, so the store keeps the objects themselves.
    - A run that would put [undefined] inside an array (a hole, or [pop] on
      an empty array followed by [unshift]), or use [undefined] as a store
      key, leaves this representation; it ends in [OutOfModel]. *)

From Stdlib Require Import ZArith String Ascii List Lia Bool.
From Stdlib Require OrderedTypeEx DecimalString.
From stdpp Require Import base option list gmap strings.

Open Scope string_scope.
Open Scope list_scope.
Open Scope Z_scope.

(** ** Constants for tree structure *)

Definition LEAF_PREFIX : string := "00".
Definition INTERNAL_PREFIX : string := "01".
Definition METADATA_KEY : string := "__BPTREE_METADATA__".
Definition MAX_LEAF_SIZE : Z := 32.
Definition MAX_INTERNAL_SIZE : Z := 32.

(** ** JavaScript primitives used by the code *)

(** Truthiness of a possibly missing string: [s ? .. : ..], [s || d]. *)
Definition truthy (s : option string) : bool :=
  match s with
  | Some x => negb (String.eqb x "")
  | None => false
  end.

(** [a || b] on possibly missing strings. *)
Definition or_else (a b : option string) : option string :=
  if truthy a then a else b.

Definition str_lt (a b : string) : bool := String.ltb a b.
Definition str_le (a b : string) : bool := String.leb a b.
Definition str_gt (a b : string) : bool := String.ltb b a.
Definition str_ge (a b : string) : bool := String.leb b a.

Definition len {A} (l : list A) : Z := Z.of_nat (length l).

(** [arr[i]] for a numeric index: [undefined] outside [0 .. length-1]. *)
Definition at_index {A} (l : list A) (i : Z) : option A :=
  if i <? 0 then None else l !! Z.to_nat i.

(** The position at which [splice(start, ..)] operates: a negative [start]
    counts from the end, and the result is clamped to [0 .. length]. *)
Definition splice_pos {A} (l : list A) (start : Z) : nat :=
  if start <? 0 then Z.to_nat (Z.max (len l + start) 0)
  else Z.to_nat (Z.min start (len l)).

(** [arr.splice(start, 0, x)] *)
Definition splice_insert {A} (start : Z) (x : A) (l : list A) : list A :=
  let p := splice_pos l start in take p l ++ x :: drop p l.

(** [arr.splice(start, 1)] *)
Definition splice_remove {A} (start : Z) (l : list A) : list A :=
  let p := splice_pos l start in take p l ++ drop (S p) l.

(** [arr.indexOf(x)] on an array of strings: first position, or [-1]. *)
Fixpoint indexOf_from (i : Z) (l : list string) (x : string) : Z :=
  match l with
  | [] => -1
  | y :: l' => if String.eqb y x then i else indexOf_from (i + 1) l' x
  end.
Definition indexOf (l : list string) (x : string) : Z := indexOf_from 0 l x.

(** [arr.findIndex(p)]: first position whose element satisfies [p], or [-1]. *)
Fixpoint findIndex_from (i : Z) (p : string → bool) (l : list string) : Z :=
  match l with
  | [] => -1
  | y :: l' => if p y then i else findIndex_from (i + 1) p l'
  end.
Definition findIndex (p : string → bool) (l : list string) : Z :=
  findIndex_from 0 p l.

(** The numeral that string concatenation prints for a non-negative
    integer such as [Date.now()]. *)
Definition decimal (n : N) : string :=
  DecimalString.NilZero.string_of_uint (N.to_uint n).

(** [Math.ceil(m / 2)] for an integer [m]. *)
Definition ceil_half (m : Z) : Z := (m + 1) / 2.

(** [Math.floor(n / 2)] for a length. *)
Definition floor_half (n : nat) : nat := Nat.div n 2.

(** ** Types for tree nodes *)

(** [LeafNode | InternalNode] as parsed from the store.  A leaf carries
    [keys], [values] and maybe [next]; an internal node [keys] and
    [children]; [JSON.parse("{}")] carries nothing. *)
Record Node := mkNode {
  keys : option (list string);
  values : option (list string);
  children : option (list string);
  next : option string
}.

Definition empty_object : Node := mkNode None None None None.

Definition leaf (ks vs : list string) (nx : option string) : Node :=
  mkNode (Some ks) (Some vs) None nx.

Definition internal (ks cs : list string) : Node :=
  mkNode (Some ks) None (Some cs) None.

Definition with_keys (n : Node) (ks : list string) : Node :=
  mkNode (Some ks) (values n) (children n) (next n).
Definition with_values (n : Node) (vs : list string) : Node :=
  mkNode (keys n) (Some vs) (children n) (next n).
Definition with_children (n : Node) (cs : list string) : Node :=
  mkNode (keys n) (values n) (Some cs) (next n).
Definition with_next (n : Node) (nx : option string) : Node :=
  mkNode (keys n) (values n) (children n) nx.

(** [{ id, index }]; the identifier is [undefined] when the descent ran off
    an empty [children] array. *)
Record NodePath := mkPath {
  path_id : option string;
  path_index : Z
}.

(** What the backing store holds under a key: the JSON image of a node or
    of the [TreeMetadata] record [{ rootId, height }]. *)
Inductive Stored :=
| StoredNode (n : Node)
| StoredMetadata (root : string) (h : Z).

(** The [BPlusTree] object together with the store it owns.  [ticks] counts
    the identifiers drawn so far from the host clock and random generator. *)
Record Tree := mkTree {
  store : gmap string Stored;
  rootId : string;
  height : Z;
  initialized : bool;
  maxLeafSize : Z;
  maxInternalSize : Z;
  ticks : nat
}.

Definition set_store (t : Tree) (s : gmap string Stored) : Tree :=
  mkTree s (rootId t) (height t) (initialized t)
         (maxLeafSize t) (maxInternalSize t) (ticks t).
Definition set_root (t : Tree) (r : string) (h : Z) : Tree :=
  mkTree (store t) r h (initialized t)
         (maxLeafSize t) (maxInternalSize t) (ticks t).
Definition set_initialized (t : Tree) : Tree :=
  mkTree (store t) (rootId t) (height t) true
         (maxLeafSize t) (maxInternalSize t) (ticks t).
Definition tick (t : Tree) : Tree :=
  mkTree (store t) (rootId t) (height t) (initialized t)
         (maxLeafSize t) (maxInternalSize t) (S (ticks t)).

(** [JSON.parse(this.store.get(id) || "{}")].  The metadata record has none
    of the node fields, and nothing is stored under [undefined]. *)
Definition parse_node (s : gmap string Stored) (i : option string) : Node :=
  match i with
  | Some k =>
      match s !! k with
      | Some (StoredNode n) => n
      | _ => empty_object
      end
  | None => empty_object
  end.

(** ** Outcomes and the monad of tree operations *)

Inductive outcome (A : Type) :=
| Ok (a : A) (t : Tree)     (* normal return *)
| Throw (t : Tree)          (* a TypeError; [t] is the state left behind *)
| OutOfModel                (* an [undefined] array element or store key *)
| OutOfFuel.                (* the step budget of a loop ran out *)
Arguments Ok {A} a t.
Arguments Throw {A} t.
Arguments OutOfModel {A}.
Arguments OutOfFuel {A}.

Definition M (A : Type) : Type := Tree → outcome A.

Definition ret {A} (a : A) : M A := fun t => Ok a t.

Definition bind {A B} (m : M A) (k : A → M B) : M B :=
  fun t =>
    match m t with
    | Ok a t' => k a t'
    | Throw t' => Throw t'
    | OutOfModel => OutOfModel
    | OutOfFuel => OutOfFuel
    end.

#[global] Instance M_ret : MRet M := @ret.
#[global] Instance M_bind : MBind M := fun A B k m => bind m k.

Definition throw {A} : M A := fun t => Throw t.
Definition out_of_model {A} : M A := fun _ => OutOfModel.
Definition out_of_fuel {A} : M A := fun _ => OutOfFuel.
Definition get_tree : M Tree := fun t => Ok t t.

(** Reading a field that must be there: [x.f.g] throws when [x.f] is
    [undefined]. *)
Definition defined {A} (o : option A) : M A :=
  match o with
  | Some a => ret a
  | None => throw
  end.

(** A value that has to be a string to stay inside the representation. *)
Definition modelled {A} (o : option A) : M A :=
  match o with
  | Some a => ret a
  | None => out_of_model
  end.

(** [this.store.write({ set, delete })] as the in-memory database does it:
    the sets in order, then the deletes. *)
Definition write_sets (sets : list (string * Stored)) (s : gmap string Stored)
  : gmap string Stored :=
  foldl (fun acc kv => <[fst kv := snd kv]> acc) s sets.
Definition write_deletes (dels : list string) (s : gmap string Stored)
  : gmap string Stored :=
  foldl (fun acc k => delete k acc) s dels.
Definition store_write (sets : list (string * Stored)) (dels : list string)
  : M unit :=
  fun t => Ok tt (set_store t (write_deletes dels (write_sets sets (store t)))).

(** [arr[i] = v].  A negative index only adds a property that
    [JSON.stringify] ignores; an index up to the length replaces or appends. *)
Definition array_assign (l : list string) (i : Z) (v : option string)
  : M (list string) :=
  if i <? 0 then ret l
  else match v with
       | None => out_of_model
       | Some x =>
           if i <? len l then ret (<[Z.to_nat i := x]> l)
           else if i =? len l then ret (l ++ [x])
           else out_of_model
       end.

(** ** Search primitives *)

(** [findChildIndex(keys, key)]: the binary search as written.  Each turn
    of the loop shrinks [right - left], so [length keys] turns are enough;
    [keys[mid]] out of range would be [undefined], for which [<=] is false. *)
Fixpoint findChildIndex_loop (fuel : nat) (ks : list string) (key : string)
    (left right : nat) : nat :=
  match fuel with
  | O => left
  | S f =>
      if (left <? right)%nat then
        let mid := ((left + right) / 2)%nat in
        match ks !! mid with
        | Some km =>
            if str_le km key then findChildIndex_loop f ks key (S mid) right
            else findChildIndex_loop f ks key left mid
        | None => findChildIndex_loop f ks key left mid
        end
      else left
  end.

Definition findChildIndex (ks : list string) (key : string) : nat :=
  findChildIndex_loop (length ks) ks key 0 (length ks).

(** [findInsertIndex(keys, key)]: as above, returning [mid] on an equal key. *)
Fixpoint findInsertIndex_loop (fuel : nat) (ks : list string) (key : string)
    (left right : nat) : nat :=
  match fuel with
  | O => left
  | S f =>
      if (left <? right)%nat then
        let mid := ((left + right) / 2)%nat in
        match ks !! mid with
        | Some km =>
            if str_lt km key then findInsertIndex_loop f ks key (S mid) right
            else if String.eqb km key then mid
            else findInsertIndex_loop f ks key left mid
        | None => findInsertIndex_loop f ks key left mid
        end
      else left
  end.

Definition findInsertIndex (ks : list string) (key : string) : nat :=
  findInsertIndex_loop (length ks) ks key 0 (length ks).

(** One turn of the descent loop shared by [findNodePath] and [findLeaf]:
    [[
      const node = JSON.parse(this.store.get(current) || "{}")
      const index = this.findChildIndex(node.keys, key)
      current = node.children[index] || node.children[node.children.length - 1]
    ]]
    [None] is the TypeError raised when [keys] or [children] is missing. *)
Definition descend (s : gmap string Stored) (key : string)
    (current : option string) : option (nat * option string) :=
  let node := parse_node s current in
  ks ← keys node;
  let index := findChildIndex ks key in
  cs ← children node;
  Some (index, or_else (cs !! index) (last cs)).

(** [findLeaf(key)]; [n] is the number of turns of [while (level < height)]. *)
Fixpoint findLeaf_loop (n : nat) (s : gmap string Stored) (key : string)
    (current : option string) : option (option string) :=
  match n with
  | O => Some current
  | S n' =>
      '(_, child) ← descend s key current;
      findLeaf_loop n' s key child
  end.

Definition findLeaf (t : Tree) (key : string) : option (option string) :=
  findLeaf_loop (Z.to_nat (height t)) (store t) key (Some (rootId t)).

(** [findNodePath(key)]: the same descent, recording [{ id, index }] per
    internal level and [{ id, index: -1 }] for the leaf. *)
Fixpoint findNodePath_loop (n : nat) (s : gmap string Stored) (key : string)
    (current : option string) (path : list NodePath)
    : option (list NodePath) :=
  match n with
  | O => Some (path ++ [mkPath current (-1)])
  | S n' =>
      '(index, child) ← descend s key current;
      findNodePath_loop n' s key child (path ++ [mkPath current (Z.of_nat index)])
  end.

Definition findNodePath (t : Tree) (key : string) : option (list NodePath) :=
  findNodePath_loop (Z.to_nat (height t)) (store t) key (Some (rootId t)) [].

(** ** Initialization and metadata *)

Definition assign_root (r : string) (h : Z) : M unit :=
  fun t => Ok tt (set_root t r h).
Definition mark_initialized : M unit :=
  fun t => Ok tt (set_initialized t).

(** [init()]: adopt the metadata record if there is one, else write an empty
    root leaf and the metadata record.  A node record stored under
    [METADATA_KEY] would yield an [undefined] root identifier. *)
Definition init : M unit :=
  t ← get_tree;
  match store t !! METADATA_KEY with
  | Some (StoredMetadata r h) =>
      assign_root r h;;
      mark_initialized
  | Some (StoredNode _) => out_of_model
  | None =>
      let rootNode := leaf [] [] None in
      let rid := LEAF_PREFIX +:+ "root" in
      assign_root rid 0;;
      store_write [(rid, StoredNode rootNode);
                   (METADATA_KEY, StoredMetadata rid 0)] [];;
      mark_initialized
  end.

(** [if (!this.initialized) this.init()] *)
Definition ensure_init : M unit :=
  t ← get_tree;
  if initialized t then mret tt else init.

Definition saveMetadata : M unit :=
  t ← get_tree;
  store_write [(METADATA_KEY, StoredMetadata (rootId t) (height t))] [].

(** The object as the constructor finds it, before its body calls [init]. *)
Definition fresh_object (s : gmap string Stored) (maxLeaf maxInternal : Z)
  : Tree :=
  mkTree s "" 0 false maxLeaf maxInternal 0.

(** [new BPlusTree(store, maxLeafSize, maxInternalSize)] *)
Definition new_BPlusTree (s : gmap string Stored) (maxLeaf maxInternal : Z)
  : outcome unit :=
  init (fresh_object s maxLeaf maxInternal).

(** ** The mutator and structural repair *)

(** [parentPath[parentPath.length - 1]?.id || this.rootId] *)
Definition parentId_of (parentPath : list NodePath) (root : string) : string :=
  match last parentPath with
  | Some p => if truthy (path_id p) then default root (path_id p) else root
  | None => root
  end.

(** ['values' in node] *)
Definition has_values (n : Node) : bool :=
  match values n with Some _ => true | None => false end.

(** [for (const x of xs) body(x)] *)
Fixpoint for_each {A} (body : A → M unit) (xs : list A) : M unit :=
  match xs with
  | [] => mret tt
  | x :: xs' => body x;; for_each body xs'
  end.

Section Engine.

(** The host at the [n]-th allocation of an identifier: what [Date.now()]
    reads and what [Math.random().toString(36).substring(2, 10)] yields. *)
Variable host : nat → N * string.

(** [Date.now() + Math.random().toString(36).substring(2, 10)], as it is
    appended to a prefix. *)
Definition fresh_suffix (n : nat) : string :=
  decimal (fst (host n)) +:+ snd (host n).

(** [PREFIX + Date.now() + Math.random().toString(36).substring(2, 10)] *)
Definition new_id (prefix : string) : M string :=
  fun t => Ok (prefix +:+ fresh_suffix (ticks t)) (tick t).

(** [splitInternalNode(nodeId, node, path)].  The recursion climbs one
    entry of [path] per call; [fuel] bounds it by the path length. *)
Fixpoint splitInternalNode (fuel : nat) (nodeId : string) (node : Node)
    (path : list NodePath) : M unit :=
  ks ← defined (keys node);
  let mid := floor_half (length ks) in
  let splitKey := ks !! mid in
  newNodeId ← new_id INTERNAL_PREFIX;
  cs ← defined (children node);
  let newNode := internal (drop (S mid) ks) (drop (S mid) cs) in
  let node' := with_children (with_keys node (take mid ks)) (take (S mid) cs) in
  store_write [(nodeId, StoredNode node'); (newNodeId, StoredNode newNode)] [];;
  if (length path =? 0)%nat then
    (* This is the root node, create a new root *)
    sk ← modelled splitKey;
    newRootId ← new_id INTERNAL_PREFIX;
    store_write
      [(newRootId, StoredNode (internal [sk] [nodeId; newNodeId]))] [];;
    t ← get_tree;
    assign_root newRootId (height t + 1);;
    saveMetadata
  else
    match fuel with
    | O => out_of_fuel
    | S f =>
        (* Update parent *)
        t ← get_tree;
        let parentPath := removelast path in
        let parentId := parentId_of parentPath (rootId t) in
        let parent := parse_node (store t) (Some parentId) in
        entry ← defined (last path);
        let childIndex := path_index entry in
        pks ← defined (keys parent);
        pcs ← defined (children parent);
        sk ← modelled splitKey;
        let pks' := splice_insert childIndex sk pks in
        let pcs' := splice_insert (childIndex + 1) newNodeId pcs in
        let parent' := with_children (with_keys parent pks') pcs' in
        if len pks' >? maxInternalSize t then
          splitInternalNode f parentId parent' parentPath
        else
          store_write [(parentId, StoredNode parent')] []
    end.

(** [updateParentAfterSplit(leftId, rightId, splitKey, path)] *)
Definition updateParentAfterSplit (leftId rightId : string)
    (splitKey : option string) (path : list NodePath) : M unit :=
  t ← get_tree;
  let parentPath := removelast path in
  let parentId := parentId_of parentPath (rootId t) in
  let parent := parse_node (store t) (Some parentId) in
  entry ← defined (last path);
  let childIndex := path_index entry in
  pks ← defined (keys parent);
  pcs ← defined (children parent);
  sk ← modelled splitKey;
  let pks' := splice_insert childIndex sk pks in
  let pcs' := splice_insert (childIndex + 1) rightId pcs in
  let parent' := with_children (with_keys parent pks') pcs' in
  if len pks' >? maxInternalSize t then
    splitInternalNode (length parentPath) parentId parent' parentPath
  else
    store_write [(parentId, StoredNode parent')] [].

(** [splitLeafNode(nodeId, node, path = [])] *)
Definition splitLeafNode (nodeId : string) (node : Node)
    (path : list NodePath) : M unit :=
  ks ← defined (keys node);
  let mid := floor_half (length ks) in
  newNodeId ← new_id LEAF_PREFIX;
  vs ← defined (values node);
  let newNode := leaf (drop mid ks) (drop mid vs) (next node) in
  let node' :=
    with_next (with_values (with_keys node (take mid ks)) (take mid vs))
              (Some newNodeId) in
  store_write [(nodeId, StoredNode node'); (newNodeId, StoredNode newNode)] [];;
  (* Update parent or create new root *)
  let splitKey := head (drop mid ks) in
  if (length path =? 0)%nat then
    sk ← modelled splitKey;
    newRootId ← new_id INTERNAL_PREFIX;
    store_write
      [(newRootId, StoredNode (internal [sk] [nodeId; newNodeId]))] [];;
    assign_root newRootId 1;;
    saveMetadata
  else
    updateParentAfterSplit nodeId newNodeId splitKey path.

(** [insert(key, value)] *)
Definition tree_insert (key value : string) : M unit :=
  t ← get_tree;
  if height t =? 0 then
    (* Tree is empty or has only a root leaf node *)
    let node := parse_node (store t) (Some (rootId t)) in
    (* Insert into leaf node *)
    ks ← defined (keys node);
    let index := findInsertIndex ks key in
    if (index <? length ks)%nat && bool_decide (ks !! index = Some key) then
      (* Replace value if key already exists *)
      vs ← defined (values node);
      vs' ← array_assign vs (Z.of_nat index) (Some value);
      store_write [(rootId t, StoredNode (with_values node vs'))] []
    else
      let ks' := splice_insert (Z.of_nat index) key ks in
      vs ← defined (values node);
      let vs' := splice_insert (Z.of_nat index) value vs in
      let node' := with_values (with_keys node ks') vs' in
      if len ks' >? maxLeafSize t then splitLeafNode (rootId t) node' []
      else store_write [(rootId t, StoredNode node')] []
  else
    (* Find the leaf node where the key should be inserted *)
    path ← defined (findNodePath t key);
    entry ← defined (last path);
    let leafId := path_id entry in
    let leafNode := parse_node (store t) leafId in
    (* Insert into leaf node *)
    ks ← defined (keys leafNode);
    let index := findInsertIndex ks key in
    if (index <? length ks)%nat && bool_decide (ks !! index = Some key) then
      (* Replace value if key already exists *)
      vs ← defined (values leafNode);
      vs' ← array_assign vs (Z.of_nat index) (Some value);
      nid ← modelled leafId;
      store_write [(nid, StoredNode (with_values leafNode vs'))] []
    else
      let ks' := splice_insert (Z.of_nat index) key ks in
      vs ← defined (values leafNode);
      let vs' := splice_insert (Z.of_nat index) value vs in
      let leafNode' := with_values (with_keys leafNode ks') vs' in
      nid ← modelled leafId;
      if len ks' >? maxLeafSize t then splitLeafNode nid leafNode' path
      else store_write [(nid, StoredNode leafNode')] [].

(** [borrowFromLeftSibling(...)] *)
Definition borrowFromLeftSibling (nodeId : option string) (node : Node)
    (leftSiblingId : option string) (leftSibling : Node)
    (parentId : string) (parent : Node) (childIndex : Z) : M unit :=
  '(node', leftSibling', parent') ←
    (if has_values node && has_values leftSibling then
       (* For leaf nodes *)
       lks ← defined (keys leftSibling);
       lvs ← defined (values leftSibling);
       nks ← defined (keys node);
       nvs ← defined (values node);
       pks ← defined (keys parent);
       key ← modelled (last lks);
       value ← modelled (last lvs);
       pks' ← array_assign pks (childIndex - 1) (Some key);
       mret (with_values (with_keys node (key :: nks)) (value :: nvs),
             with_values (with_keys leftSibling (removelast lks))
                         (removelast lvs),
             with_keys parent pks')
     else
       (* For internal nodes *)
       pks ← defined (keys parent);
       let parentKey := at_index pks (childIndex - 1) in
       lcs ← defined (children leftSibling);
       lks ← defined (keys leftSibling);
       nks ← defined (keys node);
       ncs ← defined (children node);
       pk ← modelled parentKey;
       childId ← modelled (last lcs);
       pks' ← array_assign pks (childIndex - 1) (last lks);
       mret (with_children (with_keys node (pk :: nks)) (childId :: ncs),
             with_children (with_keys leftSibling (removelast lks))
                           (removelast lcs),
             with_keys parent pks'));
  nid ← modelled nodeId;
  lid ← modelled leftSiblingId;
  store_write [(nid, StoredNode node');
               (lid, StoredNode leftSibling');
               (parentId, StoredNode parent')] [].

(** [borrowFromRightSibling(...)] *)
Definition borrowFromRightSibling (nodeId : option string) (node : Node)
    (rightSiblingId : option string) (rightSibling : Node)
    (parentId : string) (parent : Node) (childIndex : Z) : M unit :=
  '(node', rightSibling', parent') ←
    (if has_values node && has_values rightSibling then
       (* For leaf nodes *)
       rks ← defined (keys rightSibling);
       rvs ← defined (values rightSibling);
       nks ← defined (keys node);
       nvs ← defined (values node);
       pks ← defined (keys parent);
       key ← modelled (head rks);
       value ← modelled (head rvs);
       pks' ← array_assign pks childIndex (head (tail rks));
       mret (with_values (with_keys node (nks ++ [key])) (nvs ++ [value]),
             with_values (with_keys rightSibling (tail rks)) (tail rvs),
             with_keys parent pks')
     else
       (* For internal nodes *)
       pks ← defined (keys parent);
       let parentKey := at_index pks childIndex in
       rcs ← defined (children rightSibling);
       rks ← defined (keys rightSibling);
       nks ← defined (keys node);
       ncs ← defined (children node);
       pk ← modelled parentKey;
       childId ← modelled (head rcs);
       pks' ← array_assign pks childIndex (head rks);
       mret (with_children (with_keys node (nks ++ [pk])) (ncs ++ [childId]),
             with_children (with_keys rightSibling (tail rks)) (tail rcs),
             with_keys parent pks'));
  nid ← modelled nodeId;
  rid ← modelled rightSiblingId;
  store_write [(nid, StoredNode node');
               (rid, StoredNode rightSibling');
               (parentId, StoredNode parent')] [].

(** [mergeWithLeftSibling(...)]; [rebalance] stands for the recursive call
    of [rebalanceAfterDelete]. *)
Definition mergeWithLeftSibling
    (rebalance : option string → Node → list NodePath → M unit)
    (nodeId : option string) (node : Node)
    (leftSiblingId : option string) (leftSibling : Node)
    (parentId : string) (parent : Node) (childIndex : Z)
    (parentPath : list NodePath) : M unit :=
  leftSibling' ←
    (if has_values node && has_values leftSibling then
       (* For leaf nodes *)
       lks ← defined (keys leftSibling);
       nks ← defined (keys node);
       lvs ← defined (values leftSibling);
       nvs ← defined (values node);
       mret (with_next (with_values (with_keys leftSibling (lks ++ nks))
                                    (lvs ++ nvs))
                       (next node))
     else
       (* For internal nodes: include the parent key in the merge *)
       pks ← defined (keys parent);
       let parentKey := at_index pks (childIndex - 1) in
       lks ← defined (keys leftSibling);
       nks ← defined (keys node);
       lcs ← defined (children leftSibling);
       ncs ← defined (children node);
       pk ← modelled parentKey;
       mret (with_children (with_keys leftSibling (lks ++ pk :: nks))
                           (lcs ++ ncs)));
  (* Remove the node and update parent *)
  pks ← defined (keys parent);
  let pks' := splice_remove (childIndex - 1) pks in
  pcs ← defined (children parent);
  let pcs' := splice_remove childIndex pcs in
  let parent' := with_children (with_keys parent pks') pcs' in
  lid ← modelled leftSiblingId;
  nid ← modelled nodeId;
  store_write [(lid, StoredNode leftSibling');
               (parentId, StoredNode parent')] [nid];;
  (* Check if parent needs rebalancing *)
  t ← get_tree;
  if (len pks' <? ceil_half (maxInternalSize t)) && (0 <? len parentPath) then
    rebalance (Some parentId) parent' parentPath
  else if (len pks' =? 0) && String.eqb parentId (rootId t) then
    (* Root is empty, make the merged node the new root *)
    assign_root lid (height t - 1);;
    store_write [] [parentId];;
    saveMetadata
  else mret tt.

(** [mergeWithRightSibling(...)] *)
Definition mergeWithRightSibling
    (rebalance : option string → Node → list NodePath → M unit)
    (nodeId : option string) (node : Node)
    (rightSiblingId : option string) (rightSibling : Node)
    (parentId : string) (parent : Node) (childIndex : Z)
    (parentPath : list NodePath) : M unit :=
  node' ←
    (if has_values node && has_values rightSibling then
       (* For leaf nodes *)
       nks ← defined (keys node);
       rks ← defined (keys rightSibling);
       nvs ← defined (values node);
       rvs ← defined (values rightSibling);
       mret (with_next (with_values (with_keys node (nks ++ rks))
                                    (nvs ++ rvs))
                       (next rightSibling))
     else
       (* For internal nodes: include the parent key in the merge *)
       pks ← defined (keys parent);
       let parentKey := at_index pks childIndex in
       nks ← defined (keys node);
       rks ← defined (keys rightSibling);
       ncs ← defined (children node);
       rcs ← defined (children rightSibling);
       pk ← modelled parentKey;
       mret (with_children (with_keys node (nks ++ pk :: rks))
                           (ncs ++ rcs)));
  (* Remove the right sibling and update parent *)
  pks ← defined (keys parent);
  let pks' := splice_remove childIndex pks in
  pcs ← defined (children parent);
  let pcs' := splice_remove (childIndex + 1) pcs in
  let parent' := with_children (with_keys parent pks') pcs' in
  nid ← modelled nodeId;
  rid ← modelled rightSiblingId;
  store_write [(nid, StoredNode node');
               (parentId, StoredNode parent')] [rid];;
  (* Check if parent needs rebalancing *)
  t ← get_tree;
  if (len pks' <? ceil_half (maxInternalSize t)) && (0 <? len parentPath) then
    rebalance (Some parentId) parent' parentPath
  else if (len pks' =? 0) && String.eqb parentId (rootId t) then
    (* Root is empty, make the merged node the new root *)
    assign_root nid (height t - 1);;
    store_write [] [parentId];;
    saveMetadata
  else mret tt.

(** [rebalanceAfterDelete(nodeId, node, path)].  Each recursive call, made
    from a merge, drops the last entry of [path]; [fuel] bounds the
    recursion by the path length. *)
Fixpoint rebalanceAfterDelete (fuel : nat) (nodeId : option string)
    (node : Node) (path : list NodePath) : M unit :=
  match fuel with
  | O => out_of_fuel
  | S f =>
      t ← get_tree;
      let parentPath := removelast path in
      let parentId := parentId_of parentPath (rootId t) in
      let parent := parse_node (store t) (Some parentId) in
      entry ← defined (last path);
      let childIndex := path_index entry in
      let half := ceil_half (maxLeafSize t) in
      (* Merge with a sibling *)
      let merge : M unit :=
        pcs ← defined (children parent);
        if childIndex >? 0 then
          let leftSiblingId := at_index pcs (childIndex - 1) in
          let leftSibling := parse_node (store t) leftSiblingId in
          mergeWithLeftSibling (rebalanceAfterDelete f)
            nodeId node leftSiblingId leftSibling
            parentId parent childIndex parentPath
        else
          let rightSiblingId := at_index pcs (childIndex + 1) in
          let rightSibling := parse_node (store t) rightSiblingId in
          mergeWithRightSibling (rebalanceAfterDelete f)
            nodeId node rightSiblingId rightSibling
            parentId parent childIndex parentPath in
      (* Try to borrow from right sibling *)
      let tryRight : M unit :=
        pcs ← defined (children parent);
        if childIndex <? len pcs - 1 then
          let rightSiblingId := at_index pcs (childIndex + 1) in
          let rightSibling := parse_node (store t) rightSiblingId in
          rks ← defined (keys rightSibling);
          if len rks >? half then
            borrowFromRightSibling nodeId node rightSiblingId rightSibling
              parentId parent childIndex
          else merge
        else merge in
      (* Try to borrow from left sibling *)
      if childIndex >? 0 then
        pcs ← defined (children parent);
        let leftSiblingId := at_index pcs (childIndex - 1) in
        let leftSibling := parse_node (store t) leftSiblingId in
        lks ← defined (keys leftSibling);
        if len lks >? half then
          borrowFromLeftSibling nodeId node leftSiblingId leftSibling
            parentId parent childIndex
        else tryRight
      else tryRight
  end.

(** [remove(key)] *)
Definition tree_remove (key : string) : M unit :=
  t ← get_tree;
  if height t =? 0 then
    let rootNode := parse_node (store t) (Some (rootId t)) in
    ks ← defined (keys rootNode);
    let index := indexOf ks key in
    if index =? -1 then mret tt
    else
      let ks' := splice_remove index ks in
      vs ← defined (values rootNode);
      let vs' := splice_remove index vs in
      store_write
        [(rootId t, StoredNode (with_values (with_keys rootNode ks') vs'))] []
  else
    (* Find the leaf node containing the key *)
    path ← defined (findNodePath t key);
    entry ← defined (last path);
    let leafId := path_id entry in
    let leafNode := parse_node (store t) leafId in
    ks ← defined (keys leafNode);
    let index := indexOf ks key in
    if index =? -1 then mret tt
    else
      let ks' := splice_remove index ks in
      vs ← defined (values leafNode);
      let vs' := splice_remove index vs in
      let leafNode' := with_values (with_keys leafNode ks') vs' in
      if (len ks' <? ceil_half (maxLeafSize t)) && (1 <? len path) then
        rebalanceAfterDelete (length path) leafId leafNode' path
      else
        nid ← modelled leafId;
        store_write [(nid, StoredNode leafNode')] [].

(** ** Public surface *)

(** [write(tx)]: the sets in order, then the deletes. *)
Definition tree_write (sets : list (string * string)) (dels : list string)
  : M unit :=
  ensure_init;;
  for_each (fun kv => tree_insert (fst kv) (snd kv)) sets;;
  for_each tree_remove dels.

(** [set(key, value)] *)
Definition tree_set (key value : string) : M unit :=
  ensure_init;;
  tree_write [(key, value)] [].

(** [delete(key)] *)
Definition tree_delete (key : string) : M unit :=
  ensure_init;;
  tree_write [] [key].

End Engine.

(** [get(key)]; [None] is [undefined]. *)
Definition tree_get (key : string) : M (option string) :=
  ensure_init;;
  t ← get_tree;
  leafNode ← defined (findLeaf t key);
  let node := parse_node (store t) leafNode in
  ks ← defined (keys node);
  let index := indexOf ks key in
  if index =? -1 then mret None
  else
    vs ← defined (values node);
    mret (at_index vs index).

(** ** Range enumeration *)

(** The options of [list]; a missing option is [None]. *)
Record ListArgs := mkArgs {
  arg_gt : option string;
  arg_gte : option string;
  arg_lt : option string;
  arg_lte : option string;
  arg_limit : option Z;
  arg_offset : option Z;
  arg_reverse : option bool
}.

Definition no_args : ListArgs := mkArgs None None None None None None None.

(** An element [{ key, value }] of the result; either part can be
    [undefined]. *)
Definition Entry : Type := option string * option string.

(** How the scanning loop ends: by one of its [return results], by running
    off the end of the leaf chain, by a TypeError, or out of step budget. *)
Inductive scan :=
| Returned (results : list Entry)
| Exhausted (results : list Entry)
| ScanThrow
| ScanOutOfFuel.

(** [args.lt && key >= args.lt]; a comparison with [undefined] is false. *)
Definition reaches_lt (args : ListArgs) (key : option string) : bool :=
  match arg_lt args, key with
  | Some b, Some k => truthy (Some b) && str_ge k b
  | _, _ => false
  end.

(** [args.lte && key > args.lte] *)
Definition passes_lte (args : ListArgs) (key : option string) : bool :=
  match arg_lte args, key with
  | Some b, Some k => truthy (Some b) && str_gt k b
  | _, _ => false
  end.

(** [args.limit && results.length >= args.limit] *)
Definition limit_reached (args : ListArgs) (results : list Entry) : bool :=
  match arg_limit args with
  | Some n => negb (n =? 0) && (len results >=? n)
  | None => false
  end.

(** The body of [for (let i = startIndex; i < node.keys.length; i++)] at
    position [i], where [key] is [node.keys[i]]. *)
Definition visit (args : ListArgs) (vals : option (list string))
    (i : Z) (key : option string) (results : list Entry) : scan :=
  if reaches_lt args key then Returned results
  else if passes_lte args key then Returned results
  else
    match vals with
    | None => ScanThrow
    | Some vs =>
        let results' := results ++ [(key, at_index vs i)] in
        if limit_reached args results' then Returned results'
        else Exhausted results'
    end.

(** The [for] loop over the positions [i, i+1, ..] holding [ks]. *)
Fixpoint for_keys (args : ListArgs) (vals : option (list string))
    (i : Z) (ks : list string) (results : list Entry) : scan :=
  match ks with
  | [] => Exhausted results
  | k :: ks' =>
      match visit args vals i (Some k) results with
      | Exhausted results' => for_keys args vals (i + 1) ks' results'
      | r => r
      end
  end.

(** The [for] loop from [startIndex]; from [-1] it first visits position
    [-1], where [node.keys[-1]] is [undefined], then the whole array. *)
Definition for_from (args : ListArgs) (vals : option (list string))
    (startIndex : Z) (ks : list string) (results : list Entry) : scan :=
  if startIndex <? 0 then
    match visit args vals startIndex None results with
    | Exhausted results' => for_keys args vals 0 ks results'
    | r => r
    end
  else for_keys args vals startIndex (drop (Z.to_nat startIndex) ks) results.

(** [[
      args.gt ? node.keys.findIndex(k => k > args.gt!) :
      args.gte ? node.keys.findIndex(k => k >= args.gte!) : 0
    ]] *)
Definition startIndex_of (args : ListArgs) (ks : list string) : Z :=
  if truthy (arg_gt args) then
    findIndex (fun k => str_gt k (default "" (arg_gt args))) ks
  else if truthy (arg_gte args) then
    findIndex (fun k => str_ge k (default "" (arg_gte args))) ks
  else 0.

(** The [while (current && current !== "")] loop of [src/bptree/bptree.ts]. *)
Fixpoint scan_leaves (fuel : nat) (s : gmap string Stored) (args : ListArgs)
    (current : option string) (results : list Entry) : scan :=
  match fuel with
  | O => ScanOutOfFuel
  | S f =>
      if truthy current then
        let node := parse_node s current in
        match keys node with
        | None => ScanThrow
        | Some ks =>
            let startIndex := startIndex_of args ks in
            match for_from args (values node) startIndex ks results with
            | Exhausted results' =>
                scan_leaves f s args (or_else (next node) (Some "")) results'
            | r => r
            end
        end
      else Exhausted results
  end.

(** The same loop in the sibling variant, which skips a leaf whose
    [startIndex] is [-1]:
    [[
      if (startIndex === -1) { current = node.next || ""; continue }
    ]] *)
Fixpoint scan_leaves_skipping (fuel : nat) (s : gmap string Stored)
    (args : ListArgs) (current : option string) (results : list Entry)
    : scan :=
  match fuel with
  | O => ScanOutOfFuel
  | S f =>
      if truthy current then
        let node := parse_node s current in
        match keys node with
        | None => ScanThrow
        | Some ks =>
            let startIndex := startIndex_of args ks in
            if startIndex =? -1 then
              scan_leaves_skipping f s args (or_else (next node) (Some ""))
                                   results
            else
              match for_from args (values node) startIndex ks results with
              | Exhausted results' =>
                  scan_leaves_skipping f s args
                    (or_else (next node) (Some "")) results'
              | r => r
              end
        end
      else Exhausted results
  end.

(** [this.findLeaf(args.gte || args.gt || "")] *)
Definition start_key (args : ListArgs) : string :=
  default "" (or_else (arg_gte args) (or_else (arg_gt args) (Some ""))).

(** [list(args)] of [src/bptree/bptree.ts] (and of the suspending variant):
    [offset] and [reverse] are not looked at. *)
Definition list_bptree (fuel : nat) (args : ListArgs) : M (list Entry) :=
  ensure_init;;
  t ← get_tree;
  current ← defined (findLeaf t (start_key args));
  match scan_leaves fuel (store t) args current [] with
  | Returned results => mret results
  | Exhausted results => mret results
  | ScanThrow => throw
  | ScanOutOfFuel => out_of_fuel
  end.

(** [[
      if (args.offset && args.offset > 0) results.splice(0, args.offset)
      if (args.reverse) results.reverse()
    ]] *)
Definition post_process (args : ListArgs) (results : list Entry)
  : list Entry :=
  let results1 :=
    match arg_offset args with
    | Some n => if negb (n =? 0) && (n >? 0) then drop (Z.to_nat n) results
                else results
    | None => results
    end in
  match arg_reverse args with
  | Some true => rev results1
  | _ => results1
  end.

(** [list(args)] of the sibling variant: a scan that runs off the end of the
    leaf chain is post-processed; the [return results] inside the loop are
    not. *)
Definition list_sibling (fuel : nat) (args : ListArgs) : M (list Entry) :=
  ensure_init;;
  t ← get_tree;
  current ← defined (findLeaf t (start_key args));
  match scan_leaves_skipping fuel (store t) args current [] with
  | Returned results => mret results
  | Exhausted results => mret (post_process args results)
  | ScanThrow => throw
  | ScanOutOfFuel => out_of_fuel
  end.

(** ** Running scenarios *)

Definition value_of {A} (o : outcome A) : option A :=
  match o with
  | Ok a _ => Some a
  | _ => None
  end.

(** The tree left behind by a call that returned or threw. *)
Definition final_tree {A} (o : outcome A) : option Tree :=
  match o with
  | Ok _ t => Some t
  | Throw t => Some t
  | _ => None
  end.

Definition throws {A} (o : outcome A) : bool :=
  match o with
  | Throw _ => true
  | _ => false
  end.

(** A host whose clock reads 1700000000000 + n at the n-th allocation. *)
Definition example_host (n : nat) : N * string :=
  ((1700000000000 + N.of_nat n)%N, "k3x9q2ab").

(** [i.toString().padStart(3, '0')] for [i < 1000]. *)
Definition digit (n : nat) : string :=
  String (ascii_of_nat (48 + n mod 10)) EmptyString.
Definition pad3 (n : nat) : string :=
  digit (n / 100) +:+ digit (n / 10) +:+ digit n.

(** [key000 .. ] with [value0 ..]-style values, as the repository's tests
    build them. *)
Definition test_key (n : nat) : string := "key" +:+ pad3 n.
Definition test_data (n : nat) : list (string * string) :=
  map (fun i => (test_key i, "value" +:+ pad3 i)) (seq 0 n).

(** [set(k, k)] for each letter, in order. *)
Definition set_letters (host : nat → N * string) (ks : list string) : M unit :=
  for_each (fun k => tree_set host k k) ks.

Definition letters_a_g : list string := ["a"; "b"; "c"; "d"; "e"; "f"; "g"].

(** ** The reference oracle: a sorted map *)

Inductive Op :=
| OpSet (k v : string)
| OpDelete (k : string).

Definition apply_op (host : nat → N * string) (o : Op) : M unit :=
  match o with
  | OpSet k v => tree_set host k v
  | OpDelete k => tree_delete host k
  end.

Definition apply_ops (host : nat → N * string) (ops : list Op) : M unit :=
  for_each (apply_op host) ops.

(** Insert into a sorted association list, replacing an equal key. *)
Fixpoint ref_set (k v : string) (m : list (string * string))
  : list (string * string) :=
  match m with
  | [] => [(k, v)]
  | (k', v') :: m' =>
      if String.eqb k' k then (k, v) :: m'
      else if str_lt k k' then (k, v) :: (k', v') :: m'
      else (k', v') :: ref_set k v m'
  end.

Fixpoint ref_delete (k : string) (m : list (string * string))
  : list (string * string) :=
  match m with
  | [] => []
  | (k', v') :: m' =>
      if String.eqb k' k then m' else (k', v') :: ref_delete k m'
  end.

Definition ref_apply (m : list (string * string)) (o : Op)
  : list (string * string) :=
  match o with
  | OpSet k v => ref_set k v m
  | OpDelete k => ref_delete k m
  end.

Definition ref_list (m : list (string * string)) : list Entry :=
  map (fun kv => (Some (fst kv), Some (snd kv))) m.

Definition ref_run (ops : list Op) : list Entry :=
  ref_list (foldl ref_apply [] ops).

(** ** The sorted leaf chain (invariant I1) *)

(** The leaves met by following [next] from [current], with their keys. *)
Fixpoint leaf_chain (fuel : nat) (s : gmap string Stored)
    (current : option string) : option (list (string * list string)) :=
  match fuel with
  | O => None
  | S f =>
      match current with
      | Some c =>
          if truthy current then
            let node := parse_node s current in
            ks ← keys node;
            rest ← leaf_chain f s (or_else (next node) (Some ""));
            Some ((c, ks) :: rest)
          else Some []
      | None => Some []
      end
  end.

Fixpoint strictly_ascending (l : list string) : bool :=
  match l with
  | x :: (y :: _) as l' => str_lt x y && strictly_ascending l'
  | _ => true
  end.

(** The identifiers of the leaf records in the store. *)
Definition stored_leaves (s : gmap string Stored) : list string :=
  omap (fun kv => match snd kv with
                  | StoredNode n => if has_values n then Some (fst kv) else None
                  | StoredMetadata _ _ => None
                  end) (map_to_list s).

(** I1 on a tree at rest: from the leftmost leaf the chain visits every
    leaf record, its keys are strictly ascending, and they are the keys
    [list({})] returns. *)
Definition sorted_leaf_chain (fuel : nat) (t : Tree) : bool :=
  match findLeaf t "" with
  | Some leftmost =>
      match leaf_chain fuel (store t) leftmost with
      | Some chain =>
          let ks := concat (map snd chain) in
          forallb (fun l => bool_decide (l ∈ map fst chain))
                  (stored_leaves (store t))
          && strictly_ascending ks
          && bool_decide (option_map (map fst) (value_of (list_bptree fuel no_args t))
                          = Some (map Some ks))
      | None => false
      end
  | None => false
  end.

(** ** The in-memory database's [list]

    [src/database/InMemoryDatabase.ts].  The comparator is the constructor's
    [compareKey]; [search] is the binary search of the ordered-array package
    the class imports, which answers [{ found }] with the position of a key
    that is present and [{ closest }] with its insertion position otherwise.
    Both are parameters here. *)

Inductive db_result :=
| DbList (result : list (string * string))
| DbError (message : string).

Inductive search_result :=
| found (i : nat)
| closest (i : nat).

Section InMemoryDatabase.

Variable compareKey : string → string → Z.
Variable search : list (string * string) → string → search_result.

(** [args.gt ?? args.gte]: the first one that is not [undefined]. *)
Definition first_defined (a b : option string) : option string :=
  match a with
  | Some _ => a
  | None => b
  end.

Definition db_list (data : list (string * string)) (args : ListArgs)
  : db_result :=
  if bool_decide (is_Some (arg_gt args)) && bool_decide (is_Some (arg_gte args))
  then DbError "Invalid bounds: {gt, gte}"
  else if bool_decide (is_Some (arg_lt args))
          && bool_decide (is_Some (arg_lte args))
  then DbError "Invalid bounds: {lt, lte}"
  else
    let start := first_defined (arg_gt args) (arg_gte args) in
    let startOpen := bool_decide (is_Some (arg_gt args)) in
    let end_ := first_defined (arg_lt args) (arg_lte args) in
    let endOpen := bool_decide (is_Some (arg_lt args)) in
    let invalid :=
      match start, end_ with
      | Some s, Some e =>
          let comp := compareKey s e in
          (comp >? 0) || ((comp =? 0) && (startOpen || endOpen))
      | _, _ => false
      end in
    if invalid then DbList []
    else if (length data =? 0)%nat then DbList []
    else
      let startIndex :=
        match start with
        | Some s =>
            match search data s with
            | found i => if startOpen then S i else i
            | closest i => i
            end
        | None => 0%nat
        end in
      let endIndex :=
        match end_ with
        | Some e =>
            match search data e with
            | found i => if endOpen then i else S i
            | closest i => i
            end
        | None => length data
        end in
      let result := take (endIndex - startIndex) (drop startIndex data) in
      let result1 :=
        match arg_reverse args with
        | Some true => rev result
        | _ => result
        end in
      let result2 :=
        match arg_offset args with
        | Some n => if n =? 0 then result1 else drop (Z.to_nat n) result1
        | None => result1
        end in
      DbList
        match arg_limit args with
        | Some n =>
            if n =? 0 then result2
            else take (splice_pos result2
                         (n - default 0 (arg_offset args))) result2
        | None => result2
        end.

End InMemoryDatabase.

(** ** Vocabulary of the statements *)

(** [{ ...args, limit }] and [{ ...args, offset }] *)
Definition with_limit (args : ListArgs) (l : option Z) : ListArgs :=
  mkArgs (arg_gt args) (arg_gte args) (arg_lt args) (arg_lte args)
         l (arg_offset args) (arg_reverse args).
Definition with_offset (args : ListArgs) (o : option Z) : ListArgs :=
  mkArgs (arg_gt args) (arg_gte args) (arg_lt args) (arg_lte args)
         (arg_limit args) o (arg_reverse args).

(** The [keys] array of the record on which the descent for [k] ends. *)
Definition target_keys (t : Tree) (k : string) : option (list string) :=
  leafId ← findLeaf t k;
  keys (parse_node (store t) leafId).

(** The tree holds [k]: the leaf that would contain [k] lists it. *)
Definition holds_key (t : Tree) (k : string) : bool :=
  match target_keys t k with
  | Some ks => bool_decide (k ∈ ks)
  | None => false
  end.

(** The bounds [list] acts on.  An empty string counts as no bound; [gt]
    takes precedence over [gte] for the start index, and [lt] is checked
    before [lte]. *)
Definition lower_bound (args : ListArgs) : option string :=
  if truthy (arg_gt args) then arg_gt args
  else if truthy (arg_gte args) then arg_gte args
  else None.
Definition lower_open (args : ListArgs) : bool := truthy (arg_gt args).
Definition upper_bound (args : ListArgs) : option string :=
  if truthy (arg_lt args) then arg_lt args
  else if truthy (arg_lte args) then arg_lte args
  else None.
Definition upper_open (args : ListArgs) : bool := truthy (arg_lt args).

(** Start after end, or start equal to end with a side open. *)
Definition degenerate (args : ListArgs) : bool :=
  match lower_bound args, upper_bound args with
  | Some lo, Some hi =>
      str_gt lo hi || (String.eqb lo hi && (lower_open args || upper_open args))
  | _, _ => false
  end.

(** Two argument records that differ at most in options the scan treats
    alike. *)
Definition scan_alike (a b : ListArgs) : Prop :=
  arg_gt a = arg_gt b ∧ arg_gte a = arg_gte b
  ∧ arg_lt a = arg_lt b ∧ arg_lte a = arg_lte b
  ∧ ∀ rs, limit_reached a rs = limit_reached b rs.

(** The predicate [startIndex_of] searches with, when a lower bound is
    given. *)
Definition above_lower (args : ListArgs) (k : string) : bool :=
  if truthy (arg_gt args) then str_gt k (default "" (arg_gt args))
  else str_ge k (default "" (arg_gte args)).

(** Strictly ascending, stated by positions. *)
Definition ascending (ks : list string) : Prop :=
  ∀ i j a b, (i < j)%nat → ks !! i = Some a → ks !! j = Some b →
             String.ltb a b = true.

(** A tree at rest whose root is a leaf with strictly ascending keys and one
    value per key. *)
Definition root_leaf (t : Tree) (ks vs : list string) : Prop :=
  initialized t = true
  ∧ height t = 0
  ∧ keys (parse_node (store t) (Some (rootId t))) = Some ks
  ∧ values (parse_node (store t) (Some (rootId t))) = Some vs
  ∧ ascending ks
  ∧ length vs = length ks.

(** ** Trees used as concrete instances *)

(** The tree after [set("a", "1")] and [set("b", "2")] with default sizes. *)
Definition ab_tree : Tree :=
  mkTree
    (<[METADATA_KEY := StoredMetadata "00root" 0]>
       {[ "00root" := StoredNode (leaf ["a"; "b"] ["1"; "2"] None) ]})
    "00root" 0 true MAX_LEAF_SIZE MAX_INTERNAL_SIZE 0.

(** The tree of height 1 that the small-fanout split produces. *)
Definition split_tree : Tree :=
  let right := LEAF_PREFIX +:+ fresh_suffix example_host 0 in
  let root := INTERNAL_PREFIX +:+ fresh_suffix example_host 1 in
  mkTree
    (<[METADATA_KEY := StoredMetadata root 1]>
       (<[root := StoredNode (internal ["c"] ["00root"; right])]>
          (<[right := StoredNode (leaf ["c"; "d"; "e"] ["c"; "d"; "e"] None)]>
             {[ "00root" :=
                  StoredNode (leaf ["a"; "b"] ["a"; "b"] (Some right)) ]})))
    root 1 true 4 MAX_INTERNAL_SIZE 2.

(** A tree whose root is the single leaf ["00root"]. *)
Definition single_leaf_tree (ks vs : list string) (maxLeaf maxInternal : Z)
  : Tree :=
  mkTree
    (<[METADATA_KEY := StoredMetadata "00root" 0]>
       {[ "00root" := StoredNode (leaf ks vs None) ]})
    "00root" 0 true maxLeaf maxInternal 0.

(** ** Proof automation *)

(** Unfold the monad down to matches on outcomes. *)
#[local] Ltac run_monad :=
  unfold ensure_init, saveMetadata, assign_root, store_write, new_id,
    get_tree, defined, modelled, mret, M_ret, ret, mbind, M_bind, bind,
    out_of_model, throw; cbn beta iota.

(** Case analysis on whatever the goal matches on. *)
#[local] Ltac split_matches :=
  repeat (cbn beta iota;
          match goal with
          | |- context [match ?x with _ => _ end] =>
              lazymatch x with
              | context [match _ with _ => _ end] => fail
              | _ => destruct x eqn:?
              end
          end).

(** ** Further vocabulary *)

(** The upper bounds [list] checks a key against, in plain terms: below
    [lt] and at most [lte], an empty bound counting as none. *)
Definition within_upper (args : ListArgs) (k : string) : Prop :=
  (∀ b, arg_lt args = Some b → b ≠ "" → String.ltb k b = true)
  ∧ (∀ b, arg_lte args = Some b → b ≠ "" → String.leb k b = true).

(** What a scan that ended leaves, given one property for a [return results]
    inside the loop and one for running off the end of the chain. *)
Definition scan_keeps (QR QE : list Entry → Prop) (r : scan) : Prop :=
  match r with
  | Returned rs => QR rs
  | Exhausted rs => QE rs
  | _ => True
  end.

(** The result of a call that returned. *)
Definition returned {A} (o : outcome A) (a : A) : Prop :=
  ∃ t', o = Ok a t'.

(** ** A tree that is one leaf

    Until the first split the whole tree is the root leaf.  [single_leaf t m]
    says that the initialized tree [t] has height 0 and that its root record
    is the leaf holding the entries [m], keys strictly ascending. *)
Definition single_leaf (t : Tree) (m : list (string * string)) : Prop :=
  initialized t = true
  ∧ height t = 0
  ∧ rootId t ≠ ""
  ∧ parse_node (store t) (Some (rootId t)) = leaf (map fst m) (map snd m) None
  ∧ ascending (map fst m).

(** Lookup in the reference map: the value beside the first equal key. *)
Fixpoint ref_get (k : string) (m : list (string * string)) : option string :=
  match m with
  | [] => None
  | (k', v') :: m' => if String.eqb k' k then Some v' else ref_get k m'
  end.

(** The operations never take the reference map beyond [cap] entries. *)
Fixpoint fits (cap : Z) (m : list (string * string)) (ops : list Op) : bool :=
  match ops with
  | [] => true
  | o :: ops' =>
      let m' := ref_apply m o in (len m' <=? cap) && fits cap m' ops'
  end.

(** The tree [t] with the record [n] written under its root identifier. *)
Definition with_root_record (t : Tree) (n : Node) : Tree :=
  set_store t (<[rootId t := StoredNode n]> (store t)).

(** The key [k] lies within the bounds [list] acts on: above the lower
    bound ([gt] if given, else [gte]; an empty string is no bound), below
    [lt] and at most [lte]. *)
Definition in_range (args : ListArgs) (k : string) : bool :=
  match lower_bound args with
  | Some lo => if lower_open args then String.ltb lo k else String.leb lo k
  | None => true
  end
  && match arg_lt args with
     | Some b => String.eqb b "" || String.ltb k b
     | None => true
     end
  && match arg_lte args with
     | Some b => String.eqb b "" || String.leb k b
     | None => true
     end.

(** The first [limit] entries, all of them when [limit] is missing or 0. *)
Definition limited (args : ListArgs) (m : list (string * string))
  : list (string * string) :=
  match arg_limit args with
  | Some n => if n =? 0 then m else take (Z.to_nat n) m
  | None => m
  end.

(** The key ends the scan: [args.lt && key >= args.lt], or
    [args.lte && key > args.lte]. *)
Definition stops (args : ListArgs) (k : string) : bool :=
  reaches_lt args (Some k) || passes_lte args (Some k).

(** How many more entries the scan may push before [limit] ends it, if
    [limit] counts. *)
Definition room (args : ListArgs) (rs : list Entry) : option nat :=
  match arg_limit args with
  | Some n => if n =? 0 then None else Some (Z.to_nat (n - len rs))
  | None => None
  end.

Definition cut {A} (c : option nat) (l : list A) : list A :=
  match c with
  | Some n => take n l
  | None => l
  end.

(** The entries a scan collected, however it ended. *)
Definition collected (r : scan) : option (list Entry) :=
  match r with
  | Returned rs => Some rs
  | Exhausted rs => Some rs
  | _ => None
  end.

(** ** A tree that is two leaves under one root

    What the first split leaves: an initialized tree of height 1 whose root
    is an internal node with the one separator [sk] and the two children
    [l] and [r]; [l] is the leaf holding [m1] and pointing to [r], [r] the
    leaf holding [m2] and ending the chain; the keys are strictly ascending
    across both, those of [m1] below [sk] and those of [m2] not below it. *)
Definition two_leaves (t : Tree) (sk l r : string)
    (m1 m2 : list (string * string)) : Prop :=
  initialized t = true
  ∧ height t = 1
  ∧ l ≠ "" ∧ r ≠ "" ∧ l ≠ r ∧ rootId t ≠ l ∧ rootId t ≠ r
  ∧ parse_node (store t) (Some (rootId t)) = internal [sk] [l; r]
  ∧ parse_node (store t) (Some l) = leaf (map fst m1) (map snd m1) (Some r)
  ∧ parse_node (store t) (Some r) = leaf (map fst m2) (map snd m2) None
  ∧ ascending (map fst (m1 ++ m2))
  ∧ (∀ k, k ∈ map fst m1 → String.ltb k sk = true)
  ∧ (∀ k, k ∈ map fst m2 → String.leb sk k = true).

(** The tree [t] with the record [n] written under [id]. *)
Definition with_record (t : Tree) (id : string) (n : Node) : Tree :=
  set_store t (<[id := StoredNode n]> (store t)).

(** ** What no operation touches

    The sizes fixed by the constructor stay; an initialized object stays
    initialized; identifiers already drawn are never drawn again. *)
Definition same_config (t t' : Tree) : Prop :=
  maxLeafSize t' = maxLeafSize t
  ∧ maxInternalSize t' = maxInternalSize t
  ∧ (initialized t = true → initialized t' = true)
  ∧ (ticks t ≤ ticks t')%nat.

(** The height moved by at most one step of [d]. *)
Definition height_step (d : Z) (t t' : Tree) : Prop :=
  height t' = height t ∨ height t' = height t + d.

(** Close a goal about the state a run ended in. *)
#[local] Ltac frame_done :=
  let Hfin := fresh "Hfin" in
  intros Hfin;
  first
    [ discriminate Hfin
    | injection Hfin as <-;
      unfold same_config, height_step, set_store, set_root, tick,
        set_initialized;
      cbn [maxLeafSize maxInternalSize initialized ticks height];
      repeat match goal with
        | H : (_ =? _) = true |- _ => apply Z.eqb_eq in H
        end;
      intuition lia ].

(** ** Vocabulary for the in-memory database *)

(** What the class relies on from its binary search: [{ found: i }] names a
    position holding a key equal to [k], with smaller keys before it and
    larger keys after it; [{ closest: i }] names the position that
    separates the smaller keys from the larger ones. *)
Definition search_finds (compareKey : string → string → Z)
    (data : list (string * string)) (k : string) (r : search_result) : Prop :=
  match r with
  | found i =>
      (∃ kv, data !! i = Some kv ∧ compareKey (fst kv) k = 0)
      ∧ (∀ j kv, (j < i)%nat → data !! j = Some kv → compareKey (fst kv) k < 0)
      ∧ (∀ j kv, (i < j)%nat → data !! j = Some kv → compareKey (fst kv) k > 0)
  | closest i =>
      (i ≤ length data)%nat
      ∧ (∀ j kv, (j < i)%nat → data !! j = Some kv → compareKey (fst kv) k < 0)
      ∧ (∀ j kv, (i ≤ j)%nat → data !! j = Some kv → compareKey (fst kv) k > 0)
  end.

(** The key passes the lower bound given ([gt], else [gte]) and the upper
    bound given ([lt], else [lte]), as the comparator orders them. *)
Definition db_above (compareKey : string → string → Z) (args : ListArgs)
    (k : string) : bool :=
  match arg_gt args, arg_gte args with
  | Some s, _ => compareKey k s >? 0
  | None, Some s => compareKey k s >=? 0
  | None, None => true
  end.
Definition db_below (compareKey : string → string → Z) (args : ListArgs)
    (k : string) : bool :=
  match arg_lt args, arg_lte args with
  | Some e, _ => compareKey k e <? 0
  | None, Some e => compareKey k e <=? 0
  | None, None => true
  end.

(** The bounds do not contradict each other, as [list] checks it. *)
Definition db_bounds_valid (compareKey : string → string → Z)
    (args : ListArgs) : Prop :=
  ¬ (is_Some (arg_gt args) ∧ is_Some (arg_gte args))
  ∧ ¬ (is_Some (arg_lt args) ∧ is_Some (arg_lte args))
  ∧ ∀ s e,
      first_defined (arg_gt args) (arg_gte args) = Some s →
      first_defined (arg_lt args) (arg_lte args) = Some e →
      compareKey s e < 0
      ∨ (compareKey s e = 0 ∧ arg_gt args = None ∧ arg_lt args = None).

(** An instance: the order on code units, and a search from the left that
    answers as a binary search does on sorted data. *)
Definition compare_strings (a b : string) : Z :=
  match String.compare a b with
  | Lt => -1
  | Eq => 0
  | Gt => 1
  end.

Fixpoint scan_search_from (i : nat) (data : list (string * string))
    (k : string) : search_result :=
  match data with
  | [] => closest i
  | (k', _) :: rest =>
      match String.compare k' k with
      | Eq => found i
      | Lt => scan_search_from (S i) rest k
      | Gt => closest i
      end
  end.

Definition scan_search (data : list (string * string)) (k : string)
  : search_result :=
  scan_search_from 0 data k.

(** The two-leaf tree of the small-fanout scenario after [set("f", "f")],
    which fills its right leaf. *)
Definition full_right_tree : Tree :=
  with_record split_tree (LEAF_PREFIX +:+ fresh_suffix example_host 0)
    (leaf ["c"; "d"; "e"; "f"] ["c"; "d"; "e"; "f"] None).

(** ** What the store keeps for a later object

    The metadata record is what a new [BPlusTree] over the same store
    starts from.  It is current when it names the object's root and height;
    it stays apart from the node records as long as no node is stored
    under, or lists as a child, the key of the metadata record. *)
Definition node_id (id : string) : Prop := id ≠ METADATA_KEY.

(** An identifier that may be [undefined]. *)
Definition opt_id (o : option string) : Prop :=
  ∀ id, o = Some id → node_id id.

Definition children_ok (n : Node) : Prop :=
  ∀ cs, children n = Some cs → Forall node_id cs.

Definition store_ok (s : gmap string Stored) : Prop :=
  ∀ id n, s !! id = Some (StoredNode n) → children_ok n.

Definition metadata_current (t : Tree) : Prop :=
  store t !! METADATA_KEY = Some (StoredMetadata (rootId t) (height t)).

Definition persistent (t : Tree) : Prop :=
  node_id (rootId t) ∧ metadata_current t ∧ store_ok (store t).

Definition path_ok (e : NodePath) : Prop := opt_id (path_id e).

Create HintDb persist.

(** Side conditions about identifiers. *)
#[local] Ltac solve_id :=
  lazymatch goal with
  | |- ?i ≠ METADATA_KEY => change (node_id i); typeclasses eauto with persist
  | |- _ => typeclasses eauto with persist
  end.

(** The metadata record under a pile of node writes and deletes. *)
#[local] Ltac persist_lookup :=
  repeat first
    [ rewrite lookup_insert_eq
    | rewrite lookup_insert_ne by solve_id
    | rewrite lookup_delete_ne by solve_id ];
  first [ reflexivity | assumption ].

(** A state reached by node writes and deletes is still [persistent]. *)
#[local] Ltac persist_goal :=
  unfold persistent, metadata_current, set_store, set_root, tick,
    set_initialized, write_sets, write_deletes;
  cbn [store rootId height foldl fst snd];
  split; [solve_id | split; [persist_lookup | solve_id]].

(** Close a goal about the state a run ended in. *)
#[local] Ltac persist_done :=
  let Hfin := fresh "Hfin" in
  intros Hfin;
  first [ discriminate Hfin | injection Hfin as <-; persist_goal ].

(** * Properties *)

(** ** Scenarios in which the tree departs from its intended behaviour *)

(** C1: with [maxLeafSize = 4], after [set] of "a" .. "g" on a fresh tree
    the reference sorted map lists all seven entries while the tree's
    [list()] returns only "e", "f", "g": the second leaf split files the new
    leaf at the front of the root's children. *)
Theorem list_departs_from_reference :
  let ops := map (fun k => OpSet k k) letters_a_g in
  let tree_result list_ :=
    value_of ((init;; apply_ops example_host ops;; list_ 10%nat no_args)
                (fresh_object ∅ 4 32)) in
  ref_run ops = map (fun k => (Some k, Some k)) letters_a_g
  ∧ tree_result list_bptree = Some (map (fun k => (Some k, Some k)) ["e"; "f"; "g"])
  ∧ tree_result list_sibling = Some (map (fun k => (Some k, Some k)) ["e"; "f"; "g"]).
Proof. vm_compute. repeat split; reflexivity. Qed.

(** C2: [set("g", "g")] followed by [get("g")] returns [undefined] in the
    same scenario, and with the default sizes the 49th ascending [set] is
    not found by [get] either. *)
Theorem get_after_set_misses :
  value_of ((init;; set_letters example_host letters_a_g;; tree_get "g")
              (fresh_object ∅ 4 32)) = Some None
  ∧ value_of ((init;;
               for_each (fun kv => tree_set example_host (fst kv) (snd kv))
                        (test_data 49);;
               tree_get (test_key 48))
                (fresh_object ∅ MAX_LEAF_SIZE MAX_INTERNAL_SIZE)) = Some None.
Proof. vm_compute. split; reflexivity. Qed.

(** C3: on a tree holding "a" and "b", [list({ gt: "b" })] of
    [src/bptree/bptree.ts] returns an entry with an [undefined] key followed
    by the entries for "a" and "b", both at or below the bound; the sibling
    variant, which skips a leaf whose start index is [-1], returns nothing. *)
Theorem list_gt_returns_keys_at_or_below_bound :
  let args := mkArgs (Some "b") None None None None None None in
  let run list_ :=
    value_of ((init;; tree_set example_host "a" "1";;
               tree_set example_host "b" "2";; list_ 10%nat args)
                (fresh_object ∅ MAX_LEAF_SIZE MAX_INTERNAL_SIZE)) in
  run list_bptree
    = Some [(None, None); (Some "a", Some "1"); (Some "b", Some "2")]
  ∧ run list_sibling = Some [].
Proof. vm_compute. split; reflexivity. Qed.

(** C4: I1 holds after [set] of "a" .. "f" and is broken by the next
    [set("g", "g")]; after one more [set("h", "h")] the keys met along the
    [next] pointers from the first leaf are not ascending. *)
Theorem set_breaks_sorted_leaf_chain :
  let after ks :=
    final_tree ((init;; set_letters example_host ks) (fresh_object ∅ 4 32)) in
  option_map (sorted_leaf_chain 10) (after ["a"; "b"; "c"; "d"; "e"; "f"])
    = Some true
  ∧ option_map (sorted_leaf_chain 10) (after letters_a_g) = Some false
  ∧ option_map (fun t => option_map (fun c => concat (map snd c))
                           (leaf_chain 10 (store t) (Some "00root")))
               (after (letters_a_g ++ ["h"]))
    = Some (Some ["a"; "b"; "c"; "d"; "h"; "e"; "f"; "g"])
  ∧ strictly_ascending ["a"; "b"; "c"; "d"; "h"; "e"; "f"; "g"] = false.
Proof. vm_compute. repeat split; reflexivity. Qed.

(** C6: [reverse] is ignored by [list] of [src/bptree/bptree.ts]; in the
    sibling variant a scan ended by [limit] or by [lt] returns before the
    post-processing, so the result is not reversed either. *)
Theorem list_reverse_not_applied :
  let run list_ args :=
    value_of ((init;; set_letters example_host ["a"; "b"; "c"];;
               list_ 10%nat args)
                (fresh_object ∅ MAX_LEAF_SIZE MAX_INTERNAL_SIZE)) in
  let pairs := map (fun k : string => (Some k, Some k)) in
  run list_bptree (mkArgs None None None None None None (Some true))
    = Some (pairs ["a"; "b"; "c"])
  ∧ run list_sibling (mkArgs None None None None (Some 2) None (Some true))
    = Some (pairs ["a"; "b"])
  ∧ run list_sibling (mkArgs None None (Some "c") None None None (Some true))
    = Some (pairs ["a"; "b"])
  ∧ run list_sibling (mkArgs None None (Some "c") None None None None)
    = Some (pairs ["a"; "b"]).
Proof. vm_compute. repeat split; reflexivity. Qed.

(** C8: [get] raises a TypeError when the root record named by the metadata
    is missing from the store, and also in states reached by ascending
    [set]s alone: sixteen of them with both sizes 4, where the descent for
    "key013" ends on an internal node, and 576 of them with the default
    sizes, where the descent for "key321" does. *)
Theorem get_raises :
  throws ((init;; tree_get "a")
            (fresh_object {[ METADATA_KEY := StoredMetadata "00root" 0 ]}
                          MAX_LEAF_SIZE MAX_INTERNAL_SIZE)) = true
  ∧ (let built :=
       (init;; for_each (fun kv => tree_set example_host (fst kv) (snd kv))
                        (test_data 16))
         (fresh_object ∅ 4 4) in
     value_of built = Some tt
     ∧ option_map (fun t => throws (tree_get (test_key 13) t)) (final_tree built)
       = Some true)
  ∧ (let built :=
       (init;; for_each (fun kv => tree_set example_host (fst kv) (snd kv))
                        (test_data 576))
         (fresh_object ∅ MAX_LEAF_SIZE MAX_INTERNAL_SIZE) in
     value_of built = Some tt
     ∧ option_map (fun t => throws (tree_get (test_key 321) t)) (final_tree built)
       = Some true).
Proof. vm_compute. repeat split; reflexivity. Qed.

(** ** Facts about the primitives *)

Lemma bind_Ok {A B} (m : M A) (k : A → M B) (t t' : Tree) (a : A) :
  m t = Ok a t' → (m ≫= k) t = k a t'.
Proof. intros H. unfold mbind, M_bind, bind. now rewrite H. Qed.

Lemma bind_Throw {A B} (m : M A) (k : A → M B) (t t' : Tree) :
  m t = Throw t' → (m ≫= k) t = Throw t'.
Proof. intros H. unfold mbind, M_bind, bind. now rewrite H. Qed.

Lemma ensure_init_initialized (t : Tree) :
  initialized t = true → ensure_init t = Ok tt t.
Proof.
  intros H. unfold ensure_init.
  rewrite (bind_Ok get_tree _ t t t) by reflexivity.
  now rewrite H.
Qed.

(** [indexOf] answers [-1] exactly for a string that is not in the array. *)
Lemma indexOf_from_range (i : Z) (l : list string) (x : string) :
  indexOf_from i l x = -1 ∨ i ≤ indexOf_from i l x.
Proof.
  revert i. induction l as [|y l IH]; intros i; cbn.
  - now left.
  - destruct (String.eqb y x).
    + right. lia.
    + destruct (IH (i + 1)) as [->|H]; [now left | right; lia].
Qed.

Lemma indexOf_from_absent (i : Z) (l : list string) (x : string) :
  0 ≤ i → (indexOf_from i l x = -1 ↔ x ∉ l).
Proof.
  revert i. induction l as [|y l IH]; intros i Hi; cbn.
  - split; [intros _; apply not_elem_of_nil | reflexivity].
  - destruct (String.eqb_spec y x) as [->|Hne].
    + split; [lia | intros H; exfalso; apply H; left].
    + rewrite IH by lia. rewrite not_elem_of_cons.
      split; [intros H; split; [intros ->; now apply Hne | exact H]
             | intros [_ H]; exact H].
Qed.

Lemma indexOf_absent (l : list string) (x : string) :
  indexOf l x = -1 ↔ x ∉ l.
Proof. apply indexOf_from_absent. lia. Qed.

(** [findNodePath] and [findLeaf] run the same descent: the path ends with
    the leaf that [findLeaf] returns, paired with [-1]. *)
Lemma findNodePath_loop_findLeaf (n : nat) (s : gmap string Stored)
    (key : string) (current : option string) (path : list NodePath) :
  match findLeaf_loop n s key current with
  | Some leafId =>
      ∃ p, findNodePath_loop n s key current path = Some p
           ∧ last p = Some (mkPath leafId (-1))
  | None => findNodePath_loop n s key current path = None
  end.
Proof.
  revert current path. induction n as [|n IH]; intros current path; cbn.
  - eexists. split; [reflexivity|]. apply last_snoc.
  - destruct (descend s key current) as [[index child]|]; cbn; [|reflexivity].
    apply IH.
Qed.

Lemma findNodePath_findLeaf (t : Tree) (key : string) :
  match findLeaf t key with
  | Some leafId =>
      ∃ p, findNodePath t key = Some p ∧ last p = Some (mkPath leafId (-1))
  | None => findNodePath t key = None
  end.
Proof. apply findNodePath_loop_findLeaf. Qed.

(** The binary searches do not depend on the step budget once it covers
    the interval searched. *)
Lemma midpoint_between (left right : nat) :
  (left < right)%nat →
  (left ≤ (left + right) / 2)%nat ∧ ((left + right) / 2 < right)%nat.
Proof.
  intros H. pose proof (Nat.div_mod_eq (left + right) 2) as Hd.
  pose proof (Nat.mod_upper_bound (left + right) 2). lia.
Qed.

Lemma findChildIndex_loop_fuel (ks : list string) (key : string)
    (fuel1 fuel2 left right : nat) :
  (right - left ≤ fuel1)%nat → (right - left ≤ fuel2)%nat →
  findChildIndex_loop fuel1 ks key left right
  = findChildIndex_loop fuel2 ks key left right.
Proof.
  revert fuel2 left right.
  induction fuel1 as [|f1 IH]; intros [|f2] left right H1 H2;
    cbn [findChildIndex_loop]; try reflexivity.
  - destruct (Nat.ltb_spec left right); [lia | reflexivity].
  - destruct (Nat.ltb_spec left right); [lia | reflexivity].
  - destruct (Nat.ltb_spec left right) as [Hlt|]; [|reflexivity].
    destruct (midpoint_between left right Hlt).
    destruct (ks !! ((left + right) / 2)%nat) as [km|];
      [destruct (str_le km key)|]; apply IH; lia.
Qed.

Lemma findInsertIndex_loop_fuel (ks : list string) (key : string)
    (fuel1 fuel2 left right : nat) :
  (right - left ≤ fuel1)%nat → (right - left ≤ fuel2)%nat →
  findInsertIndex_loop fuel1 ks key left right
  = findInsertIndex_loop fuel2 ks key left right.
Proof.
  revert fuel2 left right.
  induction fuel1 as [|f1 IH]; intros [|f2] left right H1 H2;
    cbn [findInsertIndex_loop]; try reflexivity.
  - destruct (Nat.ltb_spec left right); [lia | reflexivity].
  - destruct (Nat.ltb_spec left right); [lia | reflexivity].
  - destruct (Nat.ltb_spec left right) as [Hlt|]; [|reflexivity].
    destruct (midpoint_between left right Hlt).
    destruct (ks !! ((left + right) / 2)%nat) as [km|];
      [destruct (str_lt km key); [|destruct (String.eqb km key)]|];
      try reflexivity; apply IH; lia.
Qed.

(** ** The step budgets of the structural recursions suffice *)

Lemma length_removelast_lt {A} (l : list A) :
  l ≠ [] → (length (removelast l) < length l)%nat.
Proof.
  intros H. destruct (exists_last H) as (l' & a & ->).
  rewrite removelast_last, length_app. cbn. lia.
Qed.

Lemma splitInternalNode_enough_fuel (host : nat → N * string) (fuel : nat) :
  ∀ nodeId node path t,
    (length path ≤ fuel)%nat →
    splitInternalNode host fuel nodeId node path t ≠ OutOfFuel.
Proof.
  induction fuel as [|f IH]; intros nodeId node path t Hlen.
  - destruct path; [|cbn in Hlen; lia].
    cbn [splitInternalNode length Nat.eqb]. run_monad.
    split_matches; discriminate.
  - cbn [splitInternalNode]. run_monad.
    destruct (keys node); [|discriminate]. cbn beta iota.
    destruct (children node); [|discriminate]. cbn beta iota.
    destruct (length path =? 0)%nat eqn:Hp.
    + split_matches; discriminate.
    + cbn beta iota. split_matches; try discriminate.
      apply IH. apply Nat.eqb_neq in Hp.
      assert (path ≠ []) by (intros ->; apply Hp; reflexivity).
      pose proof (length_removelast_lt path H). lia.
Qed.

Lemma last_Some_nonempty {A} (l : list A) (a : A) : last l = Some a → l ≠ [].
Proof. intros H ->. discriminate. Qed.

Lemma rebalanceAfterDelete_enough_fuel (fuel : nat) :
  ∀ nodeId node path t,
    (0 < fuel)%nat → (length path ≤ fuel)%nat →
    rebalanceAfterDelete fuel nodeId node path t ≠ OutOfFuel.
Proof.
  induction fuel as [|f IH]; intros nodeId node path t Hpos Hlen; [lia|].
  cbn [rebalanceAfterDelete]. run_monad.
  destruct (last path) as [entry|] eqn:Hlast; [|discriminate].
  apply last_Some_nonempty in Hlast.
  pose proof (length_removelast_lt path Hlast) as Hshort.
  assert (Hrec : ∀ nodeId' node' t',
             (0 <? len (removelast path)) = true →
             rebalanceAfterDelete f nodeId' node' (removelast path) t'
             ≠ OutOfFuel).
  { intros nodeId' node' t' Hnonempty. apply IH; unfold len in *; lia. }
  unfold mergeWithLeftSibling, mergeWithRightSibling,
    borrowFromLeftSibling, borrowFromRightSibling, array_assign.
  run_monad.
  split_matches; try discriminate;
    repeat match goal with
      | H : (_ && _) = true |- _ => apply andb_true_iff in H as [? ?]
      end;
    now apply Hrec.
Qed.

Lemma init_enough_fuel (t : Tree) : init t ≠ OutOfFuel.
Proof. unfold init. run_monad. split_matches; discriminate. Qed.

Lemma ensure_init_enough_fuel (t : Tree) : ensure_init t ≠ OutOfFuel.
Proof.
  unfold ensure_init. run_monad.
  destruct (initialized t); [discriminate | apply init_enough_fuel].
Qed.

Lemma tree_insert_enough_fuel (host : nat → N * string) (key value : string)
    (t : Tree) :
  tree_insert host key value t ≠ OutOfFuel.
Proof.
  unfold tree_insert, splitLeafNode, updateParentAfterSplit, array_assign.
  run_monad.
  split_matches; try discriminate;
    now apply splitInternalNode_enough_fuel.
Qed.

Lemma tree_remove_enough_fuel (key : string) (t : Tree) :
  tree_remove key t ≠ OutOfFuel.
Proof.
  unfold tree_remove. run_monad.
  split_matches; try discriminate.
  apply rebalanceAfterDelete_enough_fuel; [|lia].
  match goal with
  | H : (_ && (1 <? len ?p)) = true |- _ =>
      apply andb_true_iff in H as [_ H]; unfold len in H; lia
  end.
Qed.

Lemma bind_enough_fuel {A B} (m : M A) (k : A → M B) (t : Tree) :
  m t ≠ OutOfFuel → (∀ a t', k a t' ≠ OutOfFuel) →
  (m ≫= k) t ≠ OutOfFuel.
Proof.
  intros Hm Hk. unfold mbind, M_bind, bind.
  destruct (m t); [apply Hk | discriminate | discriminate | contradiction].
Qed.

Lemma for_each_enough_fuel {A} (body : A → M unit) (xs : list A) :
  (∀ x t, body x t ≠ OutOfFuel) → ∀ t, for_each body xs t ≠ OutOfFuel.
Proof.
  intros Hbody. induction xs as [|x xs IH]; intros t; cbn [for_each].
  - discriminate.
  - apply bind_enough_fuel; [apply Hbody | intros _ t'; apply IH].
Qed.

(** [write], [set], [delete] and [get] need no step budget: the recursions
    of the structural repair are bounded by the captured path, so these
    operations always return, throw, or leave the representation. *)
Lemma mutators_need_no_budget (host : nat → N * string) (t : Tree) :
  (∀ sets dels, tree_write host sets dels t ≠ OutOfFuel)
  ∧ (∀ key value, tree_set host key value t ≠ OutOfFuel)
  ∧ (∀ key, tree_delete host key t ≠ OutOfFuel)
  ∧ (∀ key, tree_get key t ≠ OutOfFuel).
Proof.
  assert (Hwrite : ∀ sets dels t', tree_write host sets dels t' ≠ OutOfFuel).
  { intros sets dels t'. unfold tree_write.
    apply bind_enough_fuel; [apply ensure_init_enough_fuel|]. intros _ t1.
    apply bind_enough_fuel.
    - apply for_each_enough_fuel. intros x t2. apply tree_insert_enough_fuel.
    - intros _ t2. apply for_each_enough_fuel. intros x t3.
      apply tree_remove_enough_fuel. }
  repeat split.
  - intros. apply Hwrite.
  - intros. unfold tree_set.
    apply bind_enough_fuel; [apply ensure_init_enough_fuel|].
    intros _ t'. apply Hwrite.
  - intros. unfold tree_delete.
    apply bind_enough_fuel; [apply ensure_init_enough_fuel|].
    intros _ t'. apply Hwrite.
  - intros. unfold tree_get.
    apply bind_enough_fuel; [apply ensure_init_enough_fuel|].
    intros _ t'. run_monad. split_matches; discriminate.
Qed.

(** ** [limit] and [offset] equal to zero *)

Lemma visit_alike (a b : ListArgs) vals i key rs :
  scan_alike a b → visit a vals i key rs = visit b vals i key rs.
Proof.
  intros (Hgt & Hgte & Hlt & Hlte & Hlim). unfold visit, reaches_lt, passes_lte.
  rewrite Hlt, Hlte. destruct vals; [|reflexivity]. now rewrite Hlim.
Qed.

Lemma for_keys_alike (a b : ListArgs) vals ks :
  scan_alike a b → ∀ i rs, for_keys a vals i ks rs = for_keys b vals i ks rs.
Proof.
  intros H. induction ks as [|k ks IH]; intros i rs; cbn; [reflexivity|].
  rewrite (visit_alike a b) by assumption.
  destruct (visit b vals i (Some k) rs); try reflexivity. apply IH.
Qed.

Lemma for_from_alike (a b : ListArgs) vals start ks rs :
  scan_alike a b → for_from a vals start ks rs = for_from b vals start ks rs.
Proof.
  intros H. unfold for_from. rewrite (visit_alike a b) by assumption.
  destruct (start <? 0).
  - destruct (visit b vals start None rs); try reflexivity.
    now apply for_keys_alike.
  - now apply for_keys_alike.
Qed.

Lemma startIndex_of_alike (a b : ListArgs) ks :
  scan_alike a b → startIndex_of a ks = startIndex_of b ks.
Proof.
  intros (Hgt & Hgte & _). unfold startIndex_of. now rewrite Hgt, Hgte.
Qed.

Lemma start_key_alike (a b : ListArgs) :
  scan_alike a b → start_key a = start_key b.
Proof. intros (Hgt & Hgte & _). unfold start_key. now rewrite Hgt, Hgte. Qed.

Lemma scan_leaves_alike (a b : ListArgs) s :
  scan_alike a b →
  ∀ fuel current rs,
    scan_leaves fuel s a current rs = scan_leaves fuel s b current rs.
Proof.
  intros H. induction fuel as [|f IH]; intros current rs; cbn; [reflexivity|].
  destruct (truthy current); [|reflexivity].
  destruct (keys (parse_node s current)) as [ks|]; [|reflexivity].
  rewrite (startIndex_of_alike a b) by assumption.
  rewrite (for_from_alike a b) by assumption.
  destruct (for_from b _ _ _ _); try reflexivity. apply IH.
Qed.

Lemma scan_leaves_skipping_alike (a b : ListArgs) s :
  scan_alike a b →
  ∀ fuel current rs,
    scan_leaves_skipping fuel s a current rs
    = scan_leaves_skipping fuel s b current rs.
Proof.
  intros H. induction fuel as [|f IH]; intros current rs; cbn; [reflexivity|].
  destruct (truthy current); [|reflexivity].
  destruct (keys (parse_node s current)) as [ks|]; [|reflexivity].
  rewrite (startIndex_of_alike a b) by assumption.
  destruct (startIndex_of b ks =? -1); [apply IH|].
  rewrite (for_from_alike a b) by assumption.
  destruct (for_from b _ _ _ _); try reflexivity. apply IH.
Qed.

Lemma list_bptree_alike (a b : ListArgs) fuel t :
  scan_alike a b → list_bptree fuel a t = list_bptree fuel b t.
Proof.
  intros H. unfold list_bptree, mbind, M_bind, bind.
  destruct (ensure_init t) as [[] t1| | |]; try reflexivity.
  cbn. rewrite (start_key_alike a b) by assumption.
  destruct (findLeaf t1 (start_key b)) as [current|]; cbn; [|reflexivity].
  now rewrite (scan_leaves_alike a b).
Qed.

Lemma list_sibling_alike (a b : ListArgs) fuel t :
  scan_alike a b → (∀ rs, post_process a rs = post_process b rs) →
  list_sibling fuel a t = list_sibling fuel b t.
Proof.
  intros H Hpost. unfold list_sibling, mbind, M_bind, bind.
  destruct (ensure_init t) as [[] t1| | |]; try reflexivity.
  cbn. rewrite (start_key_alike a b) by assumption.
  destruct (findLeaf t1 (start_key b)) as [current|]; cbn; [|reflexivity].
  rewrite (scan_leaves_skipping_alike a b) by assumption.
  destruct (scan_leaves_skipping _ _ _ _ _); try reflexivity.
  now rewrite Hpost.
Qed.

Lemma scan_alike_limit_zero (args : ListArgs) :
  scan_alike (with_limit args (Some 0)) (with_limit args None).
Proof. repeat split. Qed.

Lemma scan_alike_offset (args : ListArgs) (o o' : option Z) :
  scan_alike (with_offset args o) (with_offset args o').
Proof. repeat split. Qed.

(** C10: for every tree state, step budget and argument record, [list] with
    [limit: 0] behaves as with [limit] omitted, and [list] with [offset: 0]
    as with [offset] omitted, in both variants; on a tree holding "a", "b",
    "c", [list({ limit: 0 })] returns all three entries. *)
Theorem list_zero_limit_or_offset_is_omitted :
  (∀ (fuel : nat) (args : ListArgs) (t : Tree),
      list_bptree fuel (with_limit args (Some 0)) t
      = list_bptree fuel (with_limit args None) t
      ∧ list_bptree fuel (with_offset args (Some 0)) t
        = list_bptree fuel (with_offset args None) t
      ∧ list_sibling fuel (with_limit args (Some 0)) t
        = list_sibling fuel (with_limit args None) t
      ∧ list_sibling fuel (with_offset args (Some 0)) t
        = list_sibling fuel (with_offset args None) t)
  ∧ (let run list_ :=
       value_of ((init;; set_letters example_host ["a"; "b"; "c"];;
                  list_ 10%nat (with_limit no_args (Some 0)))
                   (fresh_object ∅ MAX_LEAF_SIZE MAX_INTERNAL_SIZE)) in
     let all := map (fun k : string => (Some k, Some k)) ["a"; "b"; "c"] in
     run list_bptree = Some all ∧ run list_sibling = Some all).
Proof.
  split.
  - intros fuel args t. repeat split.
    + apply list_bptree_alike, scan_alike_limit_zero.
    + apply list_bptree_alike, scan_alike_offset.
    + apply list_sibling_alike; [apply scan_alike_limit_zero | reflexivity].
    + apply list_sibling_alike; [apply scan_alike_offset | reflexivity].
  - vm_compute. split; reflexivity.
Qed.

(** ** Deleting a key the tree does not hold *)

Lemma target_keys_root (t : Tree) (k : string) :
  height t = 0 →
  target_keys t k = keys (parse_node (store t) (Some (rootId t))).
Proof. intros H. unfold target_keys, findLeaf. now rewrite H. Qed.

Lemma tree_remove_absent (t : Tree) (k : string) :
  holds_key t k = false →
  match target_keys t k with
  | Some _ => tree_remove k t = Ok tt t
  | None => tree_remove k t = Throw t
  end.
Proof.
  unfold holds_key, tree_remove. intros Hk.
  rewrite (bind_Ok get_tree _ t t t) by reflexivity.
  destruct (height t =? 0) eqn:Hh.
  - apply Z.eqb_eq in Hh. rewrite (target_keys_root t k Hh) in *.
    remember (parse_node (store t) (Some (rootId t))) as node.
    destruct (keys node) as [ks|]; [|reflexivity].
    apply bool_decide_eq_false in Hk. apply indexOf_absent in Hk.
    unfold mbind, M_bind, bind, defined, ret. now rewrite Hk.
  - pose proof (findNodePath_findLeaf t k) as Hpath.
    unfold target_keys in *.
    destruct (findLeaf t k) as [leafId|]; cbn [mbind option_bind] in *.
    + destruct Hpath as (p & Hp & Hlast).
      remember (parse_node (store t) leafId) as node.
      unfold mbind, M_bind, bind, defined, ret. rewrite Hp, Hlast.
      cbn [path_id]. rewrite <- Heqnode.
      destruct (keys node) as [ks|]; [|reflexivity].
      apply bool_decide_eq_false in Hk. apply indexOf_absent in Hk.
      now rewrite Hk.
    + unfold mbind, M_bind, bind, defined. now rewrite Hpath.
Qed.

(** C9: in every initialized tree state, [delete(k)] for a key the tree does
    not hold leaves the tree and every record of the backing store as they
    were; it returns normally whenever the descent for [k] ends on a record
    that has [keys]. *)
Theorem delete_absent_key_is_noop (host : nat → N * string) (t : Tree)
    (k : string) :
  initialized t = true →
  holds_key t k = false →
  final_tree (tree_delete host k t) = Some t
  ∧ (is_Some (target_keys t k) → tree_delete host k t = Ok tt t).
Proof.
  intros Hinit Hk.
  assert (Hdel : tree_delete host k t
                 = (tree_remove k ≫= λ _, mret tt) t).
  { unfold tree_delete, tree_write.
    rewrite (bind_Ok ensure_init _ t t tt) by now apply ensure_init_initialized.
    rewrite (bind_Ok ensure_init _ t t tt) by now apply ensure_init_initialized.
    reflexivity. }
  rewrite Hdel. pose proof (tree_remove_absent t k Hk) as Hrem.
  destruct (target_keys t k) as [ks|].
  - rewrite (bind_Ok _ _ t t tt Hrem). cbn. split; [reflexivity|].
    intros _. reflexivity.
  - rewrite (bind_Throw _ _ t t Hrem). cbn. split; [reflexivity|].
    intros [? ?]. discriminate.
Qed.

(** The theorem applies to the tree holding "a", "b", "c" and the key "z". *)
Lemma delete_absent_key_is_noop_witness :
  let t := mkTree
     (<[METADATA_KEY := StoredMetadata "00root" 0]>
        {[ "00root" := StoredNode (leaf ["a"; "b"; "c"] ["1"; "2"; "3"] None) ]})
     "00root" 0 true MAX_LEAF_SIZE MAX_INTERNAL_SIZE 0 in
  initialized t = true ∧ holds_key t "z" = false
  ∧ final_tree (tree_delete example_host "z" t) = Some t
  ∧ (is_Some (target_keys t "z") → tree_delete example_host "z" t = Ok tt t).
Proof.
  intros t.
  split; [reflexivity|]. split; [vm_compute; reflexivity|].
  apply (delete_absent_key_is_noop example_host t "z");
    [reflexivity | vm_compute; reflexivity].
Defined.

(** ** Bounds that exclude every key *)

(** The order on strings behind [<] and [<=]. *)
Lemma str_lt_iff (a b : string) :
  String.ltb a b = true ↔ OrderedTypeEx.String_as_OT.lt a b.
Proof.
  rewrite <- OrderedTypeEx.String_as_OT.cmp_lt.
  unfold String.ltb, OrderedTypeEx.String_as_OT.cmp.
  destruct (String.compare a b); split; congruence.
Qed.

Lemma str_le_iff (a b : string) :
  String.leb a b = true ↔ OrderedTypeEx.String_as_OT.lt a b ∨ a = b.
Proof.
  rewrite <- OrderedTypeEx.String_as_OT.cmp_lt.
  unfold String.leb, OrderedTypeEx.String_as_OT.cmp.
  destruct (String.compare a b) eqn:E.
  - apply String.compare_eq_iff in E. split; [now right | reflexivity].
  - split; [now left | reflexivity].
  - split; [discriminate|]. intros [H| ->]; [discriminate|].
    assert (H : String.compare b b = Eq)
      by now apply OrderedTypeEx.String_as_OT.cmp_eq.
    congruence.
Qed.

Lemma str_lt_le_trans (a b c : string) :
  String.ltb a b = true → String.leb b c = true → String.ltb a c = true.
Proof.
  rewrite !str_lt_iff, str_le_iff. intros H [H'| <-]; [|assumption].
  eapply OrderedTypeEx.String_as_OT.lt_trans; eassumption.
Qed.

Lemma str_le_lt_trans (a b c : string) :
  String.leb a b = true → String.ltb b c = true → String.ltb a c = true.
Proof.
  rewrite !str_lt_iff, str_le_iff. intros [H| ->] H'; [|assumption].
  eapply OrderedTypeEx.String_as_OT.lt_trans; eassumption.
Qed.

Lemma str_le_trans (a b c : string) :
  String.leb a b = true → String.leb b c = true → String.leb a c = true.
Proof.
  rewrite !str_le_iff. intros [H| ->] [H'| <-]; auto.
  left. eapply OrderedTypeEx.String_as_OT.lt_trans; eassumption.
Qed.

Lemma str_lt_le (a b : string) :
  String.ltb a b = true → String.leb a b = true.
Proof. rewrite str_lt_iff, str_le_iff. now left. Qed.

Lemma str_le_refl (a : string) : String.leb a a = true.
Proof. rewrite str_le_iff. now right. Qed.

(** [findIndex] answers [-1] or the position of a key satisfying [p]. *)
Lemma findIndex_from_hit (p : string → bool) (l : list string) (i : Z) :
  findIndex_from i p l = -1
  ∨ (i ≤ findIndex_from i p l
     ∧ ∃ k rest, drop (Z.to_nat (findIndex_from i p l - i)) l = k :: rest
                 ∧ p k = true).
Proof.
  revert i. induction l as [|y l IH]; intros i; cbn; [now left|].
  destruct (p y) eqn:Hp.
  - right. split; [lia|]. exists y, l. rewrite Z.sub_diag. now split.
  - destruct (IH (i + 1)) as [H|(Hle & k & rest & Hdrop & Hk)];
      [now left | right].
    split; [lia|]. exists k, rest. split; [|assumption].
    replace (Z.to_nat (findIndex_from (i + 1) p l - i))
      with (S (Z.to_nat (findIndex_from (i + 1) p l - (i + 1)))) by lia.
    exact Hdrop.
Qed.

Lemma startIndex_of_lower (args : ListArgs) (ks : list string) :
  is_Some (lower_bound args) →
  startIndex_of args ks = findIndex (above_lower args) ks.
Proof.
  unfold lower_bound, startIndex_of, above_lower. intros [lo H].
  destruct (truthy (arg_gt args)); [reflexivity|].
  destruct (truthy (arg_gte args)); [reflexivity | discriminate].
Qed.

Lemma truthy_Some (o : option string) :
  truthy o = true → ∃ s, o = Some s.
Proof. destruct o; [eauto | discriminate]. Qed.

Lemma str_lt_trans (a b c : string) :
  String.ltb a b = true → String.ltb b c = true → String.ltb a c = true.
Proof.
  rewrite !str_lt_iff. apply OrderedTypeEx.String_as_OT.lt_trans.
Qed.

Create HintDb str_order.
#[local] Hint Resolve str_lt_le str_le_refl : str_order.
#[local] Hint Extern 2 (String.ltb _ _ = true) =>
  (eapply str_lt_trans; eassumption) : str_order.
#[local] Hint Extern 2 (String.ltb _ _ = true) =>
  (eapply str_lt_le_trans; eassumption) : str_order.
#[local] Hint Extern 2 (String.ltb _ _ = true) =>
  (eapply str_le_lt_trans; eassumption) : str_order.
#[local] Hint Extern 2 (String.leb _ _ = true) =>
  (eapply str_le_trans; eassumption) : str_order.
#[local] Hint Extern 3 (String.leb _ _ = true) =>
  (apply str_lt_le; eapply str_lt_trans; eassumption) : str_order.

(** A key admitted by the lower bound of a degenerate range is rejected by
    its upper bound. *)
Lemma degenerate_rejects (args : ListArgs) (k : string) :
  degenerate args = true →
  above_lower args k = true →
  reaches_lt args (Some k) || passes_lte args (Some k) = true.
Proof.
  destruct args as [gt gte lt lte lim off rv].
  unfold degenerate, lower_bound, upper_bound, lower_open, upper_open,
    above_lower, reaches_lt, passes_lte, str_gt, str_ge, truthy.
  cbn [arg_gt arg_gte arg_lt arg_lte].
  destruct gt as [g|], gte as [ge|], lt as [l|], lte as [le|];
    cbn [default negb andb orb];
    repeat match goal with
      | |- context [String.eqb ?x ""] =>
          destruct (String.eqb x ""); cbn [default negb andb orb]
      end;
    try discriminate;
    intros Hdeg Hk;
    rewrite ?orb_false_r, ?orb_true_r, ?andb_true_r, ?andb_false_r in Hdeg;
    repeat match goal with
      | H : (_ || _) = true |- _ => apply orb_true_iff in H as [H|H]
      | H : (_ && _) = true |- _ => apply andb_true_iff in H as [H _]
      | H : String.eqb _ _ = true |- _ => apply String.eqb_eq in H; subst
      | H : false = true |- _ => discriminate H
      end;
    rewrite ?orb_false_r, ?orb_true_r, ?andb_true_r, ?andb_false_r;
    try reflexivity;
    try (apply orb_true_iff; left);
    auto with str_order.
Qed.

Lemma degenerate_has_lower (args : ListArgs) :
  degenerate args = true → is_Some (lower_bound args).
Proof.
  unfold degenerate. destruct (lower_bound args); [eauto | discriminate].
Qed.

(** From the start index of a degenerate range the first key visited ends
    the scan. *)
Lemma for_from_degenerate (args : ListArgs) (vals : option (list string))
    (ks : list string) :
  degenerate args = true →
  startIndex_of args ks ≠ -1 →
  for_from args vals (startIndex_of args ks) ks [] = Returned [].
Proof.
  intros Hdeg Hstart.
  rewrite (startIndex_of_lower args ks (degenerate_has_lower args Hdeg)) in *.
  unfold findIndex in *.
  destruct (findIndex_from_hit (above_lower args) ks 0)
    as [H|(Hle & k & rest & Hdrop & Hk)]; [contradiction|].
  unfold for_from. rewrite Z.sub_0_r in Hdrop.
  destruct (Z.ltb_spec (findIndex_from 0 (above_lower args) ks) 0); [lia|].
  rewrite Hdrop. cbn [for_keys]. unfold visit.
  pose proof (degenerate_rejects args k Hdeg Hk) as Hrej.
  apply orb_true_iff in Hrej as [-> | Hrej]; [reflexivity|].
  rewrite Hrej. now destruct (reaches_lt args (Some k)).
Qed.

Lemma scan_leaves_skipping_degenerate (args : ListArgs)
    (s : gmap string Stored) :
  degenerate args = true →
  ∀ fuel current,
    is_Some (leaf_chain fuel s current) →
    scan_leaves_skipping fuel s args current [] = Returned []
    ∨ scan_leaves_skipping fuel s args current [] = Exhausted [].
Proof.
  intros Hdeg. induction fuel as [|f IH]; intros current [chain Hchain].
  - discriminate.
  - cbn [leaf_chain scan_leaves_skipping] in *.
    destruct current as [c|]; [|now right].
    destruct (truthy (Some c)); [|now right].
    destruct (keys (parse_node s (Some c))) as [ks|]; [|discriminate].
    cbn [mbind option_bind] in Hchain.
    destruct (leaf_chain f s (or_else (next (parse_node s (Some c)))
                                      (Some ""))) eqn:Hrest;
      [|discriminate].
    destruct (Z.eqb_spec (startIndex_of args ks) (-1)) as [_|Hne].
    + apply IH. eauto.
    + rewrite for_from_degenerate by assumption. now left.
Qed.

(** C7, amended: whenever the lower bound [list] acts on ([gt], else [gte])
    is greater than the upper bound it acts on ([lt], else [lte]), or equal
    to it with a side open, the sibling variant's [list] returns the empty
    sequence without throwing, on every initialized tree whose leaf chain
    from the starting leaf is made of records with [keys] and ends within
    the step budget. *)
Theorem list_sibling_degenerate_bounds_empty (fuel : nat) (args : ListArgs)
    (t : Tree) (current : option string) :
  initialized t = true →
  degenerate args = true →
  findLeaf t (start_key args) = Some current →
  is_Some (leaf_chain fuel (store t) current) →
  list_sibling fuel args t = Ok [] t.
Proof.
  intros Hinit Hdeg Hleaf Hchain. unfold list_sibling.
  rewrite (bind_Ok ensure_init _ t t tt) by now apply ensure_init_initialized.
  rewrite (bind_Ok get_tree _ t t t) by reflexivity.
  rewrite Hleaf. unfold mbind, M_bind, bind, defined, ret.
  destruct (scan_leaves_skipping_degenerate args (store t) Hdeg fuel current
              Hchain) as [-> | ->]; [reflexivity|].
  unfold mret, M_ret, ret, post_process.
  destruct (arg_offset args) as [n|];
    [destruct (negb (n =? 0) && (n >? 0)); rewrite ?drop_nil|];
    now destruct (arg_reverse args) as [[]|].
Qed.

(** The two-leaf tree is the one the small-fanout scenario builds. *)
Lemma split_tree_reached :
  final_tree ((init;; set_letters example_host ["a"; "b"; "c"; "d"; "e"])
                (fresh_object ∅ 4 MAX_INTERNAL_SIZE))
  = Some split_tree.
Proof. vm_compute. reflexivity. Qed.

(** The theorem applies to the two-leaf tree and [{ gt: "d", lt: "b" }]. *)
Lemma list_sibling_degenerate_bounds_empty_witness :
  let args := mkArgs (Some "d") None (Some "b") None None None None in
  let current := Some (LEAF_PREFIX +:+ fresh_suffix example_host 0) in
  initialized split_tree = true
  ∧ degenerate args = true
  ∧ findLeaf split_tree (start_key args) = Some current
  ∧ is_Some (leaf_chain 5 (store split_tree) current)
  ∧ list_sibling 5 args split_tree = Ok [] split_tree.
Proof.
  intros args current.
  assert (H1 : initialized split_tree = true) by reflexivity.
  assert (H2 : degenerate args = true) by (vm_compute; reflexivity).
  assert (H3 : findLeaf split_tree (start_key args) = Some current)
    by (vm_compute; reflexivity).
  assert (H4 : is_Some (leaf_chain 5 (store split_tree) current))
    by (vm_compute; eauto).
  split; [exact H1|]. split; [exact H2|]. split; [exact H3|].
  split; [exact H4|].
  exact (list_sibling_degenerate_bounds_empty 5 args split_tree current
           H1 H2 H3 H4).
Defined.

(** C7 as stated fails: on the tree holding "a" and "b", [list] called with
    both [gt] and [gte], or with both [lt] and [lte], returns entries in
    both variants, whatever the step budget. *)
Lemma list_same_side_bounds_not_empty :
  let lower := mkArgs (Some "a") (Some "a") None None None None None in
  let upper := mkArgs None None (Some "c") (Some "c") None None None in
  final_tree ((init;; tree_set example_host "a" "1";;
               tree_set example_host "b" "2")
                (fresh_object ∅ MAX_LEAF_SIZE MAX_INTERNAL_SIZE))
    = Some ab_tree
  ∧ list_bptree 5 lower ab_tree = Ok [(Some "b", Some "2")] ab_tree
  ∧ list_sibling 5 upper ab_tree
    = Ok [(Some "a", Some "1"); (Some "b", Some "2")] ab_tree
  ∧ ¬ (∃ fuel, list_bptree fuel lower ab_tree = Ok [] ab_tree)
  ∧ ¬ (∃ fuel, list_sibling fuel lower ab_tree = Ok [] ab_tree)
  ∧ ¬ (∃ fuel, list_bptree fuel upper ab_tree = Ok [] ab_tree)
  ∧ ¬ (∃ fuel, list_sibling fuel upper ab_tree = Ok [] ab_tree).
Proof.
  intros lower upper.
  split; [vm_compute; reflexivity|].
  split; [vm_compute; reflexivity|].
  split; [vm_compute; reflexivity|].
  repeat split; intros [fuel H]; destruct fuel as [|[|fuel]];
    vm_compute in H; discriminate H.
Qed.


(** ** Bounds in the in-memory database

    [InMemoryDatabase.list] rejects a same-side pair by throwing, and
    answers the empty sequence when the start is after the end or equal to
    it with a side open. *)
Lemma db_list_bounds (compareKey : string → string → Z)
    (search : list (string * string) → string → search_result)
    (data : list (string * string)) (args : ListArgs) :
  (is_Some (arg_gt args) → is_Some (arg_gte args) →
   db_list compareKey search data args = DbError "Invalid bounds: {gt, gte}")
  ∧ (¬ (is_Some (arg_gt args) ∧ is_Some (arg_gte args)) →
     is_Some (arg_lt args) → is_Some (arg_lte args) →
     db_list compareKey search data args = DbError "Invalid bounds: {lt, lte}")
  ∧ (∀ s e,
       first_defined (arg_gt args) (arg_gte args) = Some s →
       first_defined (arg_lt args) (arg_lte args) = Some e →
       ¬ (is_Some (arg_gt args) ∧ is_Some (arg_gte args)) →
       ¬ (is_Some (arg_lt args) ∧ is_Some (arg_lte args)) →
       compareKey s e > 0
       ∨ (compareKey s e = 0
          ∧ (is_Some (arg_gt args) ∨ is_Some (arg_lt args))) →
       db_list compareKey search data args = DbList []).
Proof.
  destruct args as [gt gte lt lte lim off rv].
  cbn [arg_gt arg_gte arg_lt arg_lte]. repeat split.
  - intros [x ->] [y ->]. reflexivity.
  - intros Hlow [x ->] [y ->].
    destruct gt as [g|], gte as [ge|]; try reflexivity.
    exfalso. apply Hlow. split; eauto.
  - intros s e Hs He Hlow Hup Hcmp.
    assert (Hcases :
              (compareKey s e >? 0)
              || ((compareKey s e =? 0)
                  && (bool_decide (is_Some gt) || bool_decide (is_Some lt)))
              = true).
    { destruct Hcmp as [Hgt|[Heq Hopen]].
      - replace (compareKey s e >? 0) with true by (symmetry; lia).
        reflexivity.
      - rewrite Heq. cbn [Z.gtb Z.compare Z.eqb orb andb].
        destruct Hopen as [H|H]; rewrite (bool_decide_eq_true_2 _ H);
          [reflexivity | now rewrite orb_true_r]. }
    unfold db_list. cbn [arg_gt arg_gte arg_lt arg_lte].
    rewrite Hs, He, Hcases.
    destruct gt as [g|], gte as [ge|];
      try (exfalso; apply Hlow; split; eauto; fail);
      destruct lt as [l|], lte as [le|];
      try (exfalso; apply Hup; split; eauto; fail);
      reflexivity.
Qed.

(** ** The first split

    [set] on a tree whose root is a leaf that the new key overfills: the
    leaf keeps the lower half, a fresh leaf takes the upper half and the old
    [next], and a fresh internal root with one separator is installed. *)
Lemma set_splits_root_leaf (host : nat → N * string) (t : Tree)
    (node : Node) (ks vs : list string) (key value sk : string) :
  initialized t = true →
  height t = 0 →
  parse_node (store t) (Some (rootId t)) = node →
  keys node = Some ks →
  values node = Some vs →
  let idx := findInsertIndex ks key in
  ((idx <? length ks)%nat && bool_decide (ks !! idx = Some key)) = false →
  let ks' := splice_insert (Z.of_nat idx) key ks in
  let vs' := splice_insert (Z.of_nat idx) value vs in
  (len ks' >? maxLeafSize t) = true →
  let mid := floor_half (length ks') in
  head (drop mid ks') = Some sk →
  let right := LEAF_PREFIX +:+ fresh_suffix host (ticks t) in
  let root := INTERNAL_PREFIX +:+ fresh_suffix host (S (ticks t)) in
  tree_set host key value t
  = Ok tt
      (mkTree
         (<[METADATA_KEY := StoredMetadata root 1]>
            (<[root := StoredNode (internal [sk] [rootId t; right])]>
               (<[right := StoredNode (leaf (drop mid ks') (drop mid vs')
                                            (next node))]>
                  (<[rootId t :=
                       StoredNode
                         (with_next
                            (with_values (with_keys node (take mid ks'))
                                         (take mid vs'))
                            (Some right))]>
                     (store t)))))
         root 1 true (maxLeafSize t) (maxInternalSize t) (S (S (ticks t)))).
Proof.
  intros Hinit Hh Hparse Hks Hvs idx Hnew ks' vs' Hover mid Hsk right root.
  subst idx ks' vs' mid right root.
  unfold tree_set, tree_write, tree_insert, splitLeafNode.
  cbn [for_each fst snd]. run_monad.
  repeat (cbn beta iota delta
              [Z.eqb keys values with_keys with_values length Nat.eqb fst snd];
          first [ rewrite Hinit | rewrite Hh | rewrite Hparse | rewrite Hks
                | rewrite Hvs | rewrite Hnew | rewrite Hover | rewrite Hsk ]).
  unfold set_store, set_root, tick, write_sets, write_deletes.
  cbn beta iota delta [foldl store rootId height initialized maxLeafSize
                         maxInternalSize ticks fst snd].
  rewrite Hinit. reflexivity.
Qed.


(** An allocated suffix starts with the digits of the clock. *)
Lemma fresh_suffix_not_root (host : nat → N * string) (n : nat) :
  fresh_suffix host n ≠ "root".
Proof.
  unfold fresh_suffix, decimal.
  destruct (N.to_uint (fst (host n))); cbn; discriminate.
Qed.

(** C5: with [maxLeafSize = 4], inserting "a", "b", "c", "d", "e" in that
    order into an empty tree gives height 1, a root whose keys are ["c"], a
    left leaf with keys ["a"; "b"] and a right leaf with keys
    ["c"; "d"; "e"] that is the left leaf's [next]; this holds for every
    host, all values and every [maxInternalSize]. *)
Theorem small_fanout_split (host : nat → N * string) (maxInternal : Z)
    (v1 v2 v3 v4 v5 : string) :
  ∃ t left right,
    (init;; tree_set host "a" v1;; tree_set host "b" v2;;
     tree_set host "c" v3;; tree_set host "d" v4;;
     tree_set host "e" v5) (fresh_object ∅ 4 maxInternal) = Ok tt t
    ∧ height t = 1
    ∧ store t !! METADATA_KEY = Some (StoredMetadata (rootId t) 1)
    ∧ parse_node (store t) (Some (rootId t)) = internal ["c"] [left; right]
    ∧ parse_node (store t) (Some left)
      = leaf ["a"; "b"] [v1; v2] (Some right)
    ∧ parse_node (store t) (Some right)
      = leaf ["c"; "d"; "e"] [v3; v4; v5] None.
Proof.
  set (T := fun ks vs => single_leaf_tree ks vs 4 maxInternal).
  assert (H0 : init (fresh_object ∅ 4 maxInternal) = Ok tt (T [] []))
    by (vm_compute; reflexivity).
  assert (H1 : tree_set host "a" v1 (T [] []) = Ok tt (T ["a"] [v1]))
    by (vm_compute; reflexivity).
  assert (H2 : tree_set host "b" v2 (T ["a"] [v1])
               = Ok tt (T ["a"; "b"] [v1; v2]))
    by (vm_compute; reflexivity).
  assert (H3 : tree_set host "c" v3 (T ["a"; "b"] [v1; v2])
               = Ok tt (T ["a"; "b"; "c"] [v1; v2; v3]))
    by (vm_compute; reflexivity).
  assert (H4 : tree_set host "d" v4 (T ["a"; "b"; "c"] [v1; v2; v3])
               = Ok tt (T ["a"; "b"; "c"; "d"] [v1; v2; v3; v4]))
    by (vm_compute; reflexivity).
  pose proof (set_splits_root_leaf host
                (T ["a"; "b"; "c"; "d"] [v1; v2; v3; v4])
                (leaf ["a"; "b"; "c"; "d"] [v1; v2; v3; v4] None)
                ["a"; "b"; "c"; "d"] [v1; v2; v3; v4] "e" v5 "c"
                eq_refl eq_refl eq_refl eq_refl eq_refl eq_refl eq_refl eq_refl)
    as H5.
  cbv zeta in H5.
  eexists _, "00root", (LEAF_PREFIX +:+ fresh_suffix host 0%nat).
  split.
  { rewrite (bind_Ok _ _ _ _ _ H0), (bind_Ok _ _ _ _ _ H1),
      (bind_Ok _ _ _ _ _ H2), (bind_Ok _ _ _ _ _ H3), (bind_Ok _ _ _ _ _ H4).
    exact H5. }
  assert (Hroot_right :
            INTERNAL_PREFIX +:+ fresh_suffix host 1%nat
            ≠ LEAF_PREFIX +:+ fresh_suffix host 0%nat)
    by (intros H; injection H as H; discriminate H).
  assert (Hright_left : LEAF_PREFIX +:+ fresh_suffix host 0%nat ≠ "00root").
  { intros H. injection H as H. now apply fresh_suffix_not_root in H. }
  assert (Hmeta_root : METADATA_KEY ≠ INTERNAL_PREFIX +:+ fresh_suffix host 1%nat)
    by (intros H; discriminate H).
  assert (Hmeta_right : METADATA_KEY ≠ LEAF_PREFIX +:+ fresh_suffix host 0%nat)
    by (intros H; discriminate H).
  assert (Hroot_left : INTERNAL_PREFIX +:+ fresh_suffix host 1%nat ≠ "00root")
    by (intros H; injection H as H; discriminate H).
  cbn [store rootId height T single_leaf_tree ticks].
  split; [reflexivity|].
  split; [apply lookup_insert_eq|].
  unfold parse_node.
  split; [|split].
  - rewrite lookup_insert_ne by exact Hmeta_root.
    rewrite lookup_insert_eq. reflexivity.
  - rewrite lookup_insert_ne by discriminate.
    rewrite lookup_insert_ne by exact Hroot_left.
    rewrite lookup_insert_ne by exact Hright_left.
    rewrite lookup_insert_eq. reflexivity.
  - rewrite lookup_insert_ne by exact Hmeta_right.
    rewrite lookup_insert_ne by exact Hroot_right.
    rewrite lookup_insert_eq. reflexivity.
Qed.

(** ** While the root is a leaf

    Until the first split the tree is a single sorted leaf, and there [set]
    followed by [get] returns the value set. *)

Lemma str_lt_irrefl (a : string) : String.ltb a a = false.
Proof.
  unfold String.ltb.
  assert (H : String.compare a a = Eq)
    by now apply OrderedTypeEx.String_as_OT.cmp_eq.
  now rewrite H.
Qed.

Lemma str_trichotomy (a b : string) :
  String.ltb a b = false → String.eqb a b = false → String.ltb b a = true.
Proof.
  unfold String.ltb. rewrite (String.compare_antisym b a).
  destruct (String.compare a b) eqn:E; intros H1 H2; try reflexivity;
    try discriminate.
  apply String.compare_eq_iff in E. subst.
  now rewrite String.eqb_refl in H2.
Qed.

Lemma findInsertIndex_loop_spec (ks : list string) (key : string) :
  ascending ks →
  ∀ fuel left right,
    (right - left ≤ fuel)%nat →
    (left ≤ right)%nat → (right ≤ length ks)%nat →
    (∀ i a, (i < left)%nat → ks !! i = Some a → String.ltb a key = true) →
    (∀ i a, (right ≤ i)%nat → ks !! i = Some a → String.ltb key a = true) →
    let r := findInsertIndex_loop fuel ks key left right in
    ks !! r = Some key
    ∨ ((r ≤ length ks)%nat
       ∧ (∀ i a, (i < r)%nat → ks !! i = Some a → String.ltb a key = true)
       ∧ (∀ i a, (r ≤ i)%nat → ks !! i = Some a → String.ltb key a = true)).
Proof.
  intros Hasc. induction fuel as [|f IH];
    intros left right Hfuel Hle Hlen Hbelow Habove;
    cbn [findInsertIndex_loop].
  - assert (left = right) by lia. subst. right. eauto.
  - destruct (Nat.ltb_spec left right) as [Hlt|Hge].
    2:{ assert (left = right) by lia. subst. right. eauto. }
    destruct (midpoint_between left right Hlt) as [Hm1 Hm2].
    set (mid := ((left + right) / 2)%nat) in *.
    destruct (lookup_lt_is_Some_2 ks mid) as [km Hkm]; [lia|].
    rewrite Hkm. unfold str_lt.
    destruct (String.ltb km key) eqn:Hcmp.
    + apply IH; try lia; [|assumption].
      intros i a Hi Ha. destruct (Nat.eq_dec i mid) as [->|Hne].
      * congruence.
      * eapply str_lt_trans; [|exact Hcmp].
        eapply (Hasc i mid); [lia | eassumption | eassumption].
    + destruct (String.eqb_spec km key) as [->|Hne]; [now left|].
      apply IH; try lia; [assumption|].
      assert (Hkey : String.ltb key km = true).
      { apply str_trichotomy; [assumption|]. now apply String.eqb_neq. }
      intros i a Hi Ha. destruct (Nat.eq_dec i mid) as [->|Hne'].
      * congruence.
      * eapply str_lt_trans; [exact Hkey|].
        eapply (Hasc mid i); [lia | eassumption | eassumption].
Qed.

(** On a sorted array [findInsertIndex] finds the key, or the position that
    separates the smaller keys from the larger ones. *)
Lemma findInsertIndex_spec (ks : list string) (key : string) :
  ascending ks →
  let r := findInsertIndex ks key in
  ks !! r = Some key
  ∨ ((r ≤ length ks)%nat
     ∧ (∀ i a, (i < r)%nat → ks !! i = Some a → String.ltb a key = true)
     ∧ (∀ i a, (r ≤ i)%nat → ks !! i = Some a → String.ltb key a = true)).
Proof.
  intros Hasc. apply findInsertIndex_loop_spec; try assumption; try lia.
  intros i a Hi Ha. apply lookup_lt_Some in Ha. lia.
Qed.

Lemma indexOf_from_position (ks : list string) (key : string) (r : nat) :
  ks !! r = Some key →
  (∀ i a, (i < r)%nat → ks !! i = Some a → a ≠ key) →
  ∀ z, indexOf_from z ks key = z + Z.of_nat r.
Proof.
  revert r. induction ks as [|k ks IH]; intros r Hr Hbefore z.
  - discriminate.
  - cbn [indexOf_from]. destruct r as [|r].
    + cbn in Hr. injection Hr as ->. rewrite String.eqb_refl. lia.
    + destruct (String.eqb_spec k key) as [->|Hne].
      * exfalso. apply (Hbefore 0%nat key); [lia | reflexivity | reflexivity].
      * assert (Hrest : ∀ i a, (i < r)%nat → ks !! i = Some a → a ≠ key).
        { intros i a Hi Ha. apply (Hbefore (S i)); [lia | exact Ha]. }
        rewrite (IH r Hr Hrest). lia.
Qed.

Lemma str_lt_neq (a b : string) : String.ltb a b = true → a ≠ b.
Proof. intros H ->. rewrite str_lt_irrefl in H. discriminate. Qed.

(** The position of a key in a sorted array is the one [indexOf] reports. *)
Lemma indexOf_sorted (ks : list string) (key : string) (r : nat) :
  ascending ks → ks !! r = Some key → indexOf ks key = Z.of_nat r.
Proof.
  intros Hasc Hr. unfold indexOf.
  rewrite (indexOf_from_position ks key r Hr); [lia|].
  intros i a Hi Ha. apply str_lt_neq. now apply (Hasc i r).
Qed.

Lemma splice_pos_inside {A} (l : list A) (r : nat) :
  (r ≤ length l)%nat → splice_pos l (Z.of_nat r) = r.
Proof.
  intros H. unfold splice_pos, len.
  destruct (Z.ltb_spec (Z.of_nat r) 0); lia.
Qed.

Lemma ascending_splice_insert (ks : list string) (key : string) (r : nat) :
  ascending ks → (r ≤ length ks)%nat →
  (∀ i a, (i < r)%nat → ks !! i = Some a → String.ltb a key = true) →
  (∀ i a, (r ≤ i)%nat → ks !! i = Some a → String.ltb key a = true) →
  ascending (splice_insert (Z.of_nat r) key ks).
Proof.
  intros Hasc Hr Hbelow Habove. unfold splice_insert.
  rewrite splice_pos_inside by assumption.
  assert (Hlook : ∀ i a, (take r ks ++ key :: drop r ks) !! i = Some a →
            ((i < r)%nat ∧ ks !! i = Some a)
            ∨ (i = r ∧ a = key)
            ∨ ((r < i)%nat ∧ ks !! (i - 1)%nat = Some a)).
  { intros i a H. destruct (Nat.lt_ge_cases i r) as [Hi|Hi].
    - left. split; [assumption|].
      rewrite lookup_app_l in H by (rewrite length_take; lia).
      now rewrite lookup_take_lt in H.
    - rewrite lookup_app_r in H by (rewrite length_take; lia).
      rewrite length_take, Nat.min_l in H by assumption.
      destruct (i - r)%nat as [|d] eqn:Hd.
      + right. left. change (Some key = Some a) in H.
        split; [lia | congruence].
      + right. right. change (drop r ks !! d = Some a) in H.
        rewrite lookup_drop in H.
        split; [lia|]. now replace (i - 1)%nat with (r + d)%nat by lia. }
  intros i j a b Hij Ha Hb.
  destruct (Hlook i a Ha) as [[Hi Ha']|[[-> ->]|[Hi Ha']]];
    destruct (Hlook j b Hb) as [[Hj Hb']|[[-> ->]|[Hj Hb']]]; try lia.
  - now apply (Hasc i j).
  - now apply (Hbelow i).
  - apply (Hasc i (j - 1)%nat); [lia | assumption | assumption].
  - apply (Habove (j - 1)%nat); [lia | assumption].
  - apply (Hasc (i - 1)%nat (j - 1)%nat); [lia | assumption | assumption].
Qed.

Lemma at_index_of_nat {A} (l : list A) (r : nat) :
  at_index l (Z.of_nat r) = l !! r.
Proof.
  unfold at_index. destruct (Z.ltb_spec (Z.of_nat r) 0); [lia|].
  now rewrite Nat2Z.id.
Qed.

(** [get] on a sorted root leaf reads the value stored beside the key. *)
Lemma tree_get_root_leaf (t : Tree) (ks vs : list string) (key : string)
    (r : nat) :
  root_leaf t ks vs → ks !! r = Some key →
  tree_get key t = Ok (vs !! r) t.
Proof.
  intros (Hinit & Hh & Hks & Hvs & Hasc & Hlen) Hr.
  unfold tree_get.
  rewrite (bind_Ok ensure_init _ t t tt) by now apply ensure_init_initialized.
  rewrite (bind_Ok get_tree _ t t t) by reflexivity.
  assert (Hleaf : findLeaf t key = Some (Some (rootId t)))
    by (unfold findLeaf; now rewrite Hh).
  rewrite Hleaf. run_monad. rewrite Hks. cbn beta iota.
  rewrite (indexOf_sorted ks key r Hasc Hr).
  destruct (Z.eqb_spec (Z.of_nat r) (-1)); [lia|].
  rewrite Hvs. cbn beta iota. now rewrite at_index_of_nat.
Qed.

Lemma root_leaf_after_write (t : Tree) (node : Node) (ks vs : list string) :
  initialized t = true → height t = 0 →
  keys node = Some ks → values node = Some vs →
  ascending ks → length vs = length ks →
  root_leaf (set_store t (<[rootId t := StoredNode node]> (store t))) ks vs.
Proof.
  intros Hinit Hh Hks Hvs Hasc Hlen. unfold root_leaf, parse_node.
  cbn [set_store initialized height store rootId].
  rewrite lookup_insert_eq. repeat split; assumption.
Qed.

Lemma length_splice_insert {A} (l : list A) (r : nat) (x : A) :
  (r ≤ length l)%nat →
  length (splice_insert (Z.of_nat r) x l) = S (length l).
Proof.
  intros H. unfold splice_insert. rewrite splice_pos_inside by assumption.
  rewrite length_app, length_take. cbn [length]. rewrite length_drop. lia.
Qed.

Lemma lookup_splice_insert {A} (l : list A) (r : nat) (x : A) :
  (r ≤ length l)%nat → splice_insert (Z.of_nat r) x l !! r = Some x.
Proof.
  intros H. unfold splice_insert. rewrite splice_pos_inside by assumption.
  rewrite lookup_app_r by (rewrite length_take; lia).
  rewrite length_take, Nat.min_l, Nat.sub_diag by assumption. reflexivity.
Qed.

(** [set] on a sorted root leaf that has room, or already holds the key,
    leaves a sorted root leaf on which [get] returns the value set. *)
Lemma set_then_get_root_leaf (host : nat → N * string) (t : Tree)
    (ks vs : list string) (key value : string) :
  root_leaf t ks vs →
  len ks < maxLeafSize t ∨ key ∈ ks →
  ∃ t' ks' vs',
    tree_set host key value t = Ok tt t'
    ∧ root_leaf t' ks' vs'
    ∧ tree_get key t' = Ok (Some value) t'.
Proof.
  intros (Hinit & Hh & Hks & Hvs & Hasc & Hlen) Hroom.
  assert (Hset : tree_set host key value t = tree_insert host key value t).
  { unfold tree_set, tree_write. cbn [for_each]. run_monad.
    rewrite Hinit. cbn beta iota. rewrite Hinit. cbn beta iota.
    cbn [fst snd].
    now destruct (tree_insert host key value t) as [[] ?| | |]. }
  rewrite Hset. unfold tree_insert. run_monad. rewrite Hh. cbn beta iota.
  cbn [Z.eqb]. rewrite Hks. cbn beta iota.
  set (node := parse_node (store t) (Some (rootId t))) in *.
  set (r := findInsertIndex ks key).
  destruct (findInsertIndex_spec ks key Hasc) as [Hfound|(Hr & Hbelow & Habove)];
    fold r in Hfound || fold r in Hr, Hbelow, Habove.
  - (* the key is there: its value is replaced *)
    pose proof (lookup_lt_Some _ _ _ Hfound) as Hlt.
    destruct (Nat.ltb_spec r (length ks)); [|lia].
    rewrite (bool_decide_eq_true_2 _ Hfound). cbn [andb].
    rewrite Hvs. cbn beta iota. unfold array_assign, len.
    destruct (Z.ltb_spec (Z.of_nat r) 0); [lia|].
    destruct (Z.ltb_spec (Z.of_nat r) (Z.of_nat (length vs))); [|lia].
    run_monad. rewrite Nat2Z.id.
    eexists _, ks, (<[r := value]> vs). split; [reflexivity|].
    assert (Hleaf : root_leaf
              (set_store t
                 (<[rootId t := StoredNode
                                  (with_values node (<[r := value]> vs))]>
                    (store t)))
              ks (<[r := value]> vs)).
    { apply root_leaf_after_write; try assumption; try reflexivity.
      now rewrite length_insert. }
    split; [exact Hleaf|].
    pose proof (tree_get_root_leaf _ _ _ key r Hleaf Hfound) as Hget.
    rewrite list_lookup_insert_eq in Hget by lia. exact Hget.
  - (* the key is new: it is spliced in *)
    assert (Hnot : ks !! r ≠ Some key).
    { intros H. pose proof (Habove r key (Nat.le_refl r) H) as Hc.
      rewrite str_lt_irrefl in Hc. discriminate. }
    rewrite (bool_decide_eq_false_2 _ Hnot), andb_false_r.
    rewrite Hvs. cbn beta iota.
    assert (Hnew : key ∉ ks).
    { intros Hin. apply list_elem_of_lookup in Hin as [i Hi].
      destruct (Nat.lt_ge_cases i r) as [Hlt|Hge].
      - pose proof (Hbelow i key Hlt Hi) as Hc.
        rewrite str_lt_irrefl in Hc. discriminate.
      - pose proof (Habove i key Hge Hi) as Hc.
        rewrite str_lt_irrefl in Hc. discriminate. }
    destruct Hroom as [Hroom|Hin]; [|contradiction].
    assert (Hfit : (len (splice_insert (Z.of_nat r) key ks) >? maxLeafSize t)
                   = false).
    { unfold len in *. rewrite length_splice_insert by assumption.
      rewrite Z.gtb_ltb. apply Z.ltb_ge. lia. }
    rewrite Hfit. run_monad.
    eexists _, (splice_insert (Z.of_nat r) key ks),
      (splice_insert (Z.of_nat r) value vs).
    split; [reflexivity|].
    assert (Hleaf : root_leaf
              (set_store t
                 (<[rootId t := StoredNode
                      (with_values
                         (with_keys node (splice_insert (Z.of_nat r) key ks))
                         (splice_insert (Z.of_nat r) value vs))]>
                    (store t)))
              (splice_insert (Z.of_nat r) key ks)
              (splice_insert (Z.of_nat r) value vs)).
    { apply root_leaf_after_write; try assumption; try reflexivity.
      - now apply ascending_splice_insert.
      - rewrite !length_splice_insert by lia. lia. }
    split; [exact Hleaf|].
    pose proof (tree_get_root_leaf _ _ _ key r Hleaf
                  (lookup_splice_insert ks r key Hr)) as Hget.
    rewrite lookup_splice_insert in Hget by lia. exact Hget.
Qed.

(** * Further properties of the code *)

(** ** The binary searches *)

Lemma str_leb_false_ltb (a b : string) :
  String.leb a b = false → String.ltb b a = true.
Proof.
  unfold String.leb, String.ltb. rewrite (String.compare_antisym b a).
  destruct (String.compare a b); cbn; congruence.
Qed.

Lemma str_ltb_false_leb (a b : string) :
  String.ltb a b = false → String.leb b a = true.
Proof.
  unfold String.leb, String.ltb. rewrite (String.compare_antisym b a).
  destruct (String.compare a b); cbn; congruence.
Qed.

Lemma strictly_ascending_head (ks : list string) :
  ∀ x, strictly_ascending (x :: ks) = true →
       strictly_ascending ks = true
       ∧ ∀ n c, ks !! n = Some c → String.ltb x c = true.
Proof.
  induction ks as [|y ks IH]; intros x H.
  - split; [reflexivity|]. intros n c Hc. discriminate.
  - cbn [strictly_ascending] in H. apply andb_true_iff in H as [Hxy Hrest].
    split; [exact Hrest|]. destruct (IH y Hrest) as [_ Hy].
    intros [|n] c Hc; cbn in Hc.
    + injection Hc as <-. exact Hxy.
    + eapply str_lt_trans; [exact Hxy | eapply Hy; exact Hc].
Qed.

(** The boolean test decides the positional statement. *)
Lemma strictly_ascending_ascending (ks : list string) :
  strictly_ascending ks = true → ascending ks.
Proof.
  induction ks as [|x ks IH]; intros H i j a b Hij Ha Hb.
  - discriminate.
  - destruct (strictly_ascending_head ks x H) as [Ht Hh].
    destruct i as [|i], j as [|j]; try lia; cbn in Ha, Hb.
    + injection Ha as <-. now apply (Hh j).
    + apply (IH Ht i j); [lia | assumption | assumption].
Qed.

Lemma findChildIndex_loop_spec (ks : list string) (key : string) :
  ascending ks →
  ∀ fuel left right,
    (right - left ≤ fuel)%nat →
    (left ≤ right)%nat → (right ≤ length ks)%nat →
    (∀ i a, (i < left)%nat → ks !! i = Some a → String.leb a key = true) →
    (∀ i a, (right ≤ i)%nat → ks !! i = Some a → String.ltb key a = true) →
    let r := findChildIndex_loop fuel ks key left right in
    (r ≤ length ks)%nat
    ∧ (∀ i a, (i < r)%nat → ks !! i = Some a → String.leb a key = true)
    ∧ (∀ i a, (r ≤ i)%nat → ks !! i = Some a → String.ltb key a = true).
Proof.
  intros Hasc. induction fuel as [|f IH];
    intros left right Hfuel Hle Hlen Hbelow Habove;
    cbn [findChildIndex_loop].
  - assert (left = right) by lia. subst. eauto.
  - destruct (Nat.ltb_spec left right) as [Hlt|Hge].
    2:{ assert (left = right) by lia. subst. eauto. }
    destruct (midpoint_between left right Hlt) as [Hm1 Hm2].
    set (mid := ((left + right) / 2)%nat) in *.
    destruct (lookup_lt_is_Some_2 ks mid) as [km Hkm]; [lia|].
    rewrite Hkm. unfold str_le.
    destruct (String.leb km key) eqn:Hcmp.
    + apply IH; try lia; [|assumption].
      intros i a Hi Ha. destruct (Nat.eq_dec i mid) as [->|Hne].
      * congruence.
      * apply str_lt_le. eapply str_lt_le_trans; [|exact Hcmp].
        eapply (Hasc i mid); [lia | eassumption | eassumption].
    + apply str_leb_false_ltb in Hcmp.
      apply IH; try lia; [assumption|].
      intros i a Hi Ha. destruct (Nat.eq_dec i mid) as [->|Hne'].
      * congruence.
      * eapply str_lt_trans; [exact Hcmp|].
        eapply (Hasc mid i); [lia | eassumption | eassumption].
Qed.

(** On a sorted array [findChildIndex] returns the number of keys that are
    at most [key]: every key before the position is [<= key], every key
    from it on is [> key]. *)
Theorem findChildIndex_separates (ks : list string) (key : string) :
  ascending ks →
  let r := findChildIndex ks key in
  (r ≤ length ks)%nat
  ∧ (∀ i a, (i < r)%nat → ks !! i = Some a → String.leb a key = true)
  ∧ (∀ i a, (r ≤ i)%nat → ks !! i = Some a → String.ltb key a = true).
Proof.
  intros Hasc. apply findChildIndex_loop_spec; try assumption; try lia.
  intros i a Hi Ha. apply lookup_lt_Some in Ha. lia.
Qed.

(** The theorem applies to the separators "b", "d", "f" and the key "d",
    which is routed to child 2. *)
Lemma findChildIndex_separates_witness :
  let ks := ["b"; "d"; "f"] in
  ascending ks
  ∧ findChildIndex ks "d" = 2%nat
  ∧ (let r := findChildIndex ks "d" in
     (r ≤ length ks)%nat
     ∧ (∀ i a, (i < r)%nat → ks !! i = Some a → String.leb a "d" = true)
     ∧ (∀ i a, (r ≤ i)%nat → ks !! i = Some a → String.ltb "d" a = true)).
Proof.
  intros ks.
  assert (H : ascending ks)
    by (apply strictly_ascending_ascending; reflexivity).
  split; [exact H|]. split; [reflexivity|].
  exact (findChildIndex_separates ks "d" H).
Defined.

(** On a sorted array [findInsertIndex] returns the position of [key] when
    the array holds it, and otherwise the position that separates the
    smaller keys from the larger ones. *)
Theorem findInsertIndex_finds_or_separates (ks : list string) (key : string) :
  ascending ks →
  let r := findInsertIndex ks key in
  (key ∈ ks → ks !! r = Some key)
  ∧ (key ∉ ks →
     (r ≤ length ks)%nat
     ∧ (∀ i a, (i < r)%nat → ks !! i = Some a → String.ltb a key = true)
     ∧ (∀ i a, (r ≤ i)%nat → ks !! i = Some a → String.ltb key a = true)).
Proof.
  intros Hasc r.
  destruct (findInsertIndex_spec ks key Hasc) as [Hfound|(Hr & Hbelow & Habove)];
    fold r in Hfound || fold r in Hr, Hbelow, Habove.
  - split; [intros _; exact Hfound|].
    intros Hnot. exfalso. apply Hnot.
    apply list_elem_of_lookup. eauto.
  - split; [|intros _; auto].
    intros Hin. apply list_elem_of_lookup in Hin as [i Hi].
    destruct (Nat.lt_ge_cases i r) as [Hlt|Hge].
    + pose proof (Hbelow i key Hlt Hi) as Hc.
      rewrite str_lt_irrefl in Hc. discriminate.
    + pose proof (Habove i key Hge Hi) as Hc.
      rewrite str_lt_irrefl in Hc. discriminate.
Qed.

(** The theorem applies to the keys "b", "d", "f" and the key "e", which
    belongs at position 2. *)
Lemma findInsertIndex_finds_or_separates_witness :
  let ks := ["b"; "d"; "f"] in
  ascending ks
  ∧ findInsertIndex ks "e" = 2%nat
  ∧ (let r := findInsertIndex ks "e" in
     ("e" ∈ ks → ks !! r = Some "e")
     ∧ ("e" ∉ ks →
        (r ≤ length ks)%nat
        ∧ (∀ i a, (i < r)%nat → ks !! i = Some a → String.ltb a "e" = true)
        ∧ (∀ i a, (r ≤ i)%nat → ks !! i = Some a → String.ltb "e" a = true))).
Proof.
  intros ks.
  assert (H : ascending ks)
    by (apply strictly_ascending_ascending; reflexivity).
  split; [exact H|]. split; [reflexivity|].
  exact (findInsertIndex_finds_or_separates ks "e" H).
Defined.




(** ** The recorded path *)

Lemma findNodePath_loop_shape (n : nat) (s : gmap string Stored)
    (key : string) :
  ∀ (current : option string) (path : list NodePath),
    match findLeaf_loop n s key current with
    | Some leafId =>
        ∃ rest, findNodePath_loop n s key current path = Some (path ++ rest)
                ∧ length rest = S n
                ∧ last rest = Some (mkPath leafId (-1))
                ∧ path_id <$> head rest = Some current
                ∧ ∀ i e, (i < n)%nat → rest !! i = Some e → 0 ≤ path_index e
    | None => findNodePath_loop n s key current path = None
    end.
Proof.
  induction n as [|n IH]; intros current path; cbn [findLeaf_loop findNodePath_loop].
  - exists [mkPath current (-1)]. repeat split. intros i e Hi. lia.
  - destruct (descend s key current) as [[index child]|]; cbn; [|reflexivity].
    specialize (IH child (path ++ [mkPath current (Z.of_nat index)])).
    destruct (findLeaf_loop n s key child) as [leafId|]; [|exact IH].
    destruct IH as (rest & Hp & Hlen & Hlast & _ & Hidx).
    exists (mkPath current (Z.of_nat index) :: rest).
    split; [now rewrite Hp, <- app_assoc|].
    split; [cbn; lia|].
    split.
    { destruct rest as [|e rest']; [discriminate|]. exact Hlast. }
    split; [reflexivity|].
    intros [|i] e Hi He; cbn in He.
    + injection He as <-. cbn. lia.
    + apply (Hidx i); [lia | exact He].
Qed.

(** [findNodePath] throws exactly when [findLeaf] does; otherwise the path
    has one entry per level, starts at the root, records a non-negative
    child position at every internal level, and ends with the leaf that
    [findLeaf] returns paired with [-1]. *)
Theorem findNodePath_shape (t : Tree) (key : string) :
  match findLeaf t key with
  | Some leafId =>
      ∃ p, findNodePath t key = Some p
           ∧ length p = S (Z.to_nat (height t))
           ∧ last p = Some (mkPath leafId (-1))
           ∧ path_id <$> head p = Some (Some (rootId t))
           ∧ ∀ i e, (i < Z.to_nat (height t))%nat → p !! i = Some e →
                    0 ≤ path_index e
  | None => findNodePath t key = None
  end.
Proof.
  unfold findLeaf, findNodePath.
  pose proof (findNodePath_loop_shape (Z.to_nat (height t)) (store t) key
                (Some (rootId t)) []) as H.
  destruct (findLeaf_loop _ _ _ _); [|exact H].
  destruct H as (rest & Hp & H). exists rest. split; [exact Hp | exact H].
Qed.

(** ** Reading never writes *)

(** [get] and [list], in both variants, leave the object and the store as
    the initialization check left them, whether they return or throw. *)
Theorem reads_leave_state (t t0 : Tree) (key : string) (fuel : nat)
    (args : ListArgs) :
  ensure_init t = Ok tt t0 →
  final_tree (tree_get key t) = Some t0
  ∧ (list_bptree fuel args t = OutOfFuel
     ∨ final_tree (list_bptree fuel args t) = Some t0)
  ∧ (list_sibling fuel args t = OutOfFuel
     ∨ final_tree (list_sibling fuel args t) = Some t0).
Proof.
  intros Hinit. unfold tree_get, list_bptree, list_sibling.
  rewrite !(bind_Ok ensure_init _ t t0 tt Hinit).
  rewrite !(bind_Ok get_tree _ t0 t0 t0) by reflexivity.
  repeat split.
  - run_monad. split_matches; reflexivity.
  - run_monad. split_matches; try (now right); now left.
  - run_monad. split_matches; try (now right); now left.
Qed.

(** The theorem applies to an object that has not run [init] yet: the
    reads leave the freshly initialized tree. *)
Lemma reads_leave_state_witness :
  let t := fresh_object ∅ MAX_LEAF_SIZE MAX_INTERNAL_SIZE in
  let t0 := single_leaf_tree [] [] MAX_LEAF_SIZE MAX_INTERNAL_SIZE in
  ensure_init t = Ok tt t0
  ∧ final_tree (tree_get "a" t) = Some t0
  ∧ (list_bptree 3 no_args t = OutOfFuel
     ∨ final_tree (list_bptree 3 no_args t) = Some t0)
  ∧ (list_sibling 3 no_args t = OutOfFuel
     ∨ final_tree (list_sibling 3 no_args t) = Some t0).
Proof.
  intros t t0.
  assert (H : ensure_init t = Ok tt t0) by (vm_compute; reflexivity).
  split; [exact H|].
  exact (reads_leave_state t t0 "a" 3 no_args H).
Defined.

(** ** What every scan keeps *)

Section ScanInvariant.

Variable args : ListArgs.
Variables QR QE : list Entry → Prop.
Hypothesis visit_keeps :
  ∀ vals i key rs, QE rs → scan_keeps QR QE (visit args vals i key rs).

Lemma for_keys_keeps (vals : option (list string)) (ks : list string) :
  ∀ i rs, QE rs → scan_keeps QR QE (for_keys args vals i ks rs).
Proof.
  induction ks as [|k ks IH]; intros i rs Hrs; cbn [for_keys]; [exact Hrs|].
  pose proof (visit_keeps vals i (Some k) rs Hrs) as Hv.
  destruct (visit args vals i (Some k) rs); try exact Hv. now apply IH.
Qed.

Lemma for_from_keeps (vals : option (list string)) (start : Z)
    (ks : list string) (rs : list Entry) :
  QE rs → scan_keeps QR QE (for_from args vals start ks rs).
Proof.
  intros Hrs. unfold for_from. destruct (start <? 0).
  - pose proof (visit_keeps vals start None rs Hrs) as Hv.
    destruct (visit args vals start None rs); try exact Hv.
    now apply for_keys_keeps.
  - now apply for_keys_keeps.
Qed.

Lemma scan_leaves_keeps (s : gmap string Stored) :
  ∀ fuel current rs,
    QE rs → scan_keeps QR QE (scan_leaves fuel s args current rs).
Proof.
  induction fuel as [|f IH]; intros current rs Hrs; cbn [scan_leaves];
    [exact I|].
  destruct (truthy current); [|exact Hrs].
  destruct (keys (parse_node s current)) as [ks|]; [|exact I].
  pose proof (for_from_keeps (values (parse_node s current))
                (startIndex_of args ks) ks rs Hrs) as Hf.
  destruct (for_from _ _ _ _ _); try exact Hf. now apply IH.
Qed.

Lemma scan_leaves_skipping_keeps (s : gmap string Stored) :
  ∀ fuel current rs,
    QE rs → scan_keeps QR QE (scan_leaves_skipping fuel s args current rs).
Proof.
  induction fuel as [|f IH]; intros current rs Hrs;
    cbn [scan_leaves_skipping]; [exact I|].
  destruct (truthy current); [|exact Hrs].
  destruct (keys (parse_node s current)) as [ks|]; [|exact I].
  destruct (startIndex_of args ks =? -1); [now apply IH|].
  pose proof (for_from_keeps (values (parse_node s current))
                (startIndex_of args ks) ks rs Hrs) as Hf.
  destruct (for_from _ _ _ _ _); try exact Hf. now apply IH.
Qed.

(** A property kept by every step of the scan, and by dropping and
    reversing, holds of what either [list] returns. *)
Lemma list_keeps (fuel : nat) (t : Tree) (rs : list Entry) :
  QE [] →
  (∀ rs n, QE rs → QE (drop n rs)) →
  (∀ rs, QE rs → QE (rev rs)) →
  returned (list_bptree fuel args t) rs ∨ returned (list_sibling fuel args t) rs →
  QR rs ∨ QE rs.
Proof.
  intros Hnil Hdrop Hrev [[t' H]|[t' H]];
    unfold list_bptree, list_sibling, mbind, M_bind, bind in H;
    destruct (ensure_init t) as [[] t1| | |]; try discriminate;
    cbn in H;
    (destruct (findLeaf t1 (start_key args)) as [current|];
     cbn in H; [|discriminate]).
  - pose proof (scan_leaves_keeps (store t1) fuel current [] Hnil) as Hs.
    destruct (scan_leaves _ _ _ _ _); try discriminate;
      injection H as <- _; [now left | now right].
  - pose proof (scan_leaves_skipping_keeps (store t1) fuel current [] Hnil)
      as Hs.
    destruct (scan_leaves_skipping _ _ _ _ _); try discriminate;
      injection H as <- _; [now left|].
    right. unfold post_process.
    destruct (arg_offset args) as [n|];
      [destruct (negb (n =? 0) && (n >? 0))|];
      destruct (arg_reverse args) as [[]|]; auto.
Qed.

End ScanInvariant.

Lemma len_snoc {A} (l : list A) (x : A) : len (l ++ [x]) = len l + 1.
Proof. unfold len. rewrite length_app. cbn. lia. Qed.

(** With a positive [limit], [list] returns at most [limit] entries, in
    both variants and in every state of the tree and the store. *)
Theorem list_respects_limit (fuel : nat) (args : ListArgs) (t : Tree)
    (n : Z) (rs : list Entry) :
  arg_limit args = Some n → 0 < n →
  returned (list_bptree fuel args t) rs ∨ returned (list_sibling fuel args t) rs →
  len rs ≤ n.
Proof.
  intros Hlim Hpos Hret.
  set (QR := λ rs : list Entry, len rs ≤ n).
  set (QE := λ rs : list Entry, len rs < n).
  assert (H : QR rs ∨ QE rs).
  { apply (list_keeps args QR QE) with (fuel := fuel) (t := t);
      [| unfold QE, len; cbn; lia | | | exact Hret]; unfold QR, QE.
    - intros vals i key rs0 Hrs. unfold visit.
      destruct (reaches_lt args key); [cbn; lia|].
      destruct (passes_lte args key); [cbn; lia|].
      destruct vals as [vs|]; [|exact I].
      unfold limit_reached. rewrite Hlim.
      destruct (Z.eqb_spec n 0); [lia|]. cbn [negb andb].
      rewrite len_snoc.
      destruct (len rs0 + 1 >=? n) eqn:Hcmp; cbn; rewrite len_snoc; lia.
    - intros rs0 m Hrs. unfold len in *. rewrite length_drop. lia.
    - intros rs0 Hrs. unfold len in *. now rewrite length_rev. }
  unfold QR, QE in H. lia.
Qed.

(** The theorem applies to the tree holding "a" and "b" with [limit: 1]. *)
Lemma list_respects_limit_witness :
  let args := with_limit no_args (Some 1) in
  let rs := [(Some "a", Some "1")] in
  arg_limit args = Some 1 ∧ 0 < 1
  ∧ returned (list_bptree 3 args ab_tree) rs
  ∧ len rs ≤ 1.
Proof.
  intros args rs.
  assert (H : returned (list_bptree 3 args ab_tree) rs)
    by (exists ab_tree; vm_compute; reflexivity).
  split; [reflexivity|]. split; [lia|]. split; [exact H|].
  exact (list_respects_limit 3 args ab_tree 1 rs eq_refl eq_refl (or_introl H)).
Defined.

Lemma passes_upper (args : ListArgs) (k : string) :
  reaches_lt args (Some k) = false → passes_lte args (Some k) = false →
  within_upper args k.
Proof.
  unfold reaches_lt, passes_lte, within_upper, truthy, str_ge, str_gt.
  intros Hlt Hlte. split; intros b Hb Hne; rewrite Hb in *;
    apply String.eqb_neq in Hne; rewrite Hne in *; cbn [negb andb] in *.
  - now apply str_leb_false_ltb.
  - now apply str_ltb_false_leb.
Qed.

(** Every key [list] returns is below [lt] and at most [lte], in both
    variants and in every state of the tree and the store. *)
Theorem list_respects_upper_bound (fuel : nat) (args : ListArgs) (t : Tree)
    (rs : list Entry) (k : string) (v : option string) :
  returned (list_bptree fuel args t) rs ∨ returned (list_sibling fuel args t) rs →
  (Some k, v) ∈ rs →
  within_upper args k.
Proof.
  intros Hret Hin.
  set (Q := λ rs : list Entry, ∀ k v, (Some k, v) ∈ rs → within_upper args k).
  assert (H : Q rs ∨ Q rs).
  { apply (list_keeps args Q Q) with (fuel := fuel) (t := t);
      [| | | | exact Hret]; unfold Q.
    - intros vals i key rs0 Hrs. unfold visit.
      destruct (reaches_lt args key) eqn:H1; [exact Hrs|].
      destruct (passes_lte args key) eqn:H2; [exact Hrs|].
      destruct vals as [vs|]; [|exact I].
      assert (Hpush : ∀ k0 v0, (Some k0, v0) ∈ rs0 ++ [(key, at_index vs i)] →
                               within_upper args k0).
      { intros k0 v0 Hk. apply elem_of_app in Hk as [Hk|Hk]; [eauto|].
        apply list_elem_of_singleton in Hk. injection Hk as <- _.
        now apply passes_upper. }
      destruct (limit_reached args _); exact Hpush.
    - intros k0 v0 Hk. now apply elem_of_nil in Hk.
    - intros rs0 n Hrs k0 v0 Hk. apply (Hrs k0 v0).
      eapply elem_of_sublist; [exact Hk | apply sublist_drop].
    - intros rs0 Hrs k0 v0 Hk. apply (Hrs k0 v0).
      apply list_elem_of_In. apply in_rev. now apply list_elem_of_In. }
  destruct H as [H|H]; exact (H k v Hin).
Qed.

(** The theorem applies to the tree holding "a" and "b" with [lt: "b"]. *)
Lemma list_respects_upper_bound_witness :
  let args := mkArgs None None (Some "b") None None None None in
  let rs := [(Some "a", Some "1")] in
  returned (list_bptree 3 args ab_tree) rs
  ∧ (Some "a", Some "1") ∈ rs
  ∧ within_upper args "a".
Proof.
  intros args rs.
  assert (H : returned (list_bptree 3 args ab_tree) rs)
    by (exists ab_tree; vm_compute; reflexivity).
  assert (Hin : (Some "a", Some "1") ∈ rs) by apply list_elem_of_here.
  split; [exact H|]. split; [exact Hin|].
  exact (list_respects_upper_bound 3 args ab_tree rs "a" (Some "1")
           (or_introl H) Hin).
Defined.

(** ** While the tree is one leaf it is a sorted map *)

Lemma str_lt_asym (a b : string) :
  String.ltb a b = true → String.ltb b a = false.
Proof.
  intros H. destruct (String.ltb b a) eqn:E; [|reflexivity].
  pose proof (str_lt_trans a b a H E) as Hc.
  rewrite str_lt_irrefl in Hc. discriminate.
Qed.

(** [ref_set] in terms of positions. *)
Lemma ref_set_at (k v : string) :
  ∀ (m : list (string * string)) (r : nat),
    (∀ i a, (i < r)%nat → map fst m !! i = Some a → String.ltb a k = true) →
    (map fst m !! r = Some k → ref_set k v m = <[r := (k, v)]> m)
    ∧ ((∀ i a, (r ≤ i)%nat → map fst m !! i = Some a → String.ltb k a = true) →
       (r ≤ length m)%nat →
       ref_set k v m = take r m ++ (k, v) :: drop r m).
Proof.
  induction m as [|[k' v'] m IH]; intros r Hbelow.
  - split; [intros H; destruct r; discriminate|].
    intros _ Hr. cbn in Hr. assert (r = 0%nat) by lia. now subst.
  - destruct r as [|r].
    + split.
      * intros H. cbn in H. injection H as ->. cbn.
        now rewrite String.eqb_refl.
      * intros Habove _. cbn [ref_set take drop app].
        pose proof (Habove 0%nat k' (Nat.le_refl _) eq_refl) as Hk.
        destruct (String.eqb_spec k' k) as [->|Hne].
        { rewrite str_lt_irrefl in Hk. discriminate. }
        unfold str_lt. now rewrite Hk.
    + pose proof (Hbelow 0%nat k' ltac:(lia) eq_refl) as Hk.
      assert (Hrest : ∀ i a, (i < r)%nat → map fst m !! i = Some a →
                             String.ltb a k = true).
      { intros i a Hi Ha. apply (Hbelow (S i)); [lia | exact Ha]. }
      destruct (IH r Hrest) as [IH1 IH2].
      cbn [ref_set]. destruct (String.eqb_spec k' k) as [->|Hne].
      { rewrite str_lt_irrefl in Hk. discriminate. }
      unfold str_lt. rewrite (str_lt_asym k' k Hk). split.
      * intros H. cbn in H. now rewrite (IH1 H).
      * intros Habove Hr. cbn in Hr. cbn [take drop app]. f_equal.
        apply IH2; [|lia].
        intros i a Hi Ha. apply (Habove (S i)); [lia | exact Ha].
Qed.

(** [ref_delete] and [ref_get] in terms of the position [indexOf] reports. *)
Lemma ref_delete_indexOf (k : string) :
  ∀ (m : list (string * string)) (z : Z),
    let j := indexOf_from z (map fst m) k in
    (j = -1 ∧ ref_delete k m = m)
    ∨ (z ≤ j ∧ (Z.to_nat (j - z) < length m)%nat
       ∧ ref_delete k m
         = take (Z.to_nat (j - z)) m ++ drop (S (Z.to_nat (j - z))) m).
Proof.
  induction m as [|[k' v'] m IH]; intros z; cbn [map fst indexOf_from ref_delete].
  - now left.
  - destruct (String.eqb k' k).
    + right. rewrite Z.sub_diag. cbn. repeat split; lia.
    + destruct (IH (z + 1)) as [[Hj Hd]|(Hj & Hlt & Hd)].
      * left. split; [exact Hj | now rewrite Hd].
      * right.
        replace (Z.to_nat (indexOf_from (z + 1) (map fst m) k - z))
          with (S (Z.to_nat (indexOf_from (z + 1) (map fst m) k - (z + 1))))
          by lia.
        cbn [take drop app length]. repeat split; [lia | lia | now rewrite Hd].
Qed.

Lemma ref_get_indexOf (k : string) :
  ∀ (m : list (string * string)) (z : Z),
    let j := indexOf_from z (map fst m) k in
    (j = -1 ∧ ref_get k m = None)
    ∨ (z ≤ j ∧ ref_get k m = map snd m !! Z.to_nat (j - z)).
Proof.
  induction m as [|[k' v'] m IH]; intros z; cbn [map fst snd indexOf_from ref_get].
  - now left.
  - destruct (String.eqb k' k).
    + right. rewrite Z.sub_diag. cbn. split; [lia | reflexivity].
    + destruct (IH (z + 1)) as [[Hj Hd]|(Hj & Hd)].
      * left. split; [exact Hj | exact Hd].
      * right.
        replace (Z.to_nat (indexOf_from (z + 1) (map fst m) k - z))
          with (S (Z.to_nat (indexOf_from (z + 1) (map fst m) k - (z + 1))))
          by lia.
        split; [lia | exact Hd].
Qed.

(** [get] on a one-leaf tree is the reference lookup. *)
Lemma tree_get_single_leaf (t : Tree) (m : list (string * string))
    (k : string) :
  single_leaf t m → tree_get k t = Ok (ref_get k m) t.
Proof.
  intros (Hinit & Hh & Hne & Hnode & Hasc).
  unfold tree_get.
  rewrite (bind_Ok ensure_init _ t t tt) by now apply ensure_init_initialized.
  rewrite (bind_Ok get_tree _ t t t) by reflexivity.
  assert (Hleaf : findLeaf t k = Some (Some (rootId t)))
    by (unfold findLeaf; now rewrite Hh).
  rewrite Hleaf. run_monad. rewrite Hnode. cbn [keys values leaf].
  unfold indexOf.
  destruct (ref_get_indexOf k m 0) as [[Hj Hg]|[Hj Hg]].
  - rewrite Hj, Hg. reflexivity.
  - destruct (Z.eqb_spec (indexOf_from 0 (map fst m) k) (-1)); [lia|].
    rewrite Hg, Z.sub_0_r. unfold at_index.
    destruct (Z.ltb_spec (indexOf_from 0 (map fst m) k) 0); [lia|].
    reflexivity.
Qed.

Lemma tree_set_is_insert (host : nat → N * string) (k v : string) (t : Tree) :
  initialized t = true → tree_set host k v t = tree_insert host k v t.
Proof.
  intros Hinit. unfold tree_set, tree_write. cbn [for_each]. run_monad.
  rewrite Hinit. cbn beta iota. rewrite Hinit. cbn beta iota. cbn [fst snd].
  now destruct (tree_insert host k v t) as [[] ?| | |].
Qed.

Lemma tree_delete_is_remove (host : nat → N * string) (k : string) (t : Tree) :
  initialized t = true → tree_delete host k t = tree_remove k t.
Proof.
  intros Hinit. unfold tree_delete, tree_write. cbn [for_each]. run_monad.
  rewrite Hinit. cbn beta iota. rewrite Hinit. cbn beta iota.
  now destruct (tree_remove k t) as [[] ?| | |].
Qed.

Lemma map_fst_insert (m : list (string * string)) (r : nat) (k v : string) :
  map fst m !! r = Some k → map fst (<[r := (k, v)]> m) = map fst m.
Proof.
  intros H. change (fst <$> <[r := (k, v)]> m = fst <$> m).
  rewrite list_fmap_insert. now apply list_insert_id.
Qed.

Lemma map_snd_insert (m : list (string * string)) (r : nat) (k v : string) :
  map snd (<[r := (k, v)]> m) = <[r := v]> (map snd m).
Proof.
  change (snd <$> <[r := (k, v)]> m = <[r := v]> (snd <$> m)).
  now rewrite list_fmap_insert.
Qed.

Lemma map_splice {A B} (f : A → B) (m : list A) (r : nat) (x : A) :
  map f (take r m ++ x :: drop r m)
  = take r (map f m) ++ f x :: drop r (map f m).
Proof. now rewrite map_app, firstn_map, skipn_map. Qed.

(** What [insert] computes for a sorted leaf, in terms of the reference
    map: an existing key has its value replaced in place, a new key is
    spliced in with its value at the same position. *)
Lemma leaf_insert_pure (m : list (string * string)) (k v : string) :
  ascending (map fst m) →
  let ks := map fst m in
  let vs := map snd m in
  let r := findInsertIndex ks k in
  let m' := ref_set k v m in
  ascending (map fst m')
  ∧ ((((r <? length ks)%nat && bool_decide (ks !! r = Some k)) = true
      ∧ array_assign vs (Z.of_nat r) (Some v) = ret (map snd m')
      ∧ map fst m' = ks)
     ∨ (((r <? length ks)%nat && bool_decide (ks !! r = Some k)) = false
        ∧ splice_insert (Z.of_nat r) k ks = map fst m'
        ∧ splice_insert (Z.of_nat r) v vs = map snd m'
        ∧ len m' = len m + 1
        ∧ k ∉ ks)).
Proof.
  intros Hasc ks vs r m'.
  assert (Hlen : length vs = length ks)
    by (unfold vs, ks; now rewrite !length_map).
  destruct (findInsertIndex_spec ks k Hasc) as [Hfound|(Hr & Hbelow & Habove)];
    fold r in Hfound || fold r in Hr, Hbelow, Habove.
  - (* the key is there: its value is replaced *)
    pose proof (lookup_lt_Some _ _ _ Hfound) as Hlt.
    assert (Hbelow : ∀ i a, (i < r)%nat → ks !! i = Some a →
                            String.ltb a k = true).
    { intros i a Hi Ha. now apply (Hasc i r). }
    destruct (ref_set_at k v m r Hbelow) as [Hm' _].
    specialize (Hm' Hfound). fold m' in Hm'.
    assert (Hk : map fst m' = ks) by (rewrite Hm'; now apply map_fst_insert).
    assert (Hv : map snd m' = <[r := v]> vs)
      by (rewrite Hm'; apply map_snd_insert).
    split; [now rewrite Hk|]. left.
    destruct (Nat.ltb_spec r (length ks)); [|lia].
    rewrite (bool_decide_eq_true_2 _ Hfound). split; [reflexivity|].
    split; [|exact Hk].
    unfold array_assign, len.
    destruct (Z.ltb_spec (Z.of_nat r) 0); [lia|].
    destruct (Z.ltb_spec (Z.of_nat r) (Z.of_nat (length vs))); [|lia].
    now rewrite Nat2Z.id, Hv.
  - (* the key is new: it is spliced in *)
    assert (Hnot : ks !! r ≠ Some k).
    { intros H. pose proof (Habove r k (Nat.le_refl r) H) as Hc.
      rewrite str_lt_irrefl in Hc. discriminate. }
    destruct (ref_set_at k v m r Hbelow) as [_ Hm'].
    assert (Hrm : (r ≤ length m)%nat)
      by (unfold ks in Hr; now rewrite length_map in Hr).
    specialize (Hm' Habove Hrm). fold m' in Hm'.
    assert (Hk : map fst m' = splice_insert (Z.of_nat r) k ks).
    { rewrite Hm', map_splice. unfold splice_insert.
      now rewrite splice_pos_inside by assumption. }
    assert (Hv : map snd m' = splice_insert (Z.of_nat r) v vs).
    { rewrite Hm', map_splice. unfold splice_insert.
      now rewrite splice_pos_inside by lia. }
    split; [rewrite Hk; now apply ascending_splice_insert|]. right.
    rewrite (bool_decide_eq_false_2 _ Hnot), andb_false_r.
    split; [reflexivity|]. split; [now rewrite Hk|]. split; [now rewrite Hv|].
    split.
    + unfold len. rewrite Hm', length_app, length_take. cbn [length].
      rewrite length_drop. lia.
    + intros Hin. apply list_elem_of_lookup in Hin as [i Hi].
      destruct (Nat.lt_ge_cases i r) as [Hlt|Hge].
      * pose proof (Hbelow i k Hlt Hi) as Hc.
        rewrite str_lt_irrefl in Hc. discriminate.
      * pose proof (Habove i k Hge Hi) as Hc.
        rewrite str_lt_irrefl in Hc. discriminate.
Qed.

Lemma ascending_delete (ks : list string) (i : nat) :
  ascending ks → ascending (take i ks ++ drop (S i) ks).
Proof.
  intros Hasc. rewrite <- delete_take_drop.
  intros a b x y Hab Hx Hy.
  destruct (Nat.lt_ge_cases a i) as [Ha|Ha];
    destruct (Nat.lt_ge_cases b i) as [Hb|Hb];
    rewrite ?(list_lookup_delete_lt _ _ _ Ha) in Hx;
    rewrite ?(list_lookup_delete_ge _ _ _ Ha) in Hx;
    rewrite ?(list_lookup_delete_lt _ _ _ Hb) in Hy;
    rewrite ?(list_lookup_delete_ge _ _ _ Hb) in Hy;
    try lia.
  - now apply (Hasc a b).
  - apply (Hasc a (S b)); [lia | assumption | assumption].
  - apply (Hasc (S a) (S b)); [lia | assumption | assumption].
Qed.

Lemma splice_pos_lt {A} (l : list A) (r : nat) :
  (r < length l)%nat → splice_pos l (Z.of_nat r) = r.
Proof. intros H. apply splice_pos_inside. lia. Qed.

(** What [remove] computes for a leaf, in terms of the reference map. *)
Lemma leaf_remove_pure (m : list (string * string)) (k : string) :
  let ks := map fst m in
  let vs := map snd m in
  let j := indexOf ks k in
  let m' := ref_delete k m in
  (j = -1 ∧ m' = m)
  ∨ (j ≠ -1
     ∧ splice_remove j ks = map fst m'
     ∧ splice_remove j vs = map snd m'
     ∧ len m' = len m - 1
     ∧ (ascending ks → ascending (map fst m'))).
Proof.
  intros ks vs j m'. unfold j, indexOf.
  destruct (ref_delete_indexOf k m 0) as [[Hj Hd]|(Hj & Hlt & Hd)].
  - now left.
  - right. fold m' in Hd. fold ks in Hj, Hlt, Hd |- *.
    rewrite Z.sub_0_r in *.
    set (z := indexOf_from 0 ks k) in *.
    assert (Hzn : z = Z.of_nat (Z.to_nat z)) by lia.
    assert (Hk : map fst m' = take (Z.to_nat z) ks ++ drop (S (Z.to_nat z)) ks)
      by (rewrite Hd; unfold ks; now rewrite map_app, firstn_map, skipn_map).
    assert (Hv : map snd m' = take (Z.to_nat z) vs ++ drop (S (Z.to_nat z)) vs)
      by (rewrite Hd; unfold vs; now rewrite map_app, firstn_map, skipn_map).
    split; [lia|]. unfold splice_remove. rewrite Hzn.
    rewrite !splice_pos_lt by (unfold ks, vs; rewrite length_map; exact Hlt).
    split; [now rewrite Hk|]. split; [now rewrite Hv|]. split.
    + unfold len. rewrite Hd, length_app, length_take, length_drop. lia.
    + intros Hasc. rewrite Hk. now apply ascending_delete.
Qed.

(** ** A write that stays inside one leaf

    In a tree of any height, [set] and [delete] that neither overfill nor
    underfill the leaf on which the descent for the key ends rewrite that
    leaf record and nothing else. *)

Lemma tree_insert_in_leaf (host : nat → N * string) (t : Tree) (k v : string)
    (leafId : string) (m : list (string * string)) (nx : option string) :
  findLeaf t k = Some (Some leafId) →
  parse_node (store t) (Some leafId) = leaf (map fst m) (map snd m) nx →
  ascending (map fst m) →
  len (ref_set k v m) ≤ maxLeafSize t →
  let m' := ref_set k v m in
  tree_insert host k v t
  = Ok tt (set_store t
             (<[leafId := StoredNode (leaf (map fst m') (map snd m') nx)]>
                (store t))).
Proof.
  intros Hleaf Hnode Hasc Hfit m'.
  destruct (leaf_insert_pure m k v Hasc) as [_ Hpure]. fold m' in Hpure.
  assert (Hfit' : ∀ ks', ks' = map fst m' → (len ks' >? maxLeafSize t) = false).
  { intros ks' ->. unfold len in *. rewrite length_map.
    rewrite Z.gtb_ltb. apply Z.ltb_ge. exact Hfit. }
  unfold tree_insert. run_monad.
  destruct (Z.eqb_spec (height t) 0) as [Hh|Hh].
  - assert (leafId = rootId t) as ->.
    { assert (Hroot : findLeaf t k = Some (Some (rootId t)))
        by (unfold findLeaf; now rewrite Hh).
      rewrite Hroot in Hleaf. now injection Hleaf as <-. }
    rewrite Hnode. cbn beta iota delta [keys values leaf].
    destruct Hpure as [(Hcond & Hassign & Hk)|(Hcond & Hk & Hv & _)];
      rewrite Hcond; cbn beta iota.
    + unfold mbind, M_bind, bind. rewrite Hassign. unfold ret.
      now rewrite Hk.
    + rewrite (Hfit' _ Hk), Hk, Hv. reflexivity.
  - pose proof (findNodePath_findLeaf t k) as Hpath. rewrite Hleaf in Hpath.
    destruct Hpath as (p & Hp & Hlast). rewrite Hp. cbn beta iota.
    rewrite Hlast. cbn beta iota delta [path_id]. rewrite Hnode.
    cbn beta iota delta [keys values leaf].
    destruct Hpure as [(Hcond & Hassign & Hk)|(Hcond & Hk & Hv & _)];
      rewrite Hcond; cbn beta iota.
    + unfold mbind, M_bind, bind. rewrite Hassign. unfold ret.
      now rewrite Hk.
    + rewrite (Hfit' _ Hk), Hk, Hv. reflexivity.
Qed.

Lemma findNodePath_length (t : Tree) (k : string) (p : list NodePath) :
  findNodePath t k = Some p → length p = S (Z.to_nat (height t)).
Proof.
  intros Hp. unfold findNodePath in Hp.
  pose proof (findNodePath_loop_shape (Z.to_nat (height t)) (store t) k
                (Some (rootId t)) []) as H.
  destruct (findLeaf_loop _ _ _ _) in H; [|congruence].
  destruct H as (rest & Hr & Hlen & _). rewrite Hp in Hr.
  injection Hr as ->. exact Hlen.
Qed.

Lemma tree_remove_in_leaf (t : Tree) (k : string) (leafId : string)
    (m : list (string * string)) (nx : option string) :
  findLeaf t k = Some (Some leafId) →
  parse_node (store t) (Some leafId) = leaf (map fst m) (map snd m) nx →
  height t ≤ 0 ∨ ceil_half (maxLeafSize t) ≤ len (ref_delete k m) →
  let m' := ref_delete k m in
  tree_remove k t
  = Ok tt (if bool_decide (k ∈ map fst m)
           then set_store t
                  (<[leafId := StoredNode (leaf (map fst m') (map snd m') nx)]>
                     (store t))
           else t).
Proof.
  intros Hleaf Hnode Hfit m'.
  pose proof (leaf_remove_pure m k) as Hpure. cbv zeta in Hpure.
  fold m' in Hpure.
  assert (Hmem : indexOf (map fst m) k = -1 ↔ k ∉ map fst m)
    by apply indexOf_absent.
  unfold tree_remove. run_monad.
  destruct (Z.eqb_spec (height t) 0) as [Hh|Hh].
  - assert (leafId = rootId t) as ->.
    { assert (Hroot : findLeaf t k = Some (Some (rootId t)))
        by (unfold findLeaf; now rewrite Hh).
      rewrite Hroot in Hleaf. now injection Hleaf as <-. }
    rewrite Hnode. cbn beta iota delta [keys values leaf].
    destruct Hpure as [[Hj _]|(Hj & Hk & Hv & _)].
    + rewrite Hj. cbn [Z.eqb Pos.eqb].
      rewrite bool_decide_eq_false_2 by now apply Hmem. reflexivity.
    + destruct (Z.eqb_spec (indexOf (map fst m) k) (-1)); [contradiction|].
      rewrite bool_decide_eq_true_2
        by (destruct (decide (k ∈ map fst m)); [assumption|];
            exfalso; apply Hj; now apply Hmem).
      now rewrite Hk, Hv.
  - pose proof (findNodePath_findLeaf t k) as Hpath. rewrite Hleaf in Hpath.
    destruct Hpath as (p & Hp & Hlast). rewrite Hp. cbn beta iota.
    rewrite Hlast. cbn beta iota delta [path_id]. rewrite Hnode.
    cbn beta iota delta [keys values leaf].
    destruct Hpure as [[Hj _]|(Hj & Hk & Hv & Hlen & _)].
    + rewrite Hj. cbn [Z.eqb Pos.eqb].
      rewrite bool_decide_eq_false_2 by now apply Hmem. reflexivity.
    + destruct (Z.eqb_spec (indexOf (map fst m) k) (-1)); [contradiction|].
      rewrite bool_decide_eq_true_2
        by (destruct (decide (k ∈ map fst m)); [assumption|];
            exfalso; apply Hj; now apply Hmem).
      assert (Hno : (len (splice_remove (indexOf (map fst m) k) (map fst m))
                     <? ceil_half (maxLeafSize t))
                    && (1 <? len p) = false).
      { rewrite Hk. unfold len at 1. rewrite length_map. fold (len m').
        destruct Hfit as [Hle|Hge].
        - pose proof (findNodePath_length t k p Hp) as Hpl.
          replace (1 <? len p) with false; [apply andb_false_r|].
          symmetry. apply Z.ltb_ge. unfold len. lia.
        - replace (len m' <? ceil_half (maxLeafSize t)) with false;
            [reflexivity|].
          symmetry. apply Z.ltb_ge. exact Hge. }
      rewrite Hno. now rewrite Hk, Hv.
Qed.

(** In a tree of any height: when the descent for [k] ends on a sorted leaf
    that the write will not overfill, [set(k, v)] returns and rewrites that
    leaf record, and nothing else, to the leaf's entries with [(k, v)] set
    as in the reference map. *)
Theorem set_rewrites_one_leaf (host : nat → N * string) (t : Tree)
    (k v : string) (leafId : string) (m : list (string * string))
    (nx : option string) :
  initialized t = true →
  findLeaf t k = Some (Some leafId) →
  parse_node (store t) (Some leafId) = leaf (map fst m) (map snd m) nx →
  ascending (map fst m) →
  len (ref_set k v m) ≤ maxLeafSize t →
  let m' := ref_set k v m in
  tree_set host k v t
  = Ok tt (set_store t
             (<[leafId := StoredNode (leaf (map fst m') (map snd m') nx)]>
                (store t)))
  ∧ ascending (map fst m').
Proof.
  intros Hinit Hleaf Hnode Hasc Hfit m'.
  rewrite tree_set_is_insert by exact Hinit.
  split; [now apply tree_insert_in_leaf|].
  now destruct (leaf_insert_pure m k v Hasc) as [H _].
Qed.

(** In a tree of any height: when the descent for [k] ends on a leaf that
    the removal will not underfill (or the tree is one leaf), [delete(k)]
    returns and rewrites that leaf record, and nothing else, to the leaf's
    entries without [k]; if the leaf does not hold [k] nothing is written. *)
Theorem delete_rewrites_one_leaf (host : nat → N * string) (t : Tree)
    (k : string) (leafId : string) (m : list (string * string))
    (nx : option string) :
  initialized t = true →
  findLeaf t k = Some (Some leafId) →
  parse_node (store t) (Some leafId) = leaf (map fst m) (map snd m) nx →
  height t ≤ 0 ∨ ceil_half (maxLeafSize t) ≤ len (ref_delete k m) →
  let m' := ref_delete k m in
  tree_delete host k t
  = Ok tt (if bool_decide (k ∈ map fst m)
           then set_store t
                  (<[leafId := StoredNode (leaf (map fst m') (map snd m') nx)]>
                     (store t))
           else t)
  ∧ (ascending (map fst m) → ascending (map fst m')).
Proof.
  intros Hinit Hleaf Hnode Hfit m'.
  rewrite tree_delete_is_remove by exact Hinit.
  split; [now apply tree_remove_in_leaf|].
  intros Hasc. pose proof (leaf_remove_pure m k) as Hpure. cbv zeta in Hpure.
  fold m' in Hpure.
  destruct Hpure as [[_ ->]|(_ & _ & _ & _ & H)]; auto.
Qed.

Lemma single_leaf_with_root_record (t : Tree) (m m' : list (string * string)) :
  single_leaf t m → ascending (map fst m') →
  single_leaf (with_root_record t (leaf (map fst m') (map snd m') None)) m'.
Proof.
  intros (Hinit & Hh & Hne & Hnode & Hasc) Hasc'.
  unfold single_leaf, with_root_record, parse_node.
  cbn [set_store initialized height store rootId].
  rewrite lookup_insert_eq. repeat split; assumption.
Qed.

Lemma single_leaf_findLeaf (t : Tree) (m : list (string * string))
    (k : string) :
  single_leaf t m → findLeaf t k = Some (Some (rootId t)).
Proof. intros (_ & Hh & _). unfold findLeaf. now rewrite Hh. Qed.

(** [set] on a one-leaf tree that will not overflow rewrites the root
    record, and nothing else, to the reference map with the entry set. *)
Lemma tree_set_single_leaf (host : nat → N * string) (t : Tree)
    (m : list (string * string)) (k v : string) :
  single_leaf t m →
  len (ref_set k v m) ≤ maxLeafSize t →
  let m' := ref_set k v m in
  tree_set host k v t
  = Ok tt (with_root_record t (leaf (map fst m') (map snd m') None))
  ∧ ascending (map fst m').
Proof.
  intros Hleaf Hfit m'.
  pose proof (single_leaf_findLeaf t m k Hleaf) as Hfind.
  destruct Hleaf as (Hinit & Hh & Hne & Hnode & Hasc).
  rewrite tree_set_is_insert by exact Hinit.
  split; [now apply tree_insert_in_leaf|].
  now destruct (leaf_insert_pure m k v Hasc) as [H _].
Qed.

(** [delete] on a one-leaf tree rewrites the root record, and nothing
    else, to the reference map without the key; when the key is absent it
    writes nothing. *)
Lemma tree_delete_single_leaf (host : nat → N * string) (t : Tree)
    (m : list (string * string)) (k : string) :
  single_leaf t m →
  let m' := ref_delete k m in
  (tree_delete host k t = Ok tt t ∧ m' = m)
  ∨ (tree_delete host k t
     = Ok tt (with_root_record t (leaf (map fst m') (map snd m') None))
     ∧ ascending (map fst m')).
Proof.
  intros Hleaf m'.
  pose proof (single_leaf_findLeaf t m k Hleaf) as Hfind.
  destruct Hleaf as (Hinit & Hh & Hne & Hnode & Hasc).
  rewrite tree_delete_is_remove by exact Hinit.
  rewrite (tree_remove_in_leaf t k (rootId t) m None Hfind Hnode)
    by (left; lia).
  pose proof (leaf_remove_pure m k) as Hpure. cbv zeta in Hpure.
  fold m' in Hpure.
  destruct (decide (k ∈ map fst m)) as [Hin|Hnot].
  - right. rewrite bool_decide_eq_true_2 by exact Hin.
    split; [reflexivity|].
    destruct Hpure as [[_ ->]|(_ & _ & _ & _ & H)]; auto.
  - left. rewrite bool_decide_eq_false_2 by exact Hnot.
    split; [reflexivity|].
    destruct Hpure as [[_ H]|(Hj & _)]; [exact H|].
    exfalso. apply Hj. now apply indexOf_absent.
Qed.

Lemma for_keys_no_args (m2 : list (string * string)) :
  ∀ (m1 : list (string * string)) (rs : list Entry),
    for_keys no_args (Some (map snd (m1 ++ m2))) (len m1) (map fst m2) rs
    = Exhausted (rs ++ ref_list m2).
Proof.
  induction m2 as [|[k v] m2 IH]; intros m1 rs; cbn [map for_keys fst].
  - unfold ref_list. cbn. now rewrite app_nil_r.
  - unfold visit. cbn [reaches_lt passes_lte arg_lt arg_lte no_args
                       limit_reached arg_limit].
    assert (Hat : at_index (map snd (m1 ++ (k, v) :: m2)) (len m1) = Some v).
    { unfold len. rewrite at_index_of_nat, map_app.
      rewrite lookup_app_r by (rewrite length_map; lia).
      now rewrite length_map, Nat.sub_diag. }
    rewrite Hat.
    replace (len m1 + 1) with (len (m1 ++ [(k, v)])) by apply len_snoc.
    replace (m1 ++ (k, v) :: m2) with ((m1 ++ [(k, v)]) ++ m2)
      by now rewrite <- app_assoc.
    rewrite IH. unfold ref_list. cbn [map fst snd].
    now rewrite <- app_assoc.
Qed.

(** [list()] on a one-leaf tree returns the reference map, in both
    variants. *)
Lemma list_single_leaf (t : Tree) (m : list (string * string)) (fuel : nat) :
  single_leaf t m → (2 ≤ fuel)%nat →
  list_bptree fuel no_args t = Ok (ref_list m) t
  ∧ list_sibling fuel no_args t = Ok (ref_list m) t.
Proof.
  intros (Hinit & Hh & Hne & Hnode & Hasc) Hfuel.
  destruct fuel as [|[|fuel]]; try lia.
  unfold list_bptree, list_sibling.
  rewrite !(bind_Ok ensure_init _ t t tt) by now apply ensure_init_initialized.
  rewrite !(bind_Ok get_tree _ t t t) by reflexivity.
  assert (Hleaf : findLeaf t (start_key no_args) = Some (Some (rootId t)))
    by (unfold findLeaf; now rewrite Hh).
  rewrite Hleaf. run_monad.
  assert (Htruthy : truthy (Some (rootId t)) = true).
  { unfold truthy. apply String.eqb_neq in Hne. now rewrite Hne. }
  cbn [scan_leaves scan_leaves_skipping]. rewrite Htruthy, Hnode.
  cbn beta iota delta [keys values next leaf].
  assert (Hscan : for_from no_args (Some (map snd m))
                    (startIndex_of no_args (map fst m)) (map fst m) []
                  = Exhausted (ref_list m)).
  { unfold startIndex_of, for_from. cbn [truthy arg_gt arg_gte no_args].
    cbn [Z.ltb Z.compare Z.to_nat drop].
    exact (for_keys_no_args m [] []). }
  rewrite Hscan.
  change (startIndex_of no_args (map fst m)) with 0. cbn [Z.eqb].
  cbn [or_else truthy String.eqb negb]. split; reflexivity.
Qed.

Lemma apply_ops_single_leaf (host : nat → N * string) (ops : list Op) :
  ∀ (t : Tree) (m : list (string * string)),
    single_leaf t m →
    fits (maxLeafSize t) m ops = true →
    ∃ t', apply_ops host ops t = Ok tt t'
          ∧ single_leaf t' (foldl ref_apply m ops)
          ∧ maxLeafSize t' = maxLeafSize t.
Proof.
  induction ops as [|o ops IH]; intros t m Hleaf Hfits.
  - exists t. split; [reflexivity|]. split; [exact Hleaf | reflexivity].
  - cbn [fits] in Hfits. apply andb_true_iff in Hfits as [Hfit Hfits].
    apply Z.leb_le in Hfit. unfold apply_ops. cbn [for_each foldl].
    assert (Hstep : ∃ t1, apply_op host o t = Ok tt t1
                          ∧ single_leaf t1 (ref_apply m o)
                          ∧ maxLeafSize t1 = maxLeafSize t).
    { destruct o as [k v|k]; cbn [apply_op ref_apply] in *.
      - destruct (tree_set_single_leaf host t m k v Hleaf Hfit) as [Hset Hasc].
        eexists. split; [exact Hset|]. split; [|reflexivity].
        now apply (single_leaf_with_root_record t m).
      - destruct (tree_delete_single_leaf host t m k Hleaf)
          as [[Hdel Hm]|[Hdel Hasc]].
        + exists t. rewrite Hm.
          split; [exact Hdel|]. split; [exact Hleaf | reflexivity].
        + eexists. split; [exact Hdel|]. split; [|reflexivity].
          now apply (single_leaf_with_root_record t m). }
    destruct Hstep as (t1 & Hrun & Hleaf1 & Hcap).
    rewrite (bind_Ok _ _ t t1 tt Hrun).
    rewrite <- Hcap in Hfits.
    destruct (IH t1 (ref_apply m o) Hleaf1 Hfits) as (t' & Hrest & Hleaf' & Hcap').
    exists t'. split; [exact Hrest|]. split; [exact Hleaf' | congruence].
Qed.

Lemma ascending_nil : ascending [].
Proof. intros i j a b _ H. discriminate. Qed.

Lemma single_leaf_after_init (maxLeaf maxInternal : Z) :
  init (fresh_object ∅ maxLeaf maxInternal)
  = Ok tt (single_leaf_tree [] [] maxLeaf maxInternal)
  ∧ single_leaf (single_leaf_tree [] [] maxLeaf maxInternal) [].
Proof.
  split; [vm_compute; reflexivity|].
  split; [reflexivity|]. split; [reflexivity|]. split; [discriminate|].
  split; [reflexivity | apply ascending_nil].
Qed.

(** A new tree (empty store, any sizes, any host) that is given sets and
    deletes which never leave more than [maxLeafSize] keys alive stays one
    leaf and behaves as the reference sorted map: [get] is its lookup and
    [list()] its entries in key order, in both variants. *)
Theorem one_leaf_tree_is_sorted_map (host : nat → N * string)
    (maxLeaf maxInternal : Z) (ops : list Op) :
  fits maxLeaf [] ops = true →
  ∃ t,
    (init;; apply_ops host ops) (fresh_object ∅ maxLeaf maxInternal) = Ok tt t
    ∧ height t = 0
    ∧ (∀ k, tree_get k t = Ok (ref_get k (foldl ref_apply [] ops)) t)
    ∧ (∀ fuel, (2 ≤ fuel)%nat →
         list_bptree fuel no_args t = Ok (ref_run ops) t
         ∧ list_sibling fuel no_args t = Ok (ref_run ops) t).
Proof.
  intros Hfits.
  destruct (single_leaf_after_init maxLeaf maxInternal) as [Hinit Hleaf].
  destruct (apply_ops_single_leaf host ops _ [] Hleaf Hfits)
    as (t & Hrun & Hleaf' & _).
  exists t. rewrite (bind_Ok _ _ _ _ _ Hinit).
  split; [exact Hrun|]. split; [apply Hleaf'|].
  split.
  - intros k. now apply tree_get_single_leaf.
  - intros fuel Hfuel. now apply list_single_leaf.
Qed.

(** The theorem applies to four operations on a tree with [maxLeafSize] 2. *)
Lemma one_leaf_tree_is_sorted_map_witness :
  let ops := [OpSet "b" "2"; OpSet "a" "1"; OpDelete "b"; OpSet "c" "3"] in
  fits 2 [] ops = true
  ∧ ref_run ops = [(Some "a", Some "1"); (Some "c", Some "3")]
  ∧ (∃ t,
      (init;; apply_ops example_host ops) (fresh_object ∅ 2 MAX_INTERNAL_SIZE)
      = Ok tt t
      ∧ height t = 0
      ∧ (∀ k, tree_get k t = Ok (ref_get k (foldl ref_apply [] ops)) t)
      ∧ (∀ fuel, (2 ≤ fuel)%nat →
           list_bptree fuel no_args t = Ok (ref_run ops) t
           ∧ list_sibling fuel no_args t = Ok (ref_run ops) t)).
Proof.
  intros ops.
  assert (H : fits 2 [] ops = true) by reflexivity.
  split; [exact H|]. split; [reflexivity|].
  exact (one_leaf_tree_is_sorted_map example_host 2 MAX_INTERNAL_SIZE ops H).
Defined.

(** ** Range queries on a one-leaf tree *)

Lemma str_le_empty (k : string) : String.leb "" k = true.
Proof. now destruct k. Qed.

Lemma above_lower_monotone (args : ListArgs) (a b : string) :
  above_lower args a = true → String.ltb a b = true →
  above_lower args b = true.
Proof.
  unfold above_lower, str_gt, str_ge.
  destruct (truthy (arg_gt args)); intros; eauto with str_order.
Qed.

Lemma stops_monotone (args : ListArgs) (a b : string) :
  stops args a = true → String.ltb a b = true → stops args b = true.
Proof.
  unfold stops, reaches_lt, passes_lte, str_gt, str_ge.
  intros H Hab. apply orb_true_iff in H. apply orb_true_iff.
  destruct H as [H|H]; [left | right].
  - destruct (arg_lt args) as [x|]; [|discriminate].
    apply andb_true_iff in H as [-> H]. cbn [andb]. eauto with str_order.
  - destruct (arg_lte args) as [x|]; [|discriminate].
    apply andb_true_iff in H as [-> H]. cbn [andb]. eauto with str_order.
Qed.

Lemma in_range_scan (args : ListArgs) (k : string) :
  in_range args k = above_lower args k && negb (stops args k).
Proof.
  unfold in_range, above_lower, stops, reaches_lt, passes_lte, lower_bound,
    lower_open, truthy, str_gt, str_ge.
  assert (Hlt : ∀ b, (String.eqb b "" || String.ltb k b)
                     = negb (negb (String.eqb b "") && String.leb b k)).
  { intros b. destruct (String.eqb b ""); [reflexivity|]. cbn.
    destruct (String.leb b k) eqn:E.
    - destruct (String.ltb k b) eqn:E'; [|reflexivity].
      pose proof (str_lt_le_trans _ _ _ E' E) as Hc.
      rewrite str_lt_irrefl in Hc. discriminate.
    - now rewrite (str_leb_false_ltb _ _ E). }
  assert (Hlte : ∀ b, (String.eqb b "" || String.leb k b)
                      = negb (negb (String.eqb b "") && String.ltb b k)).
  { intros b. destruct (String.eqb b ""); [reflexivity|]. cbn.
    destruct (String.ltb b k) eqn:E.
    - destruct (String.leb k b) eqn:E'; [|reflexivity].
      pose proof (str_lt_le_trans _ _ _ E E') as Hc.
      rewrite str_lt_irrefl in Hc. discriminate.
    - now rewrite (str_ltb_false_leb _ _ E). }
  rewrite negb_orb.
  assert (Hupper :
    match arg_lt args with
    | Some b => String.eqb b "" || String.ltb k b
    | None => true
    end
    = negb match arg_lt args with
           | Some b => negb (String.eqb b "") && String.leb b k
           | None => false
           end)
    by (destruct (arg_lt args); [apply Hlt | reflexivity]).
  assert (Hupper' :
    match arg_lte args with
    | Some b => String.eqb b "" || String.leb k b
    | None => true
    end
    = negb match arg_lte args with
           | Some b => negb (String.eqb b "") && String.ltb b k
           | None => false
           end)
    by (destruct (arg_lte args); [apply Hlte | reflexivity]).
  rewrite Hupper, Hupper', <- andb_assoc. f_equal.
  destruct (arg_gt args) as [g|]; cbn [negb default from_option id];
    [destruct (String.eqb_spec g ""); subst; cbn [negb default from_option id]|];
    try reflexivity;
    (destruct (arg_gte args) as [ge|]; cbn [negb default from_option id];
     [destruct (String.eqb_spec ge ""); subst;
      cbn [negb default from_option id]|]);
    rewrite ?str_le_empty; reflexivity.
Qed.

Lemma filter_all {A} (f : A → bool) (l : list A) :
  (∀ x, x ∈ l → f x = true) → List.filter f l = l.
Proof.
  induction l as [|x l IH]; intros H; cbn; [reflexivity|].
  rewrite (H x) by apply list_elem_of_here. f_equal.
  apply IH. intros y Hy. apply H. now apply list_elem_of_further.
Qed.

Lemma filter_none {A} (f : A → bool) (l : list A) :
  (∀ x, x ∈ l → f x = false) → List.filter f l = [].
Proof.
  induction l as [|x l IH]; intros H; cbn; [reflexivity|].
  rewrite (H x) by apply list_elem_of_here.
  apply IH. intros y Hy. apply H. now apply list_elem_of_further.
Qed.

Lemma ascending_cons (x : string) (ks : list string) :
  ascending (x :: ks) →
  ascending ks ∧ ∀ c, c ∈ ks → String.ltb x c = true.
Proof.
  intros H. split.
  - intros i j a b Hij Ha Hb. apply (H (S i) (S j)); [lia | exact Ha | exact Hb].
  - intros c Hc. apply list_elem_of_lookup in Hc as [i Hi].
    apply (H 0%nat (S i)); [lia | reflexivity | exact Hi].
Qed.

Lemma elem_of_map_fst (m : list (string * string)) (k v : string) :
  (k, v) ∈ m → k ∈ map fst m.
Proof.
  intros H. apply list_elem_of_In. apply list_elem_of_In in H.
  now apply (in_map fst) in H.
Qed.

(** On a sorted leaf the keys a monotone predicate accepts are a suffix,
    and [findIndex] reports where it starts. *)
Lemma findIndex_sorted (p : string → bool) :
  (∀ a b, p a = true → String.ltb a b = true → p b = true) →
  ∀ (m : list (string * string)) (z : Z),
    ascending (map fst m) →
    let j := findIndex_from z p (map fst m) in
    (j = -1 ∧ List.filter (λ kv, p (fst kv)) m = [])
    ∨ (z ≤ j ∧ (Z.to_nat (j - z) < length m)%nat
       ∧ List.filter (λ kv, p (fst kv)) m = drop (Z.to_nat (j - z)) m).
Proof.
  intros Hmono. induction m as [|[k v] m IH]; intros z Hasc.
  - now left.
  - rewrite map_cons in *. cbn [fst findIndex_from List.filter].
    apply ascending_cons in Hasc as [Hasc Hhead].
    destruct (p k) eqn:Hp.
    + right. rewrite Z.sub_diag. change (Z.to_nat 0) with 0%nat.
      rewrite drop_0. cbn [length].
      repeat split; [lia | lia |]. f_equal. apply filter_all.
      intros [k' v'] Hin. cbn [fst]. apply (Hmono k); [exact Hp|].
      apply Hhead. now apply elem_of_map_fst in Hin.
    + destruct (IH (z + 1) Hasc) as [[Hj Hf]|(Hj & Hlt & Hf)].
      * left. split; [exact Hj | exact Hf].
      * right.
        replace (Z.to_nat (findIndex_from (z + 1) p (map fst m) - z))
          with (S (Z.to_nat (findIndex_from (z + 1) p (map fst m) - (z + 1))))
          by lia.
        cbn [drop length]. repeat split; [lia | lia | exact Hf].
Qed.

(** The [for] loop over a sorted run of a leaf collects the entries up to
    the first key that ends the scan, as many as [limit] leaves room for. *)
Lemma for_keys_sorted (args : ListArgs) (m2 : list (string * string)) :
  ∀ (m1 : list (string * string)) (rs : list Entry),
    ascending (map fst m2) →
    (∀ n, arg_limit args = Some n → n = 0 ∨ len rs < n) →
    collected (for_keys args (Some (map snd (m1 ++ m2))) (len m1)
                 (map fst m2) rs)
    = Some (rs ++ ref_list
                    (cut (room args rs)
                       (List.filter (λ kv, negb (stops args (fst kv))) m2))).
Proof.
  induction m2 as [|[k v] m2 IH]; intros m1 rs Hasc Hlim.
  - cbn [map for_keys List.filter].
    destruct (room args rs); cbn; now rewrite ?take_nil, app_nil_r.
  - rewrite map_cons in *. cbn [fst for_keys List.filter].
    apply ascending_cons in Hasc as [Hasc Hhead].
    unfold visit. fold (stops args k).
    destruct (stops args k) eqn:Hstop.
    + assert (Hnone : List.filter (λ kv, negb (stops args (fst kv))) m2 = []).
      { apply filter_none. intros [k' v'] Hin. cbn [fst].
        rewrite (stops_monotone args k k'); [reflexivity | exact Hstop |].
        apply Hhead. now apply elem_of_map_fst in Hin. }
      cbn [negb]. rewrite Hnone.
      unfold stops in Hstop.
      assert (Hret : (if reaches_lt args (Some k) then Returned rs
                      else if passes_lte args (Some k) then Returned rs
                      else Returned rs) = Returned rs)
        by now destruct (reaches_lt args (Some k)), (passes_lte args (Some k)).
      destruct (reaches_lt args (Some k)); cbn [orb] in Hstop.
      * cbn. destruct (room args rs); cbn; now rewrite ?take_nil, app_nil_r.
      * rewrite Hstop. cbn.
        destruct (room args rs); cbn; now rewrite ?take_nil, app_nil_r.
    + unfold stops in Hstop. apply orb_false_iff in Hstop as [-> ->].
      cbn [negb].
      assert (Hat : at_index (map snd (m1 ++ (k, v) :: m2)) (len m1) = Some v).
      { unfold len. rewrite at_index_of_nat, map_app.
        rewrite lookup_app_r by (rewrite length_map; lia).
        now rewrite length_map, Nat.sub_diag. }
      rewrite Hat.
      set (F := List.filter (λ kv, negb (stops args (fst kv))) m2).
      destruct (limit_reached args (rs ++ [(Some k, Some v)])) eqn:Hreach.
      * unfold limit_reached in Hreach. unfold room.
        destruct (arg_limit args) as [n|]; [|discriminate].
        destruct (Hlim n eq_refl) as [->|Hroom]; [discriminate|].
        apply andb_true_iff in Hreach as [Hn Hge].
        destruct (Z.eqb_spec n 0); [discriminate|].
        rewrite len_snoc in Hge.
        assert (Hone : Z.to_nat (n - len rs) = 1%nat) by lia.
        rewrite Hone. reflexivity.
      * replace (len m1 + 1) with (len (m1 ++ [(k, v)])) by apply len_snoc.
        replace (m1 ++ (k, v) :: m2) with ((m1 ++ [(k, v)]) ++ m2)
          by now rewrite <- app_assoc.
        rewrite IH; [|exact Hasc|].
        2:{ intros n Hn. unfold limit_reached in Hreach. rewrite Hn in Hreach.
            destruct (Z.eqb_spec n 0); [now left | right].
            cbn [negb andb] in Hreach. lia. }
        fold F. f_equal. rewrite <- app_assoc. f_equal.
        unfold room, limit_reached in *.
        destruct (arg_limit args) as [n|]; [|reflexivity].
        destruct (Z.eqb_spec n 0); [reflexivity|].
        cbn [negb andb] in Hreach. rewrite len_snoc in *.
        destruct (Hlim n eq_refl) as [?|Hroom]; [contradiction|].
        replace (Z.to_nat (n - len rs))
          with (S (Z.to_nat (n - (len rs + 1)))) by lia.
        reflexivity.
Qed.

Lemma filter_andb {A} (f g : A → bool) (l : list A) :
  List.filter (λ x, f x && g x) l = List.filter g (List.filter f l).
Proof.
  induction l as [|x l IH]; cbn; [reflexivity|].
  destruct (f x); cbn; [destruct (g x)|]; now rewrite IH.
Qed.

Lemma ascending_drop (ks : list string) (n : nat) :
  ascending ks → ascending (drop n ks).
Proof.
  intros H i j a b Hij Ha Hb. rewrite lookup_drop in Ha, Hb.
  apply (H (n + i)%nat (n + j)%nat); [lia | exact Ha | exact Hb].
Qed.

Lemma for_from_sorted (args : ListArgs) (m : list (string * string))
    (start : nat) :
  ascending (map fst m) → (start ≤ length m)%nat →
  (∀ n, arg_limit args = Some n → 0 ≤ n) →
  collected (for_from args (Some (map snd m)) (Z.of_nat start) (map fst m) [])
  = Some (ref_list
            (limited args
               (List.filter (λ kv, negb (stops args (fst kv)))
                  (drop start m)))).
Proof.
  intros Hasc Hstart Hlim. unfold for_from.
  destruct (Z.ltb_spec (Z.of_nat start) 0); [lia|].
  rewrite Nat2Z.id.
  pose proof (for_keys_sorted args (drop start m) (take start m) []) as Hfk.
  rewrite take_drop in Hfk.
  replace (len (take start m)) with (Z.of_nat start) in Hfk
    by (unfold len; rewrite length_take; lia).
  rewrite <- skipn_map in Hfk. rewrite Hfk.
  - cbn [app]. unfold room, limited, cut, len. cbn [length].
    destruct (arg_limit args) as [n|]; [|reflexivity].
    destruct (n =? 0); [reflexivity|]. now rewrite Z.sub_0_r.
  - now apply ascending_drop.
  - intros n Hn. specialize (Hlim n Hn). unfold len. cbn [length]. lia.
Qed.

Lemma above_lower_unbounded (args : ListArgs) (k : string) :
  lower_bound args = None → above_lower args k = true.
Proof.
  unfold lower_bound, above_lower, str_ge, truthy.
  destruct (arg_gt args) as [g|];
    [destruct (String.eqb_spec g ""); [|discriminate]|];
    (destruct (arg_gte args) as [ge|];
     [destruct (String.eqb_spec ge ""); [|discriminate]|]);
    subst; intros _; cbn; apply str_le_empty.
Qed.

Lemma startIndex_of_unbounded (args : ListArgs) (ks : list string) :
  lower_bound args = None → startIndex_of args ks = 0.
Proof.
  unfold lower_bound, startIndex_of.
  destruct (arg_gt args) as [g|]; cbn [truthy];
    [destruct (negb (String.eqb g "")); [discriminate|]|];
    (destruct (arg_gte args) as [ge|]; cbn [truthy];
     [destruct (negb (String.eqb ge "")); [discriminate|]|]);
    reflexivity.
Qed.

(** Where the scan of a sorted leaf starts, and what lies from there on. *)
Lemma startIndex_of_sorted (args : ListArgs) (m : list (string * string)) :
  ascending (map fst m) →
  let j := startIndex_of args (map fst m) in
  (j = -1 ∧ is_Some (lower_bound args)
   ∧ List.filter (λ kv, above_lower args (fst kv)) m = [])
  ∨ (0 ≤ j ∧ (Z.to_nat j ≤ length m)%nat
     ∧ List.filter (λ kv, above_lower args (fst kv)) m = drop (Z.to_nat j) m).
Proof.
  intros Hasc. destruct (lower_bound args) as [lo|] eqn:Hlo.
  - rewrite startIndex_of_lower by (rewrite Hlo; eauto). unfold findIndex.
    destruct (findIndex_sorted (above_lower args) (above_lower_monotone args)
                m 0 Hasc) as [[Hj Hf]|(Hj & Hlt & Hf)].
    + left. cbv zeta. rewrite Hj. split; [reflexivity|]. split; [eauto|].
      exact Hf.
    + right. cbv zeta. rewrite Z.sub_0_r in *.
      split; [exact Hj|]. split; [lia | exact Hf].
  - right. cbv zeta. rewrite startIndex_of_unbounded by exact Hlo.
    split; [lia|]. split; [cbn; lia|]. change (Z.to_nat 0) with 0%nat.
    rewrite drop_0. apply filter_all. intros kv _.
    now apply above_lower_unbounded.
Qed.

Lemma filter_in_range (args : ListArgs) (m : list (string * string)) :
  List.filter (λ kv, in_range args (fst kv)) m
  = List.filter (λ kv, negb (stops args (fst kv)))
      (List.filter (λ kv, above_lower args (fst kv)) m).
Proof.
  rewrite <- filter_andb. apply filter_ext. intros kv. apply in_range_scan.
Qed.

(** On a one-leaf tree a range query without [offset] and [reverse]
    returns the entries whose keys lie within the bounds, in key order, cut
    to [limit]: always in the sibling variant, and in [src/bptree/bptree.ts]
    when no lower bound is given or some key of the leaf passes it. *)
Theorem range_query_on_one_leaf (t : Tree) (m : list (string * string))
    (args : ListArgs) (fuel : nat) :
  single_leaf t m → (2 ≤ fuel)%nat →
  arg_offset args = None → arg_reverse args = None →
  (∀ n, arg_limit args = Some n → 0 ≤ n) →
  let expected :=
    ref_list (limited args (List.filter (λ kv, in_range args (fst kv)) m)) in
  list_sibling fuel args t = Ok expected t
  ∧ (lower_bound args = None
     ∨ (∃ kv, kv ∈ m ∧ above_lower args (fst kv) = true) →
     list_bptree fuel args t = Ok expected t).
Proof.
  intros (Hinit & Hh & Hne & Hnode & Hasc) Hfuel Hoff Hrev Hlim expected.
  destruct fuel as [|[|fuel]]; try lia.
  unfold list_bptree, list_sibling.
  rewrite !(bind_Ok ensure_init _ t t tt) by now apply ensure_init_initialized.
  rewrite !(bind_Ok get_tree _ t t t) by reflexivity.
  assert (Hleaf : findLeaf t (start_key args) = Some (Some (rootId t)))
    by (unfold findLeaf; now rewrite Hh).
  rewrite Hleaf. run_monad.
  assert (Htruthy : truthy (Some (rootId t)) = true).
  { unfold truthy. apply String.eqb_neq in Hne. now rewrite Hne. }
  cbn [scan_leaves scan_leaves_skipping]. rewrite Htruthy, Hnode.
  cbn beta iota delta [keys values next leaf].
  cbn [or_else truthy String.eqb negb].
  assert (Hpost : ∀ rs, post_process args rs = rs)
    by (intros rs; unfold post_process; now rewrite Hoff, Hrev).
  unfold expected. rewrite filter_in_range.
  destruct (startIndex_of_sorted args m Hasc) as [(Hj & Hlow & Hf)|(Hj & Hle & Hf)].
  - (* no key passes the lower bound *)
    rewrite Hj, Hf. cbn [Z.eqb Pos.eqb List.filter].
    assert (Hnil : limited args [] = []).
    { unfold limited. destruct (arg_limit args) as [n|]; [|reflexivity].
      destruct (n =? 0); [reflexivity | apply take_nil]. }
    rewrite Hnil. split; [now rewrite Hpost|].
    intros [Hnone|(kv & Hin & Hk)].
    + rewrite Hnone in Hlow. now destruct Hlow.
    + exfalso.
      assert (Hmem : kv ∈ List.filter (λ kv, above_lower args (fst kv)) m).
      { apply list_elem_of_In, filter_In. split; [|exact Hk].
        now apply list_elem_of_In. }
      rewrite Hf in Hmem. now apply elem_of_nil in Hmem.
  - set (j := startIndex_of args (map fst m)) in *.
    destruct (Z.eqb_spec j (-1)); [lia|].
    rewrite Hf.
    pose proof (for_from_sorted args m (Z.to_nat j) Hasc Hle Hlim) as Hscan.
    rewrite Z2Nat.id in Hscan by exact Hj.
    destruct (for_from args (Some (map snd m)) j (map fst m) []);
      try discriminate; injection Hscan as ->;
      (split; [now rewrite ?Hpost | intros _; reflexivity]).
Qed.

(** The theorem applies to the tree holding "a" and "b" and the query
    [{ gte: "b", lte: "c", limit: 5 }]. *)
Lemma range_query_on_one_leaf_witness :
  let args := mkArgs None (Some "b") None (Some "c") (Some 5) None None in
  let m := [("a", "1"); ("b", "2")] in
  single_leaf ab_tree m ∧ (2 ≤ 3)%nat
  ∧ arg_offset args = None ∧ arg_reverse args = None
  ∧ (∀ n, arg_limit args = Some n → 0 ≤ n)
  ∧ list_sibling 3 args ab_tree = Ok [(Some "b", Some "2")] ab_tree
  ∧ (lower_bound args = None
     ∨ (∃ kv, kv ∈ m ∧ above_lower args (fst kv) = true) →
     list_bptree 3 args ab_tree = Ok [(Some "b", Some "2")] ab_tree).
Proof.
  intros args m.
  assert (H1 : single_leaf ab_tree m).
  { split; [reflexivity|]. split; [reflexivity|]. split; [discriminate|].
    split; [vm_compute; reflexivity|].
    apply strictly_ascending_ascending. reflexivity. }
  assert (H2 : (2 ≤ 3)%nat) by lia.
  assert (H5 : ∀ n, arg_limit args = Some n → 0 ≤ n)
    by (intros n Hn; injection Hn as <-; lia).
  split; [exact H1|]. split; [exact H2|]. split; [reflexivity|].
  split; [reflexivity|]. split; [exact H5|].
  exact (range_query_on_one_leaf ab_tree m args 3 H1 H2 eq_refl eq_refl H5).
Defined.

(** The theorem applies to the two-leaf tree of the small-fanout scenario
    and [set("aa", "x")], which lands in the left leaf. *)
Lemma set_rewrites_one_leaf_witness :
  let m := [("a", "a"); ("b", "b")] in
  let right := LEAF_PREFIX +:+ fresh_suffix example_host 0 in
  let m' := ref_set "aa" "x" m in
  initialized split_tree = true
  ∧ findLeaf split_tree "aa" = Some (Some "00root")
  ∧ parse_node (store split_tree) (Some "00root")
    = leaf (map fst m) (map snd m) (Some right)
  ∧ ascending (map fst m)
  ∧ len (ref_set "aa" "x" m) ≤ maxLeafSize split_tree
  ∧ m' = [("a", "a"); ("aa", "x"); ("b", "b")]
  ∧ tree_set example_host "aa" "x" split_tree
    = Ok tt (set_store split_tree
               (<["00root" := StoredNode (leaf (map fst m') (map snd m')
                                               (Some right))]>
                  (store split_tree)))
  ∧ ascending (map fst m').
Proof.
  intros m right m'.
  assert (H1 : initialized split_tree = true) by reflexivity.
  assert (H2 : findLeaf split_tree "aa" = Some (Some "00root"))
    by (vm_compute; reflexivity).
  assert (H3 : parse_node (store split_tree) (Some "00root")
               = leaf (map fst m) (map snd m) (Some right))
    by (vm_compute; reflexivity).
  assert (H4 : ascending (map fst m))
    by (apply strictly_ascending_ascending; reflexivity).
  assert (H5 : len (ref_set "aa" "x" m) ≤ maxLeafSize split_tree)
    by (vm_compute; discriminate).
  split; [exact H1|]. split; [exact H2|]. split; [exact H3|].
  split; [exact H4|]. split; [exact H5|]. split; [reflexivity|].
  exact (set_rewrites_one_leaf example_host split_tree "aa" "x" "00root" m
           (Some right) H1 H2 H3 H4 H5).
Defined.

(** The theorem applies to the two-leaf tree of the small-fanout scenario
    and [delete("d")], which leaves two keys in the right leaf. *)
Lemma delete_rewrites_one_leaf_witness :
  let m := [("c", "c"); ("d", "d"); ("e", "e")] in
  let right := LEAF_PREFIX +:+ fresh_suffix example_host 0 in
  let m' := ref_delete "d" m in
  initialized split_tree = true
  ∧ findLeaf split_tree "d" = Some (Some right)
  ∧ parse_node (store split_tree) (Some right)
    = leaf (map fst m) (map snd m) None
  ∧ (height split_tree ≤ 0
     ∨ ceil_half (maxLeafSize split_tree) ≤ len (ref_delete "d" m))
  ∧ m' = [("c", "c"); ("e", "e")]
  ∧ tree_delete example_host "d" split_tree
    = Ok tt (if bool_decide ("d" ∈ map fst m)
             then set_store split_tree
                    (<[right := StoredNode (leaf (map fst m') (map snd m')
                                                 None)]>
                       (store split_tree))
             else split_tree)
  ∧ (ascending (map fst m) → ascending (map fst m')).
Proof.
  intros m right m'.
  assert (H1 : initialized split_tree = true) by reflexivity.
  assert (H2 : findLeaf split_tree "d" = Some (Some right))
    by (vm_compute; reflexivity).
  assert (H3 : parse_node (store split_tree) (Some right)
               = leaf (map fst m) (map snd m) None)
    by (vm_compute; reflexivity).
  assert (H4 : height split_tree ≤ 0
               ∨ ceil_half (maxLeafSize split_tree) ≤ len (ref_delete "d" m))
    by (right; vm_compute; discriminate).
  split; [exact H1|]. split; [exact H2|]. split; [exact H3|].
  split; [exact H4|]. split; [reflexivity|].
  exact (delete_rewrites_one_leaf example_host split_tree "d" right m None
           H1 H2 H3 H4).
Defined.

(** ** After the first split *)

Lemma findChildIndex_singleton (sk k : string) :
  findChildIndex [sk] k = if String.leb sk k then 1%nat else 0%nat.
Proof.
  unfold findChildIndex. cbn. unfold str_le. now destruct (String.leb sk k).
Qed.

Lemma truthy_nonempty (s : string) : s ≠ "" → truthy (Some s) = true.
Proof. intros H. unfold truthy. apply String.eqb_neq in H. now rewrite H. Qed.

Lemma two_leaves_findLeaf (t : Tree) (sk l r : string)
    (m1 m2 : list (string * string)) (k : string) :
  two_leaves t sk l r m1 m2 →
  findLeaf t k = Some (Some (if String.leb sk k then r else l)).
Proof.
  intros (_ & Hh & Hl & Hr & _ & _ & _ & Hroot & _).
  unfold findLeaf. rewrite Hh. change (Z.to_nat 1) with 1%nat.
  cbn [findLeaf_loop]. unfold descend. rewrite Hroot.
  cbn [keys children internal mbind option_bind].
  rewrite findChildIndex_singleton.
  destruct (String.leb sk k); cbn [lookup list_lookup last];
    unfold or_else; now rewrite truthy_nonempty.
Qed.

Lemma ref_get_absent (k : string) (m : list (string * string)) :
  k ∉ map fst m → ref_get k m = None.
Proof.
  induction m as [|[k' v'] m IH]; intros H; [reflexivity|].
  rewrite map_cons in H. cbn [fst ref_get] in *.
  apply not_elem_of_cons in H as [Hne H].
  destruct (String.eqb_spec k' k); [congruence | now apply IH].
Qed.

Lemma ref_get_app (k : string) (m1 m2 : list (string * string)) :
  ref_get k (m1 ++ m2)
  = match ref_get k m1 with
    | Some v => Some v
    | None => ref_get k m2
    end.
Proof.
  induction m1 as [|[k' v'] m1 IH]; [reflexivity|].
  cbn [app ref_get]. now destruct (String.eqb k' k).
Qed.

Lemma two_leaves_sides (t : Tree) (sk l r : string)
    (m1 m2 : list (string * string)) (k : string) :
  two_leaves t sk l r m1 m2 →
  if String.leb sk k then k ∉ map fst m1
  else k ∉ map fst m2.
Proof.
  intros (_ & _ & _ & _ & _ & _ & _ & _ & _ & _ & _ & Hlow & Hhigh).
  destruct (String.leb sk k) eqn:E; intros Hin.
  - pose proof (str_lt_le_trans _ _ _ (Hlow k Hin) E) as Hc.
    rewrite str_lt_irrefl in Hc. discriminate.
  - rewrite (Hhigh k Hin) in E. discriminate.
Qed.

Lemma tree_get_in_leaf (t : Tree) (k leafId : string)
    (m : list (string * string)) (nx : option string) :
  initialized t = true →
  findLeaf t k = Some (Some leafId) →
  parse_node (store t) (Some leafId) = leaf (map fst m) (map snd m) nx →
  tree_get k t = Ok (ref_get k m) t.
Proof.
  intros Hinit Hleaf Hnode. unfold tree_get.
  rewrite (bind_Ok ensure_init _ t t tt) by now apply ensure_init_initialized.
  rewrite (bind_Ok get_tree _ t t t) by reflexivity.
  rewrite Hleaf. run_monad. rewrite Hnode. cbn [keys values leaf].
  unfold indexOf.
  destruct (ref_get_indexOf k m 0) as [[Hj Hg]|[Hj Hg]].
  - rewrite Hj, Hg. reflexivity.
  - destruct (Z.eqb_spec (indexOf_from 0 (map fst m) k) (-1)); [lia|].
    rewrite Hg, Z.sub_0_r. unfold at_index.
    destruct (Z.ltb_spec (indexOf_from 0 (map fst m) k) 0); [lia|].
    reflexivity.
Qed.

Lemma two_leaves_get (t : Tree) (sk l r : string)
    (m1 m2 : list (string * string)) (k : string) :
  two_leaves t sk l r m1 m2 →
  tree_get k t = Ok (ref_get k (m1 ++ m2)) t.
Proof.
  intros H. pose proof (two_leaves_findLeaf t sk l r m1 m2 k H) as Hleaf.
  pose proof (two_leaves_sides t sk l r m1 m2 k H) as Hside.
  destruct H as (Hinit & _ & _ & _ & _ & _ & _ & _ & Hl & Hr & _).
  rewrite ref_get_app.
  destruct (String.leb sk k).
  - rewrite (ref_get_absent k m1 Hside).
    exact (tree_get_in_leaf t k r m2 None Hinit Hleaf Hr).
  - rewrite (tree_get_in_leaf t k l m1 (Some r) Hinit Hleaf Hl).
    rewrite (ref_get_absent k m2 Hside). now destruct (ref_get k m1).
Qed.

Lemma str_lt_empty (k : string) : String.ltb k "" = false.
Proof. now destruct k. Qed.

Lemma ref_list_app (m1 m2 : list (string * string)) :
  ref_list (m1 ++ m2) = ref_list m1 ++ ref_list m2.
Proof. unfold ref_list. apply map_app. Qed.

(** One turn of the scanning loop over a leaf, without options. *)
Lemma scan_leaf_no_args (s : gmap string Stored) (id : string)
    (m : list (string * string)) (nx : option string) (f : nat)
    (rs : list Entry) :
  id ≠ "" →
  parse_node s (Some id) = leaf (map fst m) (map snd m) nx →
  scan_leaves (S f) s no_args (Some id) rs
  = scan_leaves f s no_args (or_else nx (Some "")) (rs ++ ref_list m)
  ∧ scan_leaves_skipping (S f) s no_args (Some id) rs
    = scan_leaves_skipping f s no_args (or_else nx (Some "")) (rs ++ ref_list m).
Proof.
  intros Hid Hnode. cbn [scan_leaves scan_leaves_skipping].
  rewrite (truthy_nonempty id Hid), Hnode.
  cbn beta iota delta [keys values next leaf].
  assert (Hscan : for_from no_args (Some (map snd m))
                    (startIndex_of no_args (map fst m)) (map fst m) rs
                  = Exhausted (rs ++ ref_list m)).
  { unfold startIndex_of, for_from. cbn [truthy arg_gt arg_gte no_args].
    cbn [Z.ltb Z.compare Z.to_nat drop].
    exact (for_keys_no_args m [] rs). }
  rewrite Hscan.
  change (startIndex_of no_args (map fst m)) with 0. cbn [Z.eqb].
  split; reflexivity.
Qed.

Lemma two_leaves_list (t : Tree) (sk l r : string)
    (m1 m2 : list (string * string)) (fuel : nat) :
  two_leaves t sk l r m1 m2 → (3 ≤ fuel)%nat →
  list_bptree fuel no_args t = Ok (ref_list (m1 ++ m2)) t
  ∧ list_sibling fuel no_args t = Ok (ref_list (m1 ++ m2)) t.
Proof.
  intros H Hfuel.
  pose proof (two_leaves_findLeaf t sk l r m1 m2 "" H) as Hleaf.
  destruct H as (Hinit & _ & Hlne & Hrne & _ & _ & _ & _ & Hl & Hr & _ & Hlow & _).
  destruct fuel as [|[|[|fuel]]]; try lia.
  unfold list_bptree, list_sibling.
  rewrite !(bind_Ok ensure_init _ t t tt) by now apply ensure_init_initialized.
  rewrite !(bind_Ok get_tree _ t t t) by reflexivity.
  change (start_key no_args) with "". rewrite Hleaf. run_monad.
  destruct (String.leb sk "") eqn:E.
  - (* an empty separator: nothing can be below it *)
    assert (m1 = []) as ->.
    { destruct m1 as [|[k v] m1]; [reflexivity|].
      pose proof (Hlow k ltac:(rewrite map_cons; apply list_elem_of_here)) as Hc.
      destruct (String.eqb_spec sk "") as [->|Hne].
      - rewrite str_lt_empty in Hc. discriminate.
      - destruct sk; [contradiction | discriminate]. }
    destruct (scan_leaf_no_args (store t) r m2 None (S (S fuel)))
      with (rs := @nil Entry) as [Hr1 Hr2]; [exact Hrne | exact Hr |].
    rewrite Hr1, Hr2. cbn [or_else truthy String.eqb negb].
    cbn [scan_leaves scan_leaves_skipping truthy String.eqb negb app].
    split; reflexivity.
  - destruct (scan_leaf_no_args (store t) l m1 (Some r) (S (S fuel)))
      with (rs := @nil Entry) as [Hl1 Hl2]; [exact Hlne | exact Hl |].
    destruct (scan_leaf_no_args (store t) r m2 None (S fuel))
      with (rs := [] ++ ref_list m1) as [Hr1' Hr2']; [exact Hrne | exact Hr |].
    assert (Hor : or_else (Some r) (Some "") = Some r)
      by (unfold or_else; now rewrite truthy_nonempty).
    rewrite Hor in Hl1, Hl2.
    rewrite Hl1, Hl2, Hr1', Hr2'. cbn [or_else truthy String.eqb negb].
    cbn [scan_leaves scan_leaves_skipping truthy String.eqb negb app].
    rewrite ref_list_app. split; reflexivity.
Qed.

(** A two-leaf tree answers as the reference sorted map holding the
    entries of both leaves: [get] is its lookup and [list()] its entries in
    key order, in both variants. *)
Theorem two_leaf_tree_is_sorted_map (t : Tree) (sk l r : string)
    (m1 m2 : list (string * string)) :
  two_leaves t sk l r m1 m2 →
  (∀ k, tree_get k t = Ok (ref_get k (m1 ++ m2)) t)
  ∧ (∀ fuel, (3 ≤ fuel)%nat →
       list_bptree fuel no_args t = Ok (ref_list (m1 ++ m2)) t
       ∧ list_sibling fuel no_args t = Ok (ref_list (m1 ++ m2)) t).
Proof.
  intros H. split.
  - intros k. now apply (two_leaves_get t sk l r).
  - intros fuel Hfuel. now apply (two_leaves_list t sk l r).
Qed.

Lemma forallb_elem_of (f : string → bool) (l : list string) :
  forallb f l = true → ∀ k, k ∈ l → f k = true.
Proof.
  intros H k Hk. rewrite forallb_forall in H. apply H.
  now apply list_elem_of_In.
Qed.

(** The tree the small-fanout scenario builds is a two-leaf tree. *)
Lemma split_tree_two_leaves :
  two_leaves split_tree "c" "00root"
    (LEAF_PREFIX +:+ fresh_suffix example_host 0)
    [("a", "a"); ("b", "b")] [("c", "c"); ("d", "d"); ("e", "e")].
Proof.
  split; [reflexivity|]. split; [reflexivity|].
  split; [discriminate|]. split; [discriminate|].
  split; [discriminate|]. split; [discriminate|]. split; [discriminate|].
  split; [vm_compute; reflexivity|]. split; [vm_compute; reflexivity|].
  split; [vm_compute; reflexivity|].
  split; [apply strictly_ascending_ascending; reflexivity|].
  split; apply forallb_elem_of; reflexivity.
Qed.

(** The theorem applies to the tree of the small-fanout scenario. *)
Lemma two_leaf_tree_is_sorted_map_witness :
  let right := LEAF_PREFIX +:+ fresh_suffix example_host 0 in
  let m1 := [("a", "a"); ("b", "b")] in
  let m2 := [("c", "c"); ("d", "d"); ("e", "e")] in
  two_leaves split_tree "c" "00root" right m1 m2
  ∧ (∀ k, tree_get k split_tree = Ok (ref_get k (m1 ++ m2)) split_tree)
  ∧ (∀ fuel, (3 ≤ fuel)%nat →
       list_bptree fuel no_args split_tree
       = Ok (ref_list (m1 ++ m2)) split_tree
       ∧ list_sibling fuel no_args split_tree
         = Ok (ref_list (m1 ++ m2)) split_tree).
Proof.
  intros right m1 m2. split; [exact split_tree_two_leaves|].
  exact (two_leaf_tree_is_sorted_map split_tree "c" "00root" right m1 m2
           split_tree_two_leaves).
Defined.


Lemma elem_of_drop {A} (l : list A) (n : nat) (x : A) :
  x ∈ drop n l → ∃ i, (n ≤ i)%nat ∧ l !! i = Some x.
Proof.
  intros H. apply list_elem_of_lookup in H as [i Hi].
  rewrite lookup_drop in Hi. exists (n + i)%nat. split; [lia | exact Hi].
Qed.



(** ** Writes inside a two-leaf tree *)

Lemma ref_set_app_left (k v : string) (m1 m2 : list (string * string)) :
  (∀ k2, k2 ∈ map fst m2 → String.ltb k k2 = true) →
  ref_set k v (m1 ++ m2) = ref_set k v m1 ++ m2.
Proof.
  intros Hhigh. induction m1 as [|[k' v'] m1 IH]; cbn [app ref_set].
  - destruct m2 as [|[k2 v2] m2]; [reflexivity|].
    pose proof (Hhigh k2 ltac:(rewrite map_cons; apply list_elem_of_here)) as Hk.
    cbn [ref_set]. destruct (String.eqb_spec k2 k) as [->|Hne].
    + rewrite str_lt_irrefl in Hk. discriminate.
    + unfold str_lt. now rewrite Hk.
  - destruct (String.eqb k' k); [reflexivity|].
    destruct (str_lt k k'); [reflexivity|]. now rewrite IH.
Qed.

Lemma ref_set_app_right (k v : string) (m1 m2 : list (string * string)) :
  (∀ k1, k1 ∈ map fst m1 → String.ltb k1 k = true) →
  ref_set k v (m1 ++ m2) = m1 ++ ref_set k v m2.
Proof.
  induction m1 as [|[k' v'] m1 IH]; intros Hlow; [reflexivity|].
  cbn [app ref_set].
  pose proof (Hlow k' ltac:(rewrite map_cons; apply list_elem_of_here)) as Hk.
  destruct (String.eqb_spec k' k) as [->|Hne].
  - rewrite str_lt_irrefl in Hk. discriminate.
  - unfold str_lt. rewrite (str_lt_asym k' k Hk). f_equal. apply IH.
    intros k1 Hk1. apply Hlow. rewrite map_cons. now apply list_elem_of_further.
Qed.

Lemma elem_of_ref_set (k v : string) (m : list (string * string)) (x : string) :
  x ∈ map fst (ref_set k v m) → x = k ∨ x ∈ map fst m.
Proof.
  induction m as [|[k' v'] m IH]; cbn [ref_set]; intros H.
  - rewrite map_cons in H. apply elem_of_cons in H as [->|H]; [now left|].
    now apply elem_of_nil in H.
  - destruct (String.eqb_spec k' k) as [->|Hne].
    + rewrite map_cons in H. apply elem_of_cons in H as [->|H]; [now left|].
      right. rewrite map_cons. now apply list_elem_of_further.
    + destruct (str_lt k k').
      * rewrite map_cons in H. apply elem_of_cons in H as [->|H];
          [now left | now right].
      * rewrite !map_cons in *. cbn [fst] in *.
        apply elem_of_cons in H as [->|H].
        { right. apply list_elem_of_here. }
        destruct (IH H) as [->|Hin]; [now left|].
        right. now apply list_elem_of_further.
Qed.

Lemma ref_delete_absent (k : string) (m : list (string * string)) :
  k ∉ map fst m → ref_delete k m = m.
Proof.
  induction m as [|[k' v'] m IH]; intros H; [reflexivity|].
  rewrite map_cons in H. cbn [fst ref_delete] in *.
  apply not_elem_of_cons in H as [Hne H].
  destruct (String.eqb_spec k' k); [congruence|]. now rewrite IH.
Qed.

Lemma ref_delete_app_left (k : string) (m1 m2 : list (string * string)) :
  k ∉ map fst m2 → ref_delete k (m1 ++ m2) = ref_delete k m1 ++ m2.
Proof.
  intros H. induction m1 as [|[k' v'] m1 IH]; cbn [app ref_delete].
  - now apply ref_delete_absent.
  - destruct (String.eqb k' k); [reflexivity | now rewrite IH].
Qed.

Lemma ref_delete_app_right (k : string) (m1 m2 : list (string * string)) :
  k ∉ map fst m1 → ref_delete k (m1 ++ m2) = m1 ++ ref_delete k m2.
Proof.
  induction m1 as [|[k' v'] m1 IH]; intros H; [reflexivity|].
  rewrite map_cons in H. cbn [fst app ref_delete] in *.
  apply not_elem_of_cons in H as [Hne H].
  destruct (String.eqb_spec k' k); [congruence|]. now rewrite IH.
Qed.

Lemma elem_of_ref_delete (k : string) (m : list (string * string)) (x : string) :
  x ∈ map fst (ref_delete k m) → x ∈ map fst m.
Proof.
  induction m as [|[k' v'] m IH]; cbn [ref_delete]; intros H; [exact H|].
  rewrite map_cons. destruct (String.eqb k' k).
  - now apply list_elem_of_further.
  - rewrite map_cons in H. apply elem_of_cons in H as [->|H].
    + apply list_elem_of_here.
    + apply list_elem_of_further. now apply IH.
Qed.

Lemma parse_node_with_record (t : Tree) (id x : string) (n : Node) :
  parse_node (store (with_record t id n)) (Some x)
  = if decide (x = id) then n else parse_node (store t) (Some x).
Proof.
  unfold with_record, parse_node. cbn [store set_store].
  destruct (decide (x = id)) as [->|Hne].
  - now rewrite lookup_insert_eq.
  - now rewrite lookup_insert_ne by congruence.
Qed.

(** A two-leaf tree with one of its leaves rewritten. *)
Lemma two_leaves_with_record (t : Tree) (sk l r : string)
    (m1 m2 m1' m2' : list (string * string)) (right : bool) :
  two_leaves t sk l r m1 m2 →
  (if right then m1' = m1 else m2' = m2) →
  ascending (map fst (m1' ++ m2')) →
  (∀ k, k ∈ map fst m1' → String.ltb k sk = true) →
  (∀ k, k ∈ map fst m2' → String.leb sk k = true) →
  two_leaves
    (with_record t (if right then r else l)
       (if right then leaf (map fst m2') (map snd m2') None
        else leaf (map fst m1') (map snd m1') (Some r)))
    sk l r m1' m2'.
Proof.
  intros (Hinit & Hh & Hl & Hr & Hlr & Hrootl & Hrootr & Hroot & Hleft
          & Hright & _) Hsame Hasc Hlow Hhigh.
  unfold two_leaves. rewrite !parse_node_with_record.
  cbn [with_record set_store initialized height rootId].
  split; [exact Hinit|]. split; [exact Hh|]. split; [exact Hl|].
  split; [exact Hr|]. split; [exact Hlr|]. split; [exact Hrootl|].
  split; [exact Hrootr|].
  destruct right; subst.
  - repeat (case_decide; try congruence).
    repeat (split; [assumption || reflexivity|]). assumption.
  - repeat (case_decide; try congruence).
    repeat (split; [assumption || reflexivity|]). assumption.
Qed.

Lemma ascending_app (l1 l2 : list string) :
  ascending (l1 ++ l2) → ascending l1 ∧ ascending l2.
Proof.
  intros Hasc. split; intros i j a b Hij Ha Hb.
  - apply (Hasc i j); [lia | |]; now apply lookup_app_l_Some.
  - apply (Hasc (length l1 + i)%nat (length l1 + j)%nat);
      [lia | |]; rewrite lookup_app_r by lia.
    + now replace (length l1 + i - length l1)%nat with i by lia.
    + now replace (length l1 + j - length l1)%nat with j by lia.
Qed.

(** In a two-leaf tree, a [set] that does not overfill the leaf it lands in
    (the right one when the key is not below the separator) returns a
    two-leaf tree with the same root, separator and leaves, holding the
    reference map with the entry set. *)
Theorem two_leaf_set (host : nat → N * string) (t : Tree) (sk l r : string)
    (m1 m2 : list (string * string)) (k v : string) :
  two_leaves t sk l r m1 m2 →
  len (ref_set k v (if String.leb sk k then m2 else m1)) ≤ maxLeafSize t →
  ∃ t' m1' m2',
    tree_set host k v t = Ok tt t'
    ∧ two_leaves t' sk l r m1' m2'
    ∧ m1' ++ m2' = ref_set k v (m1 ++ m2)
    ∧ maxLeafSize t' = maxLeafSize t.
Proof.
  intros Htwo Hfit.
  pose proof (two_leaves_findLeaf t sk l r m1 m2 k Htwo) as Hleaf.
  pose proof Htwo as (Hinit & _ & _ & _ & _ & _ & _ & _ & Hleft & Hright
                      & Hasc & Hlow & Hhigh).
  rewrite tree_set_is_insert by exact Hinit.
  rewrite map_app in Hasc.
  destruct (ascending_app _ _ Hasc) as [Hasc1 Hasc2].
  rewrite <- map_app in Hasc.
  destruct (leaf_insert_pure (m1 ++ m2) k v Hasc) as [Hasc' _].
  destruct (String.leb sk k) eqn:E.
  - (* the right leaf *)
    assert (Happ : ref_set k v (m1 ++ m2) = m1 ++ ref_set k v m2).
    { apply ref_set_app_right. intros k1 Hk1.
      eapply str_lt_le_trans; [now apply Hlow | exact E]. }
    exists (with_record t r (leaf (map fst (ref_set k v m2))
                               (map snd (ref_set k v m2)) None)),
      m1, (ref_set k v m2).
    split; [exact (tree_insert_in_leaf host t k v r m2 None Hleaf Hright
                     Hasc2 Hfit)|].
    split; [|split; [now rewrite Happ | reflexivity]].
    apply (two_leaves_with_record t sk l r m1 m2 m1 (ref_set k v m2) true);
      try assumption; try reflexivity.
    + now rewrite <- Happ.
    + intros x Hx. apply elem_of_ref_set in Hx as [->|Hx]; [exact E|].
      now apply Hhigh.
  - (* the left leaf *)
    pose proof (str_leb_false_ltb _ _ E) as Hk.
    assert (Happ : ref_set k v (m1 ++ m2) = ref_set k v m1 ++ m2).
    { apply ref_set_app_left. intros k2 Hk2.
      eapply str_lt_le_trans; [exact Hk | now apply Hhigh]. }
    exists (with_record t l (leaf (map fst (ref_set k v m1))
                               (map snd (ref_set k v m1)) (Some r))),
      (ref_set k v m1), m2.
    split; [exact (tree_insert_in_leaf host t k v l m1 (Some r) Hleaf Hleft
                     Hasc1 Hfit)|].
    split; [|split; [now rewrite Happ | reflexivity]].
    apply (two_leaves_with_record t sk l r m1 m2 (ref_set k v m1) m2 false);
      try assumption; try reflexivity.
    + now rewrite <- Happ.
    + intros x Hx. apply elem_of_ref_set in Hx as [->|Hx]; [exact Hk|].
      now apply Hlow.
Qed.

(** The theorem applies to the tree of the small-fanout scenario and
    [set("bb", "x")], which lands in the left leaf. *)
Lemma two_leaf_set_witness :
  let right := LEAF_PREFIX +:+ fresh_suffix example_host 0 in
  let m1 := [("a", "a"); ("b", "b")] in
  let m2 := [("c", "c"); ("d", "d"); ("e", "e")] in
  two_leaves split_tree "c" "00root" right m1 m2
  ∧ len (ref_set "bb" "x" (if String.leb "c" "bb" then m2 else m1))
    ≤ maxLeafSize split_tree
  ∧ (∃ t' m1' m2',
       tree_set example_host "bb" "x" split_tree = Ok tt t'
       ∧ two_leaves t' "c" "00root" right m1' m2'
       ∧ m1' ++ m2' = ref_set "bb" "x" (m1 ++ m2)
       ∧ maxLeafSize t' = maxLeafSize split_tree).
Proof.
  intros right m1 m2.
  assert (H : len (ref_set "bb" "x" (if String.leb "c" "bb" then m2 else m1))
              ≤ maxLeafSize split_tree) by (vm_compute; discriminate).
  split; [exact split_tree_two_leaves|]. split; [exact H|].
  exact (two_leaf_set example_host split_tree "c" "00root" right m1 m2
           "bb" "x" split_tree_two_leaves H).
Defined.

(** In a two-leaf tree, a [delete] that does not underfill the leaf it
    lands in returns a two-leaf tree with the same root, separator and
    leaves, holding the reference map without the key. *)
Theorem two_leaf_delete (host : nat → N * string) (t : Tree) (sk l r : string)
    (m1 m2 : list (string * string)) (k : string) :
  two_leaves t sk l r m1 m2 →
  ceil_half (maxLeafSize t)
  ≤ len (ref_delete k (if String.leb sk k then m2 else m1)) →
  ∃ t' m1' m2',
    tree_delete host k t = Ok tt t'
    ∧ two_leaves t' sk l r m1' m2'
    ∧ m1' ++ m2' = ref_delete k (m1 ++ m2)
    ∧ maxLeafSize t' = maxLeafSize t.
Proof.
  intros Htwo Hfit.
  pose proof (two_leaves_findLeaf t sk l r m1 m2 k Htwo) as Hleaf.
  pose proof (two_leaves_sides t sk l r m1 m2 k Htwo) as Hside.
  pose proof Htwo as (Hinit & _ & _ & _ & _ & _ & _ & _ & Hleft & Hright
                      & Hasc & Hlow & Hhigh).
  rewrite tree_delete_is_remove by exact Hinit.
  pose proof (leaf_remove_pure (m1 ++ m2) k) as Hpure. cbv zeta in Hpure.
  assert (Hasc' : ascending (map fst (ref_delete k (m1 ++ m2)))).
  { destruct Hpure as [[_ ->]|(_ & _ & _ & _ & H)]; auto. }
  clear Hpure.
  destruct (String.leb sk k) eqn:E.
  - (* the right leaf *)
    assert (Happ : ref_delete k (m1 ++ m2) = m1 ++ ref_delete k m2)
      by now apply ref_delete_app_right.
    rewrite (tree_remove_in_leaf t k r m2 None Hleaf Hright (or_intror Hfit)).
    destruct (decide (k ∈ map fst m2)) as [Hin|Hnot].
    + rewrite bool_decide_eq_true_2 by exact Hin.
      exists (with_record t r (leaf (map fst (ref_delete k m2))
                                 (map snd (ref_delete k m2)) None)),
        m1, (ref_delete k m2).
      split; [reflexivity|].
      split; [|split; [now rewrite Happ | reflexivity]].
      apply (two_leaves_with_record t sk l r m1 m2 m1 (ref_delete k m2) true);
        try assumption; try reflexivity.
      * now rewrite <- Happ.
      * intros x Hx. apply Hhigh. now apply elem_of_ref_delete in Hx.
    + rewrite bool_decide_eq_false_2 by exact Hnot.
      exists t, m1, m2. split; [reflexivity|]. split; [exact Htwo|].
      split; [|reflexivity]. now rewrite Happ, ref_delete_absent.
  - (* the left leaf *)
    assert (Happ : ref_delete k (m1 ++ m2) = ref_delete k m1 ++ m2)
      by now apply ref_delete_app_left.
    rewrite (tree_remove_in_leaf t k l m1 (Some r) Hleaf Hleft
               (or_intror Hfit)).
    destruct (decide (k ∈ map fst m1)) as [Hin|Hnot].
    + rewrite bool_decide_eq_true_2 by exact Hin.
      exists (with_record t l (leaf (map fst (ref_delete k m1))
                                 (map snd (ref_delete k m1)) (Some r))),
        (ref_delete k m1), m2.
      split; [reflexivity|].
      split; [|split; [now rewrite Happ | reflexivity]].
      apply (two_leaves_with_record t sk l r m1 m2 (ref_delete k m1) m2 false);
        try assumption; try reflexivity.
      * now rewrite <- Happ.
      * intros x Hx. apply Hlow. now apply elem_of_ref_delete in Hx.
    + rewrite bool_decide_eq_false_2 by exact Hnot.
      exists t, m1, m2. split; [reflexivity|]. split; [exact Htwo|].
      split; [|reflexivity]. now rewrite Happ, ref_delete_absent.
Qed.

(** The theorem applies to the tree of the small-fanout scenario and
    [delete("d")], which leaves two keys in the right leaf. *)
Lemma two_leaf_delete_witness :
  let right := LEAF_PREFIX +:+ fresh_suffix example_host 0 in
  let m1 := [("a", "a"); ("b", "b")] in
  let m2 := [("c", "c"); ("d", "d"); ("e", "e")] in
  two_leaves split_tree "c" "00root" right m1 m2
  ∧ ceil_half (maxLeafSize split_tree)
    ≤ len (ref_delete "d" (if String.leb "c" "d" then m2 else m1))
  ∧ (∃ t' m1' m2',
       tree_delete example_host "d" split_tree = Ok tt t'
       ∧ two_leaves t' "c" "00root" right m1' m2'
       ∧ m1' ++ m2' = ref_delete "d" (m1 ++ m2)
       ∧ maxLeafSize t' = maxLeafSize split_tree).
Proof.
  intros right m1 m2.
  assert (H : ceil_half (maxLeafSize split_tree)
              ≤ len (ref_delete "d" (if String.leb "c" "d" then m2 else m1)))
    by (vm_compute; discriminate).
  split; [exact split_tree_two_leaves|]. split; [exact H|].
  exact (two_leaf_delete example_host split_tree "c" "00root" right m1 m2
           "d" split_tree_two_leaves H).
Defined.

(** ** What no operation touches *)

Lemma same_config_refl (t : Tree) : same_config t t.
Proof. unfold same_config. intuition lia. Qed.

Lemma same_config_trans (t1 t2 t3 : Tree) :
  same_config t1 t2 → same_config t2 t3 → same_config t1 t3.
Proof. unfold same_config. intuition (try congruence; try lia). Qed.

Lemma splitInternalNode_frame (host : nat → N * string) (fuel : nat) :
  ∀ nodeId node path t t',
    final_tree (splitInternalNode host fuel nodeId node path t) = Some t' →
    same_config t t' ∧ height_step 1 t t'.
Proof.
  induction fuel as [|f IH]; intros nodeId node path t t'.
  - cbn [splitInternalNode]. run_monad. split_matches; frame_done.
  - cbn [splitInternalNode]. run_monad.
    destruct (keys node); [|frame_done]. cbn beta iota.
    destruct (children node); [|frame_done]. cbn beta iota.
    destruct (length path =? 0)%nat eqn:Hp.
    + split_matches; frame_done.
    + cbn beta iota. split_matches; try frame_done.
      intros Hfin. apply IH in Hfin.
      revert Hfin.
      unfold same_config, height_step, set_store, set_root, tick.
      cbn [maxLeafSize maxInternalSize initialized ticks height].
      intuition lia.
Qed.

Lemma tree_insert_frame (host : nat → N * string) (k v : string) (t t' : Tree) :
  final_tree (tree_insert host k v t) = Some t' →
  same_config t t' ∧ height_step 1 t t'.
Proof.
  unfold tree_insert, splitLeafNode, updateParentAfterSplit, array_assign.
  run_monad.
  split_matches;
    try (exfalso;
         match goal with
         | H : (length ?p =? 0)%nat = true, H' : last ?p = Some _ |- _ =>
             apply Nat.eqb_eq in H; destruct p; discriminate
         end);
    try frame_done;
    (intros Hfin; apply splitInternalNode_frame in Hfin; revert Hfin;
     unfold same_config, height_step, set_store, set_root, tick;
     cbn [maxLeafSize maxInternalSize initialized ticks height];
     intuition lia).
Qed.

Lemma rebalanceAfterDelete_frame (fuel : nat) :
  ∀ nodeId node path t t',
    final_tree (rebalanceAfterDelete fuel nodeId node path t) = Some t' →
    same_config t t' ∧ height_step (-1) t t'.
Proof.
  induction fuel as [|f IH]; intros nodeId node path t t'.
  - cbn [rebalanceAfterDelete]. frame_done.
  - cbn [rebalanceAfterDelete]. run_monad.
    unfold mergeWithLeftSibling, mergeWithRightSibling,
      borrowFromLeftSibling, borrowFromRightSibling, array_assign.
    run_monad.
    split_matches; try frame_done;
      (intros Hfin; apply IH in Hfin; revert Hfin;
       unfold same_config, height_step, set_store, set_root, tick;
       cbn [maxLeafSize maxInternalSize initialized ticks height];
       intuition lia).
Qed.

Lemma tree_remove_frame (k : string) (t t' : Tree) :
  final_tree (tree_remove k t) = Some t' →
  same_config t t' ∧ height_step (-1) t t'.
Proof.
  unfold tree_remove. run_monad.
  split_matches; try frame_done.
  intros Hfin. now apply rebalanceAfterDelete_frame in Hfin.
Qed.

Lemma ensure_init_sets_flag (t t' : Tree) :
  ensure_init t = Ok tt t' → initialized t' = true.
Proof.
  unfold ensure_init, init. run_monad.
  destruct (initialized t) eqn:Hi.
  - intros H. injection H as <-. exact Hi.
  - split_matches; intros H; try discriminate H; now injection H as <-.
Qed.

(** [set] moves the height up by at most one and [delete] down by at most
    one, whether they return or throw; neither changes the sizes fixed by
    the constructor, resets the initialization, or reuses an identifier
    count. *)
Theorem set_and_delete_move_height_by_one (host : nat → N * string)
    (t t' : Tree) (k v : string) :
  initialized t = true →
  (final_tree (tree_set host k v t) = Some t' →
   same_config t t' ∧ height_step 1 t t')
  ∧ (final_tree (tree_delete host k t) = Some t' →
     same_config t t' ∧ height_step (-1) t t').
Proof.
  intros Hinit. split.
  - rewrite tree_set_is_insert by exact Hinit. apply tree_insert_frame.
  - rewrite tree_delete_is_remove by exact Hinit. apply tree_remove_frame.
Qed.

(** The theorem applies to the full leaf "a", "b", "c", "d" with
    [maxLeafSize] 4: [set("e", "e")] raises the height from 0 to 1. *)
Lemma set_and_delete_move_height_by_one_witness :
  let t := single_leaf_tree ["a"; "b"; "c"; "d"] ["a"; "b"; "c"; "d"]
             4 MAX_INTERNAL_SIZE in
  initialized t = true
  ∧ option_map height (final_tree (tree_set example_host "e" "e" t)) = Some 1
  ∧ ∀ t',
      (final_tree (tree_set example_host "e" "e" t) = Some t' →
       same_config t t' ∧ height_step 1 t t')
      ∧ (final_tree (tree_delete example_host "e" t) = Some t' →
         same_config t t' ∧ height_step (-1) t t').
Proof.
  intros t.
  assert (H : initialized t = true) by reflexivity.
  split; [exact H|]. split; [vm_compute; reflexivity|].
  intros t'.
  exact (set_and_delete_move_height_by_one example_host t t' "e" "e" H).
Defined.

Lemma for_each_insert_is_set (host : nat → N * string)
    (xs : list (string * string)) :
  ∀ t, initialized t = true →
       for_each (λ kv, tree_insert host (fst kv) (snd kv)) xs t
       = for_each (λ kv, tree_set host (fst kv) (snd kv)) xs t
       ∧ ∀ t', for_each (λ kv, tree_insert host (fst kv) (snd kv)) xs t
               = Ok tt t' → initialized t' = true.
Proof.
  induction xs as [|[k v] xs IH]; intros t Hinit; cbn [for_each fst snd].
  - split; [reflexivity|]. intros t' H. now injection H as <-.
  - unfold mbind, M_bind, bind.
    rewrite (tree_set_is_insert host k v t Hinit).
    destruct (tree_insert host k v t) as [[] t1| | |] eqn:E;
      try (split; [reflexivity | discriminate]).
    assert (Hinit1 : initialized t1 = true).
    { destruct (tree_insert_frame host k v t t1) as [(_ & _ & H & _) _];
        [now rewrite E | now apply H]. }
    apply IH. exact Hinit1.
Qed.

Lemma for_each_remove_is_delete (host : nat → N * string) (xs : list string) :
  ∀ t, initialized t = true →
       for_each tree_remove xs t = for_each (tree_delete host) xs t.
Proof.
  induction xs as [|k xs IH]; intros t Hinit; cbn [for_each];
    [reflexivity|].
  unfold mbind, M_bind, bind.
  rewrite (tree_delete_is_remove host k t Hinit).
  destruct (tree_remove k t) as [[] t1| | |] eqn:E; try reflexivity.
  apply IH.
  destruct (tree_remove_frame k t t1) as [(_ & _ & H & _) _];
    [now rewrite E | now apply H].
Qed.

(** A batch [write] is the initialization check followed by the single
    [set]s in order and then the single [delete]s in order: it is not
    atomic, and a call that throws has applied everything before it. *)
Theorem write_is_sets_then_deletes (host : nat → N * string)
    (sets : list (string * string)) (dels : list string) (t : Tree) :
  tree_write host sets dels t
  = (ensure_init;;
     for_each (λ kv, tree_set host (fst kv) (snd kv)) sets;;
     for_each (tree_delete host) dels) t.
Proof.
  unfold tree_write, mbind, M_bind, bind.
  destruct (ensure_init t) as [[] t1| | |] eqn:E; try reflexivity.
  pose proof (ensure_init_sets_flag t t1 E) as Hinit.
  destruct (for_each_insert_is_set host sets t1 Hinit) as [Heq Hflag].
  rewrite <- Heq.
  destruct (for_each _ sets t1) as [[] t2| | |] eqn:E2; try reflexivity.
  apply for_each_remove_is_delete. now apply Hflag.
Qed.

(** ** The in-memory database's [list] *)

Lemma filter_suffix {A} (f : A → bool) (data : list A) (c : nat) :
  (c ≤ length data)%nat →
  (∀ j x, (j < c)%nat → data !! j = Some x → f x = false) →
  (∀ j x, (c ≤ j)%nat → data !! j = Some x → f x = true) →
  List.filter f data = drop c data.
Proof.
  revert c. induction data as [|x data IH]; intros c Hc Hlow Hhigh.
  - now rewrite drop_nil.
  - destruct c as [|c]; cbn [List.filter].
    + rewrite (Hhigh 0%nat x) by (lia || reflexivity). rewrite drop_0. f_equal.
      rewrite (IH 0%nat); [now rewrite drop_0 | lia | intros; lia |].
      intros j y _ Hy. apply (Hhigh (S j)); [lia | exact Hy].
    + rewrite (Hlow 0%nat x) by (lia || reflexivity). cbn [drop].
      apply IH; [cbn in Hc; lia | |].
      * intros j y Hj Hy. apply (Hlow (S j)); [lia | exact Hy].
      * intros j y Hj Hy. apply (Hhigh (S j)); [lia | exact Hy].
Qed.

Lemma filter_prefix {A} (f : A → bool) (data : list A) (c : nat) :
  (∀ j x, (j < c)%nat → data !! j = Some x → f x = true) →
  (∀ j x, (c ≤ j)%nat → data !! j = Some x → f x = false) →
  List.filter f data = take c data.
Proof.
  revert c. induction data as [|x data IH]; intros c Hlow Hhigh.
  - now rewrite take_nil.
  - destruct c as [|c]; cbn [List.filter take].
    + rewrite (Hhigh 0%nat x) by (lia || reflexivity).
      rewrite (IH 0%nat); [reflexivity | intros; lia |].
      intros j y _ Hy. apply (Hhigh (S j)); [lia | exact Hy].
    + rewrite (Hlow 0%nat x) by (lia || reflexivity). f_equal.
      apply IH.
      * intros j y Hj Hy. apply (Hlow (S j)); [lia | exact Hy].
      * intros j y Hj Hy. apply (Hhigh (S j)); [lia | exact Hy].
Qed.

Section DatabaseRange.

Variable compareKey : string → string → Z.
Variable search : list (string * string) → string → search_result.
Variable data : list (string * string).
Variable args : ListArgs.

Hypothesis valid : db_bounds_valid compareKey args.
Hypothesis search_start :
  ∀ s, first_defined (arg_gt args) (arg_gte args) = Some s →
       search_finds compareKey data s (search data s).
Hypothesis search_end :
  ∀ e, first_defined (arg_lt args) (arg_lte args) = Some e →
       search_finds compareKey data e (search data e).

(** The start index [list] computes cuts the data where the lower bound
    starts to hold. *)
Lemma db_start_index :
  let startIndex :=
    match first_defined (arg_gt args) (arg_gte args) with
    | Some s =>
        match search data s with
        | found i => if bool_decide (is_Some (arg_gt args)) then S i else i
        | closest i => i
        end
    | None => 0%nat
    end in
  (startIndex ≤ length data)%nat
  ∧ (∀ j kv, (j < startIndex)%nat → data !! j = Some kv →
             db_above compareKey args (fst kv) = false)
  ∧ (∀ j kv, (startIndex ≤ j)%nat → data !! j = Some kv →
             db_above compareKey args (fst kv) = true).
Proof.
  destruct valid as (Hlow & _ & _). unfold db_above.
  destruct (arg_gt args) as [g|] eqn:Hg.
  - destruct (arg_gte args) as [ge|]; [exfalso; apply Hlow; eauto|].
    cbn [first_defined]. specialize (search_start g).
    rewrite ?Hg in search_start. cbn [first_defined] in search_start.
    specialize (search_start eq_refl).
    rewrite bool_decide_eq_true_2 by eauto.
    destruct (search data g) as [i|i]; cbn [search_finds] in search_start.
    + destruct search_start as ((kv0 & Hkv0 & Heq) & Hbefore & Hafter).
      pose proof (lookup_lt_Some _ _ _ Hkv0). split; [lia|].
      split; intros j kv Hj Hkv.
      * destruct (Nat.eq_dec j i) as [->|Hne].
        -- replace kv with kv0 by congruence. rewrite Heq. reflexivity.
        -- pose proof (Hbefore j kv ltac:(lia) Hkv). lia.
      * pose proof (Hafter j kv ltac:(lia) Hkv). lia.
    + destruct search_start as (Hle & Hbefore & Hafter). split; [exact Hle|].
      split; intros j kv Hj Hkv.
      * pose proof (Hbefore j kv Hj Hkv). lia.
      * pose proof (Hafter j kv Hj Hkv). lia.
  - destruct (arg_gte args) as [ge|] eqn:Hge; cbn [first_defined].
    + specialize (search_start ge). rewrite ?Hg, ?Hge in search_start.
      cbn [first_defined] in search_start.
      specialize (search_start eq_refl).
      rewrite bool_decide_eq_false_2 by (intros [? ?]; discriminate).
      destruct (search data ge) as [i|i]; cbn [search_finds] in search_start.
      * destruct search_start as ((kv0 & Hkv0 & Heq) & Hbefore & Hafter).
        pose proof (lookup_lt_Some _ _ _ Hkv0). split; [lia|].
        split; intros j kv Hj Hkv.
        -- pose proof (Hbefore j kv Hj Hkv). lia.
        -- destruct (Nat.eq_dec j i) as [->|Hne].
           ++ replace kv with kv0 by congruence. rewrite Heq. reflexivity.
           ++ pose proof (Hafter j kv ltac:(lia) Hkv). lia.
      * destruct search_start as (Hle & Hbefore & Hafter). split; [exact Hle|].
        split; intros j kv Hj Hkv.
        -- pose proof (Hbefore j kv Hj Hkv). lia.
        -- pose proof (Hafter j kv Hj Hkv). lia.
    + split; [lia|]. split; [intros; lia | reflexivity].
Qed.

Lemma db_end_index :
  let endIndex :=
    match first_defined (arg_lt args) (arg_lte args) with
    | Some e =>
        match search data e with
        | found i => if bool_decide (is_Some (arg_lt args)) then i else S i
        | closest i => i
        end
    | None => length data
    end in
  (∀ j kv, (j < endIndex)%nat → data !! j = Some kv →
           db_below compareKey args (fst kv) = true)
  ∧ (∀ j kv, (endIndex ≤ j)%nat → data !! j = Some kv →
             db_below compareKey args (fst kv) = false).
Proof.
  destruct valid as (_ & Hup & _). unfold db_below.
  destruct (arg_lt args) as [l|] eqn:Hl.
  - destruct (arg_lte args) as [le|]; [exfalso; apply Hup; eauto|].
    cbn [first_defined]. specialize (search_end l).
    rewrite ?Hl in search_end. cbn [first_defined] in search_end.
    specialize (search_end eq_refl).
    rewrite bool_decide_eq_true_2 by eauto.
    destruct (search data l) as [i|i]; cbn [search_finds] in search_end.
    + destruct search_end as ((kv0 & Hkv0 & Heq) & Hbefore & Hafter).
      split; intros j kv Hj Hkv.
      * pose proof (Hbefore j kv Hj Hkv). lia.
      * destruct (Nat.eq_dec j i) as [->|Hne].
        -- replace kv with kv0 by congruence. rewrite Heq. reflexivity.
        -- pose proof (Hafter j kv ltac:(lia) Hkv). lia.
    + destruct search_end as (Hle & Hbefore & Hafter).
      split; intros j kv Hj Hkv.
      * pose proof (Hbefore j kv Hj Hkv). lia.
      * pose proof (Hafter j kv Hj Hkv). lia.
  - destruct (arg_lte args) as [le|] eqn:Hle; cbn [first_defined].
    + specialize (search_end le). rewrite ?Hl, ?Hle in search_end.
      cbn [first_defined] in search_end.
      specialize (search_end eq_refl).
      rewrite bool_decide_eq_false_2 by (intros [? ?]; discriminate).
      destruct (search data le) as [i|i]; cbn [search_finds] in search_end.
      * destruct search_end as ((kv0 & Hkv0 & Heq) & Hbefore & Hafter).
        split; intros j kv Hj Hkv.
        -- destruct (Nat.eq_dec j i) as [->|Hne].
           ++ replace kv with kv0 by congruence. rewrite Heq. reflexivity.
           ++ pose proof (Hbefore j kv ltac:(lia) Hkv). lia.
        -- pose proof (Hafter j kv ltac:(lia) Hkv). lia.
      * destruct search_end as (Hle' & Hbefore & Hafter).
        split; intros j kv Hj Hkv.
        -- pose proof (Hbefore j kv Hj Hkv). lia.
        -- pose proof (Hafter j kv Hj Hkv). lia.
    + split; [reflexivity|]. intros j kv Hj Hkv.
      apply lookup_lt_Some in Hkv. lia.
Qed.

End DatabaseRange.

(** On data sorted by the comparator, with bounds that do not contradict
    each other and a search that answers as a binary search does,
    [InMemoryDatabase.list] without [limit], [offset] and [reverse] returns
    exactly the entries whose keys pass both bounds, in data order. *)
Theorem db_list_range (compareKey : string → string → Z)
    (search : list (string * string) → string → search_result)
    (data : list (string * string)) (args : ListArgs) :
  db_bounds_valid compareKey args →
  (∀ s, first_defined (arg_gt args) (arg_gte args) = Some s →
        search_finds compareKey data s (search data s)) →
  (∀ e, first_defined (arg_lt args) (arg_lte args) = Some e →
        search_finds compareKey data e (search data e)) →
  arg_limit args = None → arg_offset args = None → arg_reverse args = None →
  db_list compareKey search data args
  = DbList (List.filter
              (λ kv, db_above compareKey args (fst kv)
                     && db_below compareKey args (fst kv)) data).
Proof.
  intros Hvalid Hstart Hend Hlim Hoff Hrev.
  pose proof (db_start_index compareKey search data args Hvalid Hstart)
    as (Hs & Hs1 & Hs2).
  pose proof (db_end_index compareKey search data args Hvalid Hend)
    as (He1 & He2).
  destruct Hvalid as (Hlow & Hup & Hcmp).
  unfold db_list. rewrite Hlim, Hoff, Hrev.
  assert (H1 : bool_decide (is_Some (arg_gt args))
               && bool_decide (is_Some (arg_gte args)) = false).
  { apply andb_false_iff.
    destruct (arg_gt args), (arg_gte args);
      try (exfalso; apply Hlow; eauto; fail);
      try (left; apply bool_decide_eq_false_2; intros [? ?]; discriminate);
      right; apply bool_decide_eq_false_2; intros [? ?]; discriminate. }
  assert (H2 : bool_decide (is_Some (arg_lt args))
               && bool_decide (is_Some (arg_lte args)) = false).
  { apply andb_false_iff.
    destruct (arg_lt args), (arg_lte args);
      try (exfalso; apply Hup; eauto; fail);
      try (left; apply bool_decide_eq_false_2; intros [? ?]; discriminate);
      right; apply bool_decide_eq_false_2; intros [? ?]; discriminate. }
  rewrite H1, H2.
  assert (H3 : match first_defined (arg_gt args) (arg_gte args),
                     first_defined (arg_lt args) (arg_lte args) with
               | Some s, Some e =>
                   (compareKey s e >? 0)
                   || ((compareKey s e =? 0)
                       && (bool_decide (is_Some (arg_gt args))
                           || bool_decide (is_Some (arg_lt args))))
               | _, _ => false
               end = false).
  { destruct (first_defined (arg_gt args) (arg_gte args)) as [s|];
      [|reflexivity].
    destruct (first_defined (arg_lt args) (arg_lte args)) as [e|];
      [|reflexivity].
    destruct (Hcmp s e eq_refl eq_refl) as [Hlt|(Heq & Hg & Hl)].
    - replace (compareKey s e >? 0) with false by (symmetry; lia).
      replace (compareKey s e =? 0) with false by (symmetry; lia).
      reflexivity.
    - rewrite Heq, Hg, Hl. cbn [Z.gtb Z.eqb Z.compare orb andb].
      rewrite bool_decide_eq_false_2 by (intros [? ?]; discriminate).
      reflexivity. }
  rewrite H3.
  destruct (Nat.eqb_spec (length data) 0) as [Hnil|_].
  { destruct data; [reflexivity | discriminate]. }
  f_equal. rewrite filter_andb.
  rewrite (filter_suffix _ data _ Hs Hs1 Hs2).
  symmetry. apply filter_prefix.
  - intros j x Hj Hx. rewrite lookup_drop in Hx.
    eapply He1; [|exact Hx]. lia.
  - intros j x Hj Hx. rewrite lookup_drop in Hx.
    eapply He2; [|exact Hx]. lia.
Qed.

Lemma compare_strings_lt (a b : string) :
  String.ltb a b = true → compare_strings a b < 0 ∧ compare_strings b a > 0.
Proof.
  unfold String.ltb, compare_strings. rewrite (String.compare_antisym b a).
  destruct (String.compare a b); cbn; intros H; try discriminate; lia.
Qed.

(** The search from the left meets what the class relies on, for data
    sorted on code units. *)
Lemma scan_search_from_finds (data : list (string * string)) (k : string) :
  ∀ i, ascending (map fst data) →
       ∃ q, search_finds compare_strings data k
              match scan_search_from i data k with
              | found _ => found q
              | closest _ => closest q
              end
            ∧ scan_search_from i data k
              = match scan_search_from i data k with
                | found _ => found (i + q)
                | closest _ => closest (i + q)
                end.
Proof.
  induction data as [|[k' v'] data IH]; intros i Hasc.
  - exists 0%nat. cbn. rewrite Nat.add_0_r. split; [|reflexivity].
    split; [lia|]. split; intros j kv Hj Hkv; discriminate.
  - rewrite map_cons in Hasc. apply ascending_cons in Hasc as [Hasc Hhead].
    cbn [fst] in Hhead.
    assert (Hlater : ∀ j kv, ((k', v') :: data) !! S j = Some kv →
                             String.ltb k' (fst kv) = true).
    { intros j kv Hkv. apply Hhead. apply list_elem_of_In.
      apply in_map. apply list_elem_of_In.
      apply list_elem_of_lookup. exists j. exact Hkv. }
    cbn [scan_search_from]. destruct (String.compare k' k) eqn:E.
    + apply String.compare_eq_iff in E. subst k'.
      exists 0%nat. rewrite Nat.add_0_r. split; [|reflexivity].
      split; [|split].
      * exists (k, v'). split; [reflexivity|]. cbn [fst].
        unfold compare_strings.
        assert (Hrefl : String.compare k k = Eq)
          by now apply OrderedTypeEx.String_as_OT.cmp_eq.
        now rewrite Hrefl.
      * intros j kv Hj. lia.
      * intros [|j] kv Hj Hkv; [lia|].
        now apply compare_strings_lt, Hlater with (j := j).
    + assert (Hk : String.ltb k' k = true) by (unfold String.ltb; now rewrite E).
      destruct (IH (S i) Hasc) as (q & Hfinds & Heq).
      exists (S q). split.
      * destruct (scan_search_from (S i) data k) as [p|p];
          cbn [search_finds] in *.
        -- destruct Hfinds as ((kv0 & Hkv0 & Hz) & Hbefore & Hafter).
           split; [exists kv0; now split|].
           split.
           ++ intros [|j] kv Hj Hkv; cbn in Hkv.
              ** injection Hkv as <-. now apply compare_strings_lt.
              ** apply (Hbefore j); [lia | exact Hkv].
           ++ intros [|j] kv Hj Hkv; [lia|]. cbn in Hkv.
              apply (Hafter j); [lia | exact Hkv].
        -- destruct Hfinds as (Hle & Hbefore & Hafter).
           split; [cbn; lia|]. split.
           ++ intros [|j] kv Hj Hkv; cbn in Hkv.
              ** injection Hkv as <-. now apply compare_strings_lt.
              ** apply (Hbefore j); [lia | exact Hkv].
           ++ intros [|j] kv Hj Hkv; [lia|]. cbn in Hkv.
              apply (Hafter j); [lia | exact Hkv].
      * rewrite Heq.
        destruct (scan_search_from (S i) data k); f_equal; lia.
    + assert (Hk : String.ltb k k' = true).
      { unfold String.ltb. rewrite (String.compare_antisym k k'), E.
        reflexivity. }
      exists 0%nat. rewrite Nat.add_0_r. split; [|reflexivity].
      split; [cbn; lia|]. split; [intros j kv Hj; lia|].
      intros [|j] kv _ Hkv.
      * cbn in Hkv. injection Hkv as <-. now apply compare_strings_lt.
      * apply compare_strings_lt. eapply str_lt_trans; [exact Hk|].
        now apply Hlater with (j := j).
Qed.

Lemma scan_search_finds (data : list (string * string)) (k : string) :
  ascending (map fst data) →
  search_finds compare_strings data k (scan_search data k).
Proof.
  intros Hasc. unfold scan_search.
  destruct (scan_search_from_finds data k 0 Hasc) as (q & Hfinds & Heq).
  rewrite Heq. now destruct (scan_search_from 0 data k).
Qed.

(** The theorem applies to three sorted entries and [{ gte: "b", lt: "c" }]
    with the order on code units. *)
Lemma db_list_range_witness :
  let data := [("a", "1"); ("b", "2"); ("c", "3")] in
  let args := mkArgs None (Some "b") (Some "c") None None None None in
  db_bounds_valid compare_strings args
  ∧ (∀ s, first_defined (arg_gt args) (arg_gte args) = Some s →
          search_finds compare_strings data s (scan_search data s))
  ∧ (∀ e, first_defined (arg_lt args) (arg_lte args) = Some e →
          search_finds compare_strings data e (scan_search data e))
  ∧ db_list compare_strings scan_search data args = DbList [("b", "2")].
Proof.
  intros data args.
  assert (Hasc : ascending (map fst data))
    by (apply strictly_ascending_ascending; reflexivity).
  assert (H1 : db_bounds_valid compare_strings args).
  { split; [intros [[? H] _]; discriminate H|].
    split; [intros [_ [? H]]; discriminate H|].
    intros s e Hs He. injection Hs as <-. injection He as <-.
    left. reflexivity. }
  assert (H2 : ∀ s, first_defined (arg_gt args) (arg_gte args) = Some s →
                    search_finds compare_strings data s (scan_search data s))
    by (intros s _; now apply scan_search_finds).
  assert (H3 : ∀ e, first_defined (arg_lt args) (arg_lte args) = Some e →
                    search_finds compare_strings data e (scan_search data e))
    by (intros e _; now apply scan_search_finds).
  split; [exact H1|]. split; [exact H2|]. split; [exact H3|].
  exact (db_list_range compare_strings scan_search data args H1 H2 H3
           eq_refl eq_refl eq_refl).
Defined.

(** Instances of the three cases of the bounds check: a same-side pair
    throws, and a start after the end answers the empty sequence. *)
Lemma db_list_bounds_witness :
  let data := [("a", "1"); ("b", "2"); ("c", "3")] in
  db_list compare_strings scan_search data
    (mkArgs (Some "a") (Some "a") None None None None None)
  = DbError "Invalid bounds: {gt, gte}"
  ∧ db_list compare_strings scan_search data
      (mkArgs None None (Some "c") (Some "c") None None None)
    = DbError "Invalid bounds: {lt, lte}"
  ∧ db_list compare_strings scan_search data
      (mkArgs (Some "c") None (Some "a") None None None None)
    = DbList [].
Proof.
  intros data.
  pose proof (db_list_bounds compare_strings scan_search data
                (mkArgs (Some "a") (Some "a") None None None None None))
    as (H1 & _).
  pose proof (db_list_bounds compare_strings scan_search data
                (mkArgs None None (Some "c") (Some "c") None None None))
    as (_ & H2 & _).
  pose proof (db_list_bounds compare_strings scan_search data
                (mkArgs (Some "c") None (Some "a") None None None None))
    as (_ & _ & H3).
  split; [apply H1; cbn; eauto|].
  split; [apply H2; cbn; eauto; intros [[? H] _]; discriminate H|].
  apply (H3 "c" "a"); try reflexivity.
  - intros [_ [? H]]; discriminate H.
  - intros [_ [? H]]; discriminate H.
  - left. reflexivity.
Defined.

(** Without bounds, [InMemoryDatabase.list] reverses first when asked,
    then drops [offset] entries, and then cuts what is left to
    [limit - offset] entries: with [0 <= offset <= limit] it returns the
    entries at positions [offset .. limit - 1] of the (reversed) data, so
    [limit] acts as an end position and not as a count. *)
Theorem db_list_offset_then_limit (compareKey : string → string → Z)
    (search : list (string * string) → string → search_result)
    (data : list (string * string)) (rv : option bool) (o n : Z) :
  0 ≤ o ≤ n → 0 < n →
  db_list compareKey search data
    (mkArgs None None None None (Some n) (Some o) rv)
  = DbList (take (Z.to_nat (n - o))
              (drop (Z.to_nat o)
                 match rv with
                 | Some true => rev data
                 | _ => data
                 end)).
Proof.
  intros Ho Hn. unfold db_list.
  cbn [arg_gt arg_gte arg_lt arg_lte arg_limit arg_offset arg_reverse
       first_defined from_option id].
  rewrite !bool_decide_eq_false_2 by (intros [? ?]; discriminate).
  cbn [andb].
  destruct (Nat.eqb_spec (length data) 0) as [Hnil|_].
  { destruct data; [|discriminate]. cbn.
    destruct rv as [[]|]; cbn; now rewrite drop_nil, take_nil. }
  f_equal. rewrite Nat.sub_0_r, drop_0, firstn_all.
  set (result1 := match rv with Some true => rev data | _ => data end).
  assert (Hdrop : (if o =? 0 then result1 else drop (Z.to_nat o) result1)
                  = drop (Z.to_nat o) result1).
  { destruct (Z.eqb_spec o 0) as [->|]; [now rewrite drop_0 | reflexivity]. }
  rewrite Hdrop. destruct (Z.eqb_spec n 0); [lia|].
  unfold splice_pos, len. destruct (Z.ltb_spec (n - o) 0); [lia|].
  set (l := drop (Z.to_nat o) result1).
  destruct (Z.min_spec (n - o) (Z.of_nat (length l))) as [[Hlt ->]|[Hge ->]].
  - reflexivity.
  - rewrite Nat2Z.id. rewrite firstn_all. symmetry. apply firstn_all2. lia.
Qed.

(** The theorem applies to five entries with [{ offset: 1, limit: 3 }],
    which returns two entries. *)
Lemma db_list_offset_then_limit_witness :
  let data := [("a", "1"); ("b", "2"); ("c", "3"); ("d", "4"); ("e", "5")] in
  0 ≤ 1 ≤ 3 ∧ 0 < 3
  ∧ db_list compare_strings scan_search data
      (mkArgs None None None None (Some 3) (Some 1) None)
    = DbList [("b", "2"); ("c", "3")].
Proof.
  intros data.
  assert (H1 : 0 ≤ 1 ≤ 3) by lia. assert (H2 : 0 < 3) by lia.
  split; [exact H1|]. split; [exact H2|].
  exact (db_list_offset_then_limit compare_strings scan_search data None 1 3
           H1 H2).
Defined.

(** ** A delete that underfills a leaf *)

Lemma two_leaves_findNodePath (t : Tree) (sk l r : string)
    (m1 m2 : list (string * string)) (k : string) :
  two_leaves t sk l r m1 m2 →
  findNodePath t k
  = Some [mkPath (Some (rootId t)) (if String.leb sk k then 1 else 0);
          mkPath (Some (if String.leb sk k then r else l)) (-1)].
Proof.
  intros (_ & Hh & Hl & Hr & _ & _ & _ & Hroot & _).
  unfold findNodePath. rewrite Hh. change (Z.to_nat 1) with 1%nat.
  cbn [findNodePath_loop]. unfold descend. rewrite Hroot.
  cbn [keys children internal mbind option_bind].
  rewrite findChildIndex_singleton.
  destruct (String.leb sk k); cbn [lookup list_lookup last app];
    unfold or_else; now rewrite truthy_nonempty.
Qed.


Lemma parentId_of_root_entry (root : string) (idx : Z) :
  parentId_of [mkPath (Some root) idx] root = root.
Proof. unfold parentId_of. cbn [last path_id]. now destruct (truthy _). Qed.




(** ** The second split *)

(** In a two-leaf tree with [maxInternalSize >= 2], a [set] of a new key
    that overfills the right leaf returns normally; the leaf is split, but
    the parent is updated at the position recorded for the leaf, which is
    [-1]: the new separator goes before the last key of the root and the
    new leaf becomes its first child.  The left leaf's record is untouched,
    yet [get] no longer finds any of its keys. *)
Theorem second_split_loses_left_leaf (host : nat → N * string) (t : Tree)
    (sk l r : string) (m1 m2 : list (string * string)) (k v : string) :
  two_leaves t sk l r m1 m2 →
  String.leb sk k = true →
  k ∉ map fst m2 →
  maxLeafSize t ≤ len m2 →
  2 ≤ maxInternalSize t →
  let n := LEAF_PREFIX +:+ fresh_suffix host (ticks t) in
  n ≠ l → n ≠ r → n ≠ rootId t →
  ∃ t' nsk,
    tree_set host k v t = Ok tt t'
    ∧ height t' = 1
    ∧ parse_node (store t') (Some (rootId t')) = internal [nsk; sk] [n; l; r]
    ∧ parse_node (store t') (Some l) = parse_node (store t) (Some l)
    ∧ ∀ k', k' ∈ map fst m1 → tree_get k' t' = Ok None t'.
Proof.
  intros Htwo E Hnew Hfull Hint n Hnl Hnr Hnroot.
  pose proof (two_leaves_findNodePath t sk l r m1 m2 k Htwo) as Hpath.
  pose proof Htwo as (Hinit & Hh & Hlne & Hrne & Hlr & Hrootl & Hrootr
                      & Hroot & Hleft & Hright & Hasc & Hlow & Hhigh).
  rewrite E in Hpath.
  rewrite map_app in Hasc. destruct (ascending_app _ _ Hasc) as [_ Hasc2].
  destruct (leaf_insert_pure m2 k v Hasc2) as [Hasc' Hpure].
  set (m2' := ref_set k v m2) in *.
  destruct Hpure as [(Hcond & _)|(Hcond & Hk & Hv & Hlen & _)].
  { exfalso. apply andb_true_iff in Hcond as [_ Hc].
    apply bool_decide_eq_true in Hc. apply Hnew.
    apply list_elem_of_lookup. eauto. }
  set (mid := floor_half (length m2')).
  assert (Hmid : (mid < length m2')%nat).
  { unfold mid, floor_half. unfold len in Hlen.
    assert (0 < length m2')%nat by lia. apply Nat.div_lt; lia. }
  destruct (lookup_lt_is_Some_2 (map fst m2') mid) as [nsk Hnsk];
    [now rewrite length_map|].
  assert (Hhead : head (drop mid (map fst m2')) = Some nsk).
  { rewrite <- Hnsk. rewrite <- (Nat.add_0_r mid) at 2.
    rewrite <- lookup_drop. now destruct (drop mid (map fst m2')). }
  assert (Hnsk_high : String.leb sk nsk = true).
  { assert (Hin : nsk ∈ map fst m2')
      by (apply list_elem_of_lookup; eauto).
    apply elem_of_ref_set in Hin as [->|Hin]; [exact E | now apply Hhigh]. }
  eexists _, nsk. split.
  { rewrite tree_set_is_insert by exact Hinit.
    unfold tree_insert. run_monad. rewrite Hh. cbn [Z.eqb].
    rewrite Hpath. cbn beta iota. cbn [last]. cbn beta iota delta [path_id].
    rewrite Hright. cbn beta iota delta [keys values leaf].
    rewrite Hcond. cbn beta iota. rewrite Hk, Hv.
    assert (Hover : (len (map fst m2') >? maxLeafSize t) = true).
    { unfold len in *. rewrite length_map. lia. }
    rewrite Hover.
    change (with_values (with_keys (leaf (map fst m2) (map snd m2) None)
                           (map fst m2')) (map snd m2'))
      with (leaf (map fst m2') (map snd m2') None).
    unfold splitLeafNode. run_monad.
    cbn beta iota delta [keys values next leaf length Nat.eqb].
    rewrite length_map. fold mid. rewrite Hhead. cbn beta iota.
    unfold updateParentAfterSplit. run_monad.
    cbn [removelast last path_index].
    cbn [rootId set_store tick store write_sets write_deletes foldl fst snd
         maxInternalSize].
    rewrite parentId_of_root_entry. fold n.
    assert (Hparent : ∀ a b,
               parse_node (<[n := a]> (<[r := b]> (store t)))
                 (Some (rootId t))
               = internal [sk] [l; r]).
    { intros a b. rewrite <- Hroot. unfold parse_node.
      now rewrite !lookup_insert_ne by congruence. }
    rewrite !Hparent. cbn beta iota delta [keys children internal].
    change (splice_insert (-1) nsk [sk]) with [nsk; sk].
    change (splice_insert (-1 + 1) n [l; r]) with [n; l; r].
    assert (Hfit : (len [nsk; sk] >? maxInternalSize t) = false).
    { change (len [nsk; sk]) with 2. lia. }
    rewrite Hfit.
    change (with_children (with_keys (internal [sk] [l; r]) [nsk; sk])
              [n; l; r])
      with (internal [nsk; sk] [n; l; r]).
    reflexivity. }
  match goal with |- height ?s = 1 ∧ _ => set (t' := s) end.
  assert (Hroot' : parse_node (store t') (Some (rootId t'))
                   = internal [nsk; sk] [n; l; r]).
  { unfold t', parse_node.
    cbn [store rootId set_store tick write_sets write_deletes foldl fst snd].
    now rewrite lookup_insert_eq. }
  assert (Hleft' : parse_node (store t') (Some l)
                   = parse_node (store t) (Some l)).
  { unfold t', parse_node.
    cbn [store rootId set_store tick write_sets write_deletes foldl fst snd].
    now rewrite !lookup_insert_ne by congruence. }
  assert (Hnew' : parse_node (store t') (Some n)
                  = leaf (map fst (drop mid m2')) (map snd (drop mid m2'))
                         None).
  { unfold t', parse_node.
    cbn [store rootId set_store tick write_sets write_deletes foldl fst snd].
    rewrite lookup_insert_ne by congruence. rewrite lookup_insert_eq.
    now rewrite !skipn_map. }
  split; [exact Hh|]. split; [exact Hroot'|]. split; [exact Hleft'|].
  intros k' Hk'.
  assert (Hbelow : String.ltb k' sk = true) by now apply Hlow.
  assert (Hk'n : String.leb nsk k' = false).
  { destruct (String.leb nsk k') eqn:En; [|reflexivity].
    pose proof (str_lt_le_trans _ _ _ Hbelow
                  (str_le_trans _ _ _ Hnsk_high En)) as Hc.
    rewrite str_lt_irrefl in Hc. discriminate. }
  assert (Hk's : String.leb sk k' = false).
  { destruct (String.leb sk k') eqn:Es; [|reflexivity].
    pose proof (str_lt_le_trans _ _ _ Hbelow Es) as Hc.
    rewrite str_lt_irrefl in Hc. discriminate. }
  assert (Hfind : findLeaf t' k' = Some (Some n)).
  { unfold findLeaf. change (height t') with (height t). rewrite Hh.
    change (Z.to_nat 1) with 1%nat. cbn [findLeaf_loop]. unfold descend.
    rewrite Hroot'. cbn [keys children internal mbind option_bind].
    assert (Hidx : findChildIndex [nsk; sk] k' = 0%nat).
    { unfold findChildIndex. cbn. unfold str_le. now rewrite Hk's, Hk'n. }
    rewrite Hidx. cbn [lookup list_lookup last]. unfold or_else.
    rewrite truthy_nonempty; [reflexivity | discriminate]. }
  rewrite (tree_get_in_leaf t' k' n (drop mid m2') None Hinit Hfind Hnew').
  f_equal. apply ref_get_absent. intros Hin.
  rewrite <- skipn_map in Hin. apply elem_of_drop in Hin as (i & Hi & Hin).
  assert (Hge : String.leb nsk k' = true).
  { destruct (Nat.eq_dec i mid) as [->|Hne].
    - replace k' with nsk by congruence. apply str_le_refl.
    - apply str_lt_le. apply (Hasc' mid i); [lia | exact Hnsk | exact Hin]. }
  congruence.
Qed.

Lemma full_right_tree_reached :
  tree_set example_host "f" "f" split_tree = Ok tt full_right_tree.
Proof. vm_compute. reflexivity. Qed.

Lemma full_right_tree_two_leaves :
  two_leaves full_right_tree "c" "00root"
    (LEAF_PREFIX +:+ fresh_suffix example_host 0)
    [("a", "a"); ("b", "b")]
    [("c", "c"); ("d", "d"); ("e", "e"); ("f", "f")].
Proof.
  split; [reflexivity|]. split; [reflexivity|].
  split; [discriminate|]. split; [discriminate|].
  split; [discriminate|]. split; [discriminate|]. split; [discriminate|].
  split; [vm_compute; reflexivity|]. split; [vm_compute; reflexivity|].
  split; [vm_compute; reflexivity|].
  split; [apply strictly_ascending_ascending; reflexivity|].
  split; apply forallb_elem_of; reflexivity.
Qed.

(** The theorem applies to the two-leaf tree with the full right leaf
    "c", "d", "e", "f" and [set("g", "g")]: afterwards "a" and "b" are
    not found. *)
Lemma second_split_loses_left_leaf_witness :
  let t := full_right_tree in
  let right := LEAF_PREFIX +:+ fresh_suffix example_host 0 in
  let m1 := [("a", "a"); ("b", "b")] in
  let m2 := [("c", "c"); ("d", "d"); ("e", "e"); ("f", "f")] in
  let n := LEAF_PREFIX +:+ fresh_suffix example_host (ticks t) in
  two_leaves t "c" "00root" right m1 m2
  ∧ String.leb "c" "g" = true
  ∧ ("g" ∉ map fst m2)
  ∧ maxLeafSize t ≤ len m2
  ∧ 2 ≤ maxInternalSize t
  ∧ n ≠ "00root" ∧ n ≠ right ∧ n ≠ rootId t
  ∧ (∃ t' nsk,
       tree_set example_host "g" "g" t = Ok tt t'
       ∧ height t' = 1
       ∧ parse_node (store t') (Some (rootId t'))
         = internal [nsk; "c"] [n; "00root"; right]
       ∧ parse_node (store t') (Some "00root")
         = parse_node (store t) (Some "00root")
       ∧ ∀ k', k' ∈ map fst m1 → tree_get k' t' = Ok None t').
Proof.
  intros t right m1 m2 n.
  assert (H2 : String.leb "c" "g" = true) by reflexivity.
  assert (H3 : "g" ∉ map fst m2)
    by (apply indexOf_absent; vm_compute; reflexivity).
  assert (H4 : maxLeafSize t ≤ len m2) by (vm_compute; discriminate).
  assert (H5 : 2 ≤ maxInternalSize t) by (vm_compute; discriminate).
  assert (H6 : n ≠ "00root") by discriminate.
  assert (H7 : n ≠ right) by discriminate.
  assert (H8 : n ≠ rootId t) by discriminate.
  split; [exact full_right_tree_two_leaves|]. split; [exact H2|].
  split; [exact H3|]. split; [exact H4|]. split; [exact H5|].
  split; [exact H6|]. split; [exact H7|]. split; [exact H8|].
  exact (second_split_loses_left_leaf example_host t "c" "00root" right m1 m2
           "g" "g" full_right_tree_two_leaves H2 H3 H4 H5 H6 H7 H8).
Defined.

(** ** What the store keeps for a later object *)

Lemma node_id_leaf (x : string) : node_id (LEAF_PREFIX +:+ x).
Proof. intros H. discriminate H. Qed.

Lemma node_id_internal (x : string) : node_id (INTERNAL_PREFIX +:+ x).
Proof. intros H. discriminate H. Qed.

Lemma opt_id_elim (o : option string) (id : string) :
  opt_id o → o = Some id → node_id id.
Proof. intros H E. now apply H. Qed.

Lemma opt_id_Some (id : string) : node_id id → opt_id (Some id).
Proof. intros H id' E. now injection E as <-. Qed.

Lemma store_ok_insert_node (s : gmap string Stored) (id : string) (n : Node) :
  children_ok n → store_ok s → store_ok (<[id := StoredNode n]> s).
Proof.
  intros Hn Hs id' n' H. destruct (decide (id' = id)) as [->|Hne].
  - rewrite lookup_insert_eq in H. now injection H as <-.
  - rewrite lookup_insert_ne in H by congruence. now apply (Hs id').
Qed.

Lemma store_ok_insert_metadata (s : gmap string Stored) (id r : string)
    (h : Z) :
  store_ok s → store_ok (<[id := StoredMetadata r h]> s).
Proof.
  intros Hs id' n' H. destruct (decide (id' = id)) as [->|Hne].
  - rewrite lookup_insert_eq in H. discriminate H.
  - rewrite lookup_insert_ne in H by congruence. now apply (Hs id').
Qed.

Lemma store_ok_delete (s : gmap string Stored) (id : string) :
  store_ok s → store_ok (delete id s).
Proof.
  intros Hs id' n' H. destruct (decide (id' = id)) as [->|Hne].
  - rewrite lookup_delete_eq in H. discriminate H.
  - rewrite lookup_delete_ne in H by congruence. now apply (Hs id').
Qed.

Lemma children_ok_parse (s : gmap string Stored) (i : option string) :
  store_ok s → children_ok (parse_node s i).
Proof.
  intros Hs. unfold parse_node.
  destruct i as [k|]; [|intros cs H; discriminate H].
  destruct (s !! k) as [[n|]|] eqn:E; try (intros cs H; discriminate H).
  now apply (Hs k).
Qed.

Lemma children_ok_lookup (s : gmap string Stored) (k : string) :
  store_ok s →
  children_ok
    match s !! k with Some (StoredNode n) => n | _ => empty_object end.
Proof. exact (children_ok_parse s (Some k)). Qed.

Lemma children_ok_elim (n : Node) (cs : list string) :
  children_ok n → children n = Some cs → Forall node_id cs.
Proof. intros H E. now apply H. Qed.

Lemma children_ok_with_keys (n : Node) (ks : list string) :
  children_ok n → children_ok (with_keys n ks).
Proof. intros H. exact H. Qed.

Lemma children_ok_with_values (n : Node) (vs : list string) :
  children_ok n → children_ok (with_values n vs).
Proof. intros H. exact H. Qed.

Lemma children_ok_with_next (n : Node) (nx : option string) :
  children_ok n → children_ok (with_next n nx).
Proof. intros H. exact H. Qed.

Lemma children_ok_with_children (n : Node) (cs : list string) :
  Forall node_id cs → children_ok (with_children n cs).
Proof. intros H cs' E. now injection E as <-. Qed.

Lemma children_ok_leaf (ks vs : list string) (nx : option string) :
  children_ok (leaf ks vs nx).
Proof. intros cs H. discriminate H. Qed.

Lemma children_ok_internal (ks cs : list string) :
  Forall node_id cs → children_ok (internal ks cs).
Proof. intros H cs' E. now injection E as <-. Qed.

Lemma Forall_splice_insert {A} (P : A → Prop) (i : Z) (x : A) (l : list A) :
  Forall P l → P x → Forall P (splice_insert i x l).
Proof.
  intros Hl Hx. unfold splice_insert. apply Forall_app. split.
  - now apply Forall_take.
  - constructor; [exact Hx | now apply Forall_drop].
Qed.

Lemma Forall_splice_remove {A} (P : A → Prop) (i : Z) (l : list A) :
  Forall P l → Forall P (splice_remove i l).
Proof.
  intros Hl. unfold splice_remove. apply Forall_app. split.
  - now apply Forall_take.
  - now apply Forall_drop.
Qed.

Lemma Forall_removelast {A} (P : A → Prop) (l : list A) :
  Forall P l → Forall P (removelast l).
Proof.
  induction 1 as [|x l Hx Hl IH]; [constructor|].
  cbn [removelast]. destruct l; [constructor|]. now constructor.
Qed.

Lemma Forall_tail_ok {A} (P : A → Prop) (l : list A) :
  Forall P l → Forall P (tail l).
Proof. intros H. destruct H; [constructor | assumption]. Qed.

Lemma Forall_snoc_ok {A} (P : A → Prop) (l : list A) (x : A) :
  Forall P l → P x → Forall P (l ++ [x]).
Proof. intros Hl Hx. apply Forall_app. split; [exact Hl|]. now constructor. Qed.

Lemma Forall_app_ok {A} (P : A → Prop) (l k : list A) :
  Forall P l → Forall P k → Forall P (l ++ k).
Proof. intros Hl Hk. apply Forall_app. now split. Qed.

Lemma Forall_take_ok {A} (P : A → Prop) (n : nat) (l : list A) :
  Forall P l → Forall P (take n l).
Proof. apply Forall_take. Qed.

Lemma Forall_drop_ok {A} (P : A → Prop) (n : nat) (l : list A) :
  Forall P l → Forall P (drop n l).
Proof. apply Forall_drop. Qed.

Lemma Forall_last_ok {A} (P : A → Prop) (l : list A) (x : A) :
  Forall P l → last l = Some x → P x.
Proof.
  intros Hl Hx. rewrite Forall_forall in Hl. apply Hl.
  apply last_Some in Hx as [l' ->]. apply elem_of_app. right.
  apply list_elem_of_here.
Qed.

Lemma Forall_head_ok {A} (P : A → Prop) (l : list A) (x : A) :
  Forall P l → head l = Some x → P x.
Proof.
  intros Hl Hx. destruct Hl as [|y l Hy Hl]; [discriminate Hx|].
  now injection Hx as <-.
Qed.

Lemma Forall_at_index {A} (P : A → Prop) (l : list A) (i : Z) (x : A) :
  Forall P l → at_index l i = Some x → P x.
Proof.
  intros Hl Hx. unfold at_index in Hx. destruct (i <? 0); [discriminate|].
  rewrite Forall_forall in Hl. apply Hl.
  apply list_elem_of_lookup. eauto.
Qed.

Lemma last_id_ok (l : list string) (x : string) :
  Forall node_id l → last l = Some x → node_id x.
Proof. apply Forall_last_ok. Qed.

Lemma head_id_ok (l : list string) (x : string) :
  Forall node_id l → head l = Some x → node_id x.
Proof. apply Forall_head_ok. Qed.

Lemma at_index_id_ok (l : list string) (i : Z) (x : string) :
  Forall node_id l → at_index l i = Some x → node_id x.
Proof. apply Forall_at_index. Qed.

Lemma path_ok_last (p : list NodePath) (e : NodePath) :
  Forall path_ok p → last p = Some e → opt_id (path_id e).
Proof. intros Hp He. exact (Forall_last_ok path_ok p e Hp He). Qed.

Lemma parentId_of_ok (pp : list NodePath) (root : string) :
  Forall path_ok pp → node_id root → node_id (parentId_of pp root).
Proof.
  intros Hpp Hroot. unfold parentId_of.
  destruct (last pp) as [p|] eqn:E; [|exact Hroot].
  destruct (truthy (path_id p)); [|exact Hroot].
  destruct (path_id p) as [id|] eqn:Eid; [|exact Hroot].
  cbn. exact (path_ok_last _ _ Hpp E id Eid).
Qed.

Lemma descend_ok (s : gmap string Stored) (key : string)
    (current : option string) (idx : nat) (child : option string) :
  store_ok s → descend s key current = Some (idx, child) → opt_id child.
Proof.
  intros Hs H id ->. unfold descend in H.
  pose proof (children_ok_parse s current Hs) as Hok.
  destruct (keys (parse_node s current)) as [ks|]; [|discriminate H].
  cbn [mbind option_bind] in H.
  destruct (children (parse_node s current)) as [cs|] eqn:Ecs;
    [|discriminate H].
  cbn [mbind option_bind] in H. injection H as _ H.
  specialize (Hok cs Ecs). rewrite Forall_forall in Hok. apply Hok.
  unfold or_else in H.
  destruct (truthy (cs !! findChildIndex ks key)).
  - apply list_elem_of_lookup. eauto.
  - apply last_Some in H as [l' ->]. apply elem_of_app. right.
    apply list_elem_of_here.
Qed.

Lemma findNodePath_loop_ok (s : gmap string Stored) (key : string) (n : nat) :
  store_ok s →
  ∀ current path p,
    opt_id current →
    Forall path_ok path →
    findNodePath_loop n s key current path = Some p →
    Forall path_ok p.
Proof.
  intros Hs. induction n as [|n IH]; intros current path p Hcur Hpath H;
    cbn [findNodePath_loop] in H.
  - injection H as <-. apply Forall_app. split; [exact Hpath|].
    constructor; [exact Hcur|constructor].
  - destruct (descend s key current) as [[idx child]|] eqn:E;
      [|discriminate H].
    cbn in H. eapply IH; [| |exact H].
    + now apply (descend_ok s key current idx child).
    + apply Forall_app. split; [exact Hpath|].
      constructor; [exact Hcur|constructor].
Qed.

Lemma findNodePath_ok (t : Tree) (key : string) (p : list NodePath) :
  store_ok (store t) → node_id (rootId t) →
  findNodePath t key = Some p → Forall path_ok p.
Proof.
  intros Hs Hroot H. unfold findNodePath in H.
  eapply findNodePath_loop_ok; [exact Hs| |constructor|exact H].
  now apply opt_id_Some.
Qed.

#[local] Hint Resolve node_id_leaf node_id_internal opt_id_Some
  children_ok_parse children_ok_lookup children_ok_with_keys
  children_ok_with_values children_ok_with_next children_ok_with_children
  children_ok_leaf children_ok_internal Forall_splice_insert
  Forall_splice_remove Forall_removelast Forall_tail_ok Forall_snoc_ok
  Forall_app_ok Forall_take_ok Forall_drop_ok parentId_of_ok
  Forall_nil_2 Forall_cons_2 : persist.

#[local] Hint Extern 0 (node_id _) => assumption : persist.
#[local] Hint Extern 0 (opt_id _) => assumption : persist.
#[local] Hint Extern 0 (children_ok _) => assumption : persist.
#[local] Hint Extern 0 (store_ok _) => assumption : persist.
#[local] Hint Extern 0 (Forall _ _) => assumption : persist.

(** Where an identifier in the context came from. *)
#[local] Hint Extern 1 (node_id ?x) =>
  match goal with
  | H : opt_id (Some x) |- _ => exact (H x eq_refl)
  | H : at_index ?l ?i = Some x |- _ => apply (at_index_id_ok l i x); [|exact H]
  | H : last ?l = Some x |- _ => apply (last_id_ok l x); [|exact H]
  | H : head ?l = Some x |- _ => apply (head_id_ok l x); [|exact H]
  | H : path_id ?e = Some x |- _ => apply (opt_id_elim (path_id e) x); [|exact H]
  end : persist.
#[local] Hint Extern 1 (opt_id (path_id ?e)) =>
  match goal with
  | H : last ?p = Some e |- _ => apply (path_ok_last p e); [|exact H]
  end : persist.
#[local] Hint Extern 1 (Forall node_id ?l) =>
  match goal with
  | H : children ?n = Some l |- _ => apply (children_ok_elim n l); [|exact H]
  end : persist.
#[local] Hint Extern 1 (Forall path_ok ?p) =>
  match goal with
  | H : findNodePath ?t ?k = Some p |- _ =>
      apply (findNodePath_ok t k p); [| |exact H]
  end : persist.

(** The node records under a pile of writes and deletes. *)
#[local] Hint Extern 0 (store_ok _) =>
  progress
    (repeat first
       [ apply store_ok_insert_metadata
       | apply store_ok_insert_node
       | apply store_ok_delete ]) : persist.

Lemma splitInternalNode_persistent (host : nat → N * string) (fuel : nat) :
  ∀ nodeId node path t t',
    persistent t → node_id nodeId → children_ok node →
    Forall path_ok path →
    final_tree (splitInternalNode host fuel nodeId node path t) = Some t' →
    persistent t'.
Proof.
  induction fuel as [|f IH];
    intros nodeId node path t t' (Hroot & Hmeta & Hstore) Hid Hnode Hpath;
    unfold metadata_current in Hmeta.
  - cbn [splitInternalNode]. run_monad. split_matches; persist_done.
  - cbn [splitInternalNode]. run_monad.
    destruct (keys node) eqn:Hk; [|persist_done]. cbn beta iota.
    destruct (children node) eqn:Hc; [|persist_done]. cbn beta iota.
    destruct (length path =? 0)%nat eqn:Hp.
    + split_matches; persist_done.
    + cbn beta iota. split_matches; try persist_done.
      intros Hfin. eapply IH; [| | | |exact Hfin].
      * persist_goal.
      * solve_id.
      * solve_id.
      * solve_id.
Qed.

Lemma tree_insert_persistent (host : nat → N * string) (k v : string)
    (t t' : Tree) :
  persistent t →
  final_tree (tree_insert host k v t) = Some t' → persistent t'.
Proof.
  intros (Hroot & Hmeta & Hstore). unfold metadata_current in Hmeta.
  unfold tree_insert, splitLeafNode, updateParentAfterSplit, array_assign.
  run_monad.
  split_matches;
    try (exfalso;
         match goal with
         | H : (length ?p =? 0)%nat = true, H' : last ?p = Some _ |- _ =>
             apply Nat.eqb_eq in H; destruct p; discriminate
         end);
    try persist_done;
    (intros Hfin; eapply splitInternalNode_persistent; [| | | |exact Hfin];
     [persist_goal | solve_id ..]).
Qed.

Lemma rebalanceAfterDelete_persistent (fuel : nat) :
  ∀ nodeId node path t t',
    persistent t → opt_id nodeId → children_ok node →
    Forall path_ok path →
    final_tree (rebalanceAfterDelete fuel nodeId node path t) = Some t' →
    persistent t'.
Proof.
  induction fuel as [|f IH];
    intros nodeId node path t t' (Hroot & Hmeta & Hstore) Hid Hnode Hpath;
    unfold metadata_current in Hmeta.
  - cbn [rebalanceAfterDelete]. persist_done.
  - cbn [rebalanceAfterDelete]. run_monad.
    unfold mergeWithLeftSibling, mergeWithRightSibling,
      borrowFromLeftSibling, borrowFromRightSibling, array_assign.
    run_monad.
    split_matches; try persist_done;
      (intros Hfin; eapply IH; [| | | |exact Hfin];
       [persist_goal | solve_id ..]).
Qed.

Lemma tree_remove_persistent (k : string) (t t' : Tree) :
  persistent t →
  final_tree (tree_remove k t) = Some t' → persistent t'.
Proof.
  intros (Hroot & Hmeta & Hstore). unfold metadata_current in Hmeta.
  unfold tree_remove. run_monad.
  split_matches; try persist_done.
  intros Hfin. eapply rebalanceAfterDelete_persistent; [| | | |exact Hfin].
  - persist_goal.
  - solve_id.
  - solve_id.
  - solve_id.
Qed.

Lemma ensure_init_persistent (t t' : Tree) :
  persistent t → final_tree (ensure_init t) = Some t' → persistent t'.
Proof.
  intros (Hroot & Hmeta & Hstore). unfold metadata_current in Hmeta.
  unfold ensure_init, init, mark_initialized. run_monad.
  destruct (initialized t); [persist_done|].
  cbn beta iota. rewrite Hmeta. persist_done.
Qed.

Lemma bind_persistent {A B} (m : M A) (k : A → M B) :
  (∀ t t', persistent t → final_tree (m t) = Some t' → persistent t') →
  (∀ a t t', persistent t → final_tree (k a t) = Some t' → persistent t') →
  ∀ t t', persistent t → final_tree ((m ≫= k) t) = Some t' → persistent t'.
Proof.
  intros Hm Hk t t' Ht. unfold mbind, M_bind, bind.
  destruct (m t) as [a t1| t1 | |] eqn:E; cbn [final_tree].
  - apply Hk. apply (Hm t t1 Ht). now rewrite E.
  - intros H. apply (Hm t t' Ht). now rewrite E.
  - discriminate.
  - discriminate.
Qed.

Lemma for_each_persistent {A} (body : A → M unit) (xs : list A) :
  (∀ x t t', persistent t → final_tree (body x t) = Some t' → persistent t') →
  ∀ t t', persistent t → final_tree (for_each body xs t) = Some t' →
    persistent t'.
Proof.
  intros Hbody. induction xs as [|x xs IH]; intros t t' Ht; cbn [for_each].
  - intros H. now injection H as <-.
  - apply bind_persistent; [apply Hbody | intros _; apply IH | exact Ht].
Qed.

Lemma tree_write_persistent (host : nat → N * string)
    (sets : list (string * string)) (dels : list string) (t t' : Tree) :
  persistent t →
  final_tree (tree_write host sets dels t) = Some t' → persistent t'.
Proof.
  unfold tree_write.
  apply bind_persistent; [apply ensure_init_persistent|]. intros _.
  apply bind_persistent.
  - apply for_each_persistent. intros x. apply tree_insert_persistent.
  - intros _. apply for_each_persistent. apply tree_remove_persistent.
Qed.

Lemma empty_store_ok : store_ok ∅.
Proof. intros id n H. rewrite lookup_empty in H. discriminate H. Qed.

(** A cold start.  Constructing a tree over a store that has no metadata
    record, whatever node records it holds, writes an empty root leaf under
    "00root" and a metadata record naming it: the new object is an empty
    one-leaf tree, [get] returns [undefined] for every key, and the
    metadata record is current. *)
Theorem constructor_cold_start (s : gmap string Stored)
    (maxLeaf maxInternal : Z) :
  store_ok s → s !! METADATA_KEY = None →
  ∃ t, new_BPlusTree s maxLeaf maxInternal = Ok tt t
       ∧ persistent t ∧ single_leaf t []
       ∧ ∀ k, tree_get k t = Ok None t.
Proof.
  intros Hs Hnone. unfold new_BPlusTree, init, mark_initialized, fresh_object.
  run_monad. cbn [store]. rewrite Hnone. eexists. split; [reflexivity|].
  assert (Hleaf : single_leaf
            (set_initialized
               (set_store
                  (set_root
                     {| store := s; rootId := ""; height := 0;
                        initialized := false; maxLeafSize := maxLeaf;
                        maxInternalSize := maxInternal; ticks := 0 |}
                     (LEAF_PREFIX +:+ "root") 0)
                  (write_deletes []
                     (write_sets
                        [(LEAF_PREFIX +:+ "root", StoredNode (leaf [] [] None));
                         (METADATA_KEY,
                          StoredMetadata (LEAF_PREFIX +:+ "root") 0)]
                        s)))) []).
  { split; [reflexivity|]. split; [reflexivity|]. split; [discriminate|].
    split; [|apply ascending_nil].
    unfold parse_node, set_initialized, set_store, set_root, write_deletes,
      write_sets.
    cbn [store rootId foldl fst snd].
    rewrite lookup_insert_ne by discriminate.
    now rewrite lookup_insert_eq. }
  split; [persist_goal|]. split; [exact Hleaf|].
  intros k. exact (tree_get_single_leaf _ [] k Hleaf).
Qed.

(** The theorem applies to the empty store and the default sizes. *)
Lemma constructor_cold_start_witness :
  store_ok ∅ ∧ (∅ : gmap string Stored) !! METADATA_KEY = None
  ∧ ∃ t, new_BPlusTree ∅ MAX_LEAF_SIZE MAX_INTERNAL_SIZE = Ok tt t
         ∧ persistent t ∧ single_leaf t []
         ∧ ∀ k, tree_get k t = Ok None t.
Proof.
  assert (H1 : store_ok ∅) by apply empty_store_ok.
  assert (H2 : (∅ : gmap string Stored) !! METADATA_KEY = None)
    by apply lookup_empty.
  split; [exact H1|]. split; [exact H2|].
  exact (constructor_cold_start ∅ MAX_LEAF_SIZE MAX_INTERNAL_SIZE H1 H2).
Defined.

(** The metadata record stays current.  If the record in the store names
    the root and height the object holds, and no node is filed under, or
    listed as a child under, the key of that record, then the same is true
    of the state [set], [delete] and [write] leave behind, whether they
    return or throw. *)
Theorem metadata_stays_current (host : nat → N * string) (t : Tree) :
  persistent t →
  (∀ k v t', final_tree (tree_set host k v t) = Some t' → persistent t')
  ∧ (∀ k t', final_tree (tree_delete host k t) = Some t' → persistent t')
  ∧ (∀ sets dels t',
       final_tree (tree_write host sets dels t) = Some t' → persistent t').
Proof.
  intros Ht. split; [|split].
  - intros k v t'. unfold tree_set. revert t t' Ht.
    apply bind_persistent; [apply ensure_init_persistent|]. intros _ t t'.
    apply tree_write_persistent.
  - intros k t'. unfold tree_delete. revert t t' Ht.
    apply bind_persistent; [apply ensure_init_persistent|]. intros _ t t'.
    apply tree_write_persistent.
  - intros sets dels t'. now apply tree_write_persistent.
Qed.

#[local] Hint Resolve empty_store_ok : persist.

Lemma persistent_split_tree : persistent split_tree.
Proof.
  unfold split_tree. cbv zeta. rewrite <- insert_empty. persist_goal.
Qed.

Lemma ensure_init_adopts (t : Tree) :
  metadata_current t →
  ∃ t1, ensure_init t = Ok tt t1
        ∧ store t1 = store t ∧ rootId t1 = rootId t ∧ height t1 = height t.
Proof.
  intros Hmeta. unfold metadata_current in Hmeta.
  unfold ensure_init, init, mark_initialized. run_monad.
  destruct (initialized t).
  - eexists. split; [reflexivity|]. now split.
  - cbn beta iota. rewrite Hmeta. eexists. split; [reflexivity|]. now split.
Qed.

Lemma ensure_init_reopens (t : Tree) (maxLeaf maxInternal : Z) :
  metadata_current t →
  ∃ t2, ensure_init (fresh_object (store t) maxLeaf maxInternal) = Ok tt t2
        ∧ store t2 = store t ∧ rootId t2 = rootId t ∧ height t2 = height t.
Proof.
  intros Hmeta. unfold metadata_current in Hmeta.
  unfold ensure_init, init, mark_initialized, fresh_object. run_monad.
  cbn [initialized store]. rewrite Hmeta. eexists. split; [reflexivity|].
  now split.
Qed.

Lemma findLeaf_same_tree (t1 t2 : Tree) (k : string) :
  store t1 = store t2 → rootId t1 = rootId t2 → height t1 = height t2 →
  findLeaf t1 k = findLeaf t2 k.
Proof. intros Hs Hr Hh. unfold findLeaf. now rewrite Hs, Hr, Hh. Qed.

(** The theorem applies to the two-leaf tree of the small-fanout scenario. *)
Lemma metadata_stays_current_witness :
  persistent split_tree
  ∧ (∀ k v t',
       final_tree (tree_set example_host k v split_tree) = Some t' →
       persistent t')
  ∧ (∀ k t',
       final_tree (tree_delete example_host k split_tree) = Some t' →
       persistent t')
  ∧ (∀ sets dels t',
       final_tree (tree_write example_host sets dels split_tree) = Some t' →
       persistent t').
Proof.
  assert (H : persistent split_tree) by apply persistent_split_tree.
  split; [exact H|].
  exact (metadata_stays_current example_host split_tree H).
Defined.

(** A new object reads what the old one reads.  When the metadata record
    in the store names the root and height an object holds, an object
    constructed afresh over the same store, with whatever size limits,
    gives the same answers to [get] and [list]: the same value, or the same
    TypeError. *)
Theorem reopened_tree_reads_alike (t : Tree) (maxLeaf maxInternal : Z)
    (fuel : nat) (k : string) (args : ListArgs) :
  metadata_current t →
  let t2 := fresh_object (store t) maxLeaf maxInternal in
  value_of (tree_get k t2) = value_of (tree_get k t)
  ∧ throws (tree_get k t2) = throws (tree_get k t)
  ∧ value_of (list_bptree fuel args t2) = value_of (list_bptree fuel args t)
  ∧ throws (list_bptree fuel args t2) = throws (list_bptree fuel args t).
Proof.
  intros Hmeta t2. subst t2.
  destruct (ensure_init_adopts t Hmeta) as (t1 & E1 & Hs1 & Hr1 & Hh1).
  destruct (ensure_init_reopens t maxLeaf maxInternal Hmeta)
    as (t2 & E2 & Hs2 & Hr2 & Hh2).
  assert (Hleaf : ∀ key, findLeaf t2 key = findLeaf t1 key)
    by (intros key; apply findLeaf_same_tree; congruence).
  unfold tree_get, list_bptree.
  unfold mbind, M_bind, bind. rewrite E1, E2.
  run_monad. rewrite !Hleaf, Hs2, <- Hs1.
  split; [|split; [|split]]; split_matches; reflexivity.
Qed.

(** ** Offset and reverse in the sibling variant *)

Lemma for_keys_unbounded (args : ListArgs) (m2 : list (string * string)) :
  arg_limit args = None → arg_lt args = None → arg_lte args = None →
  ∀ (m1 : list (string * string)) (rs : list Entry),
    for_keys args (Some (map snd (m1 ++ m2))) (len m1) (map fst m2) rs
    = Exhausted (rs ++ ref_list m2).
Proof.
  intros Hlim Hlt Hlte.
  induction m2 as [|[k v] m2 IH]; intros m1 rs; cbn [map for_keys fst].
  - unfold ref_list. cbn. now rewrite app_nil_r.
  - unfold visit, reaches_lt, passes_lte, limit_reached.
    rewrite Hlim, Hlt, Hlte.
    assert (Hat : at_index (map snd (m1 ++ (k, v) :: m2)) (len m1) = Some v).
    { unfold len. rewrite at_index_of_nat, map_app.
      rewrite lookup_app_r by (rewrite length_map; lia).
      now rewrite length_map, Nat.sub_diag. }
    rewrite Hat.
    replace (len m1 + 1) with (len (m1 ++ [(k, v)])) by apply len_snoc.
    replace (m1 ++ (k, v) :: m2) with ((m1 ++ [(k, v)]) ++ m2)
      by now rewrite <- app_assoc.
    rewrite IH. unfold ref_list. cbn [map fst snd].
    now rewrite <- app_assoc.
Qed.

Lemma stops_unbounded (args : ListArgs) (k : string) :
  arg_lt args = None → arg_lte args = None → stops args k = false.
Proof.
  intros Hlt Hlte. unfold stops, reaches_lt, passes_lte.
  now rewrite Hlt, Hlte.
Qed.

(** In the sibling variant, a query on a one-leaf tree with neither
    [limit] nor an upper bound takes the entries that pass the lower bound,
    drops the first [offset] of them, counted from the smallest key, and
    then reverses what is left if [reverse] is set. *)
Theorem sibling_list_offset_then_reverse (t : Tree)
    (m : list (string * string)) (args : ListArgs) (fuel : nat) :
  single_leaf t m → (2 ≤ fuel)%nat →
  arg_limit args = None → arg_lt args = None → arg_lte args = None →
  let entries := ref_list (List.filter (λ kv, in_range args (fst kv)) m) in
  let kept :=
    match arg_offset args with
    | Some n => drop (Z.to_nat n) entries
    | None => entries
    end in
  list_sibling fuel args t
  = Ok (if bool_decide (arg_reverse args = Some true) then rev kept else kept)
       t.
Proof.
  intros (Hinit & Hh & Hne & Hnode & Hasc) Hfuel Hlim Hlt Hlte entries kept.
  destruct fuel as [|[|fuel]]; try lia.
  unfold list_sibling.
  rewrite !(bind_Ok ensure_init _ t t tt) by now apply ensure_init_initialized.
  rewrite !(bind_Ok get_tree _ t t t) by reflexivity.
  assert (Hleaf : findLeaf t (start_key args) = Some (Some (rootId t)))
    by (unfold findLeaf; now rewrite Hh).
  rewrite Hleaf. run_monad.
  assert (Htruthy : truthy (Some (rootId t)) = true).
  { unfold truthy. apply String.eqb_neq in Hne. now rewrite Hne. }
  cbn [scan_leaves_skipping]. rewrite Htruthy, Hnode.
  cbn beta iota delta [keys values next leaf].
  cbn [or_else truthy String.eqb negb].
  assert (Hpost : ∀ rs,
    post_process args rs
    = let kept := match arg_offset args with
                  | Some n => drop (Z.to_nat n) rs
                  | None => rs
                  end in
      if bool_decide (arg_reverse args = Some true) then rev kept else kept).
  { intros rs. unfold post_process. cbv zeta.
    assert (Hoff : match arg_offset args with
                   | Some n => if negb (n =? 0) && (n >? 0)
                               then drop (Z.to_nat n) rs else rs
                   | None => rs
                   end
                   = match arg_offset args with
                     | Some n => drop (Z.to_nat n) rs
                     | None => rs
                     end).
    { destruct (arg_offset args) as [n|]; [|reflexivity].
      destruct (Z.eqb_spec n 0) as [->|Hn0]; [reflexivity|].
      destruct (Z.gtb_spec n 0) as [Hpos|Hneg]; [reflexivity|].
      cbn [negb andb]. replace (Z.to_nat n) with 0%nat by lia.
      now rewrite drop_0. }
    rewrite Hoff.
    destruct (arg_reverse args) as [[|]|]; reflexivity. }
  assert (Hfilter : List.filter (λ kv, in_range args (fst kv)) m
                    = List.filter (λ kv, above_lower args (fst kv)) m).
  { apply filter_ext. intros kv. rewrite in_range_scan.
    rewrite stops_unbounded by assumption. apply andb_true_r. }
  unfold kept, entries. rewrite Hfilter.
  destruct (startIndex_of_sorted args m Hasc)
    as [(Hj & Hlow & Hf)|(Hj & Hle & Hf)].
  - (* no key passes the lower bound: the leaf is skipped *)
    rewrite Hj, Hf. cbn [Z.eqb Pos.eqb]. now rewrite Hpost.
  - set (j := startIndex_of args (map fst m)) in *.
    destruct (Z.eqb_spec j (-1)); [lia|].
    rewrite Hf. unfold for_from.
    destruct (Z.ltb_spec j 0); [lia|].
    pose proof (for_keys_unbounded args (drop (Z.to_nat j) m) Hlim Hlt Hlte
                  (take (Z.to_nat j) m) []) as Hfk.
    rewrite take_drop in Hfk.
    replace (len (take (Z.to_nat j) m)) with j in Hfk
      by (unfold len; rewrite length_take; lia).
    rewrite <- skipn_map in Hfk. rewrite Hfk. cbn [app].
    now rewrite Hpost.
Qed.

(** The theorem applies to the tree holding "a" and "b" and the query
    [{ offset: 1, reverse: true }], which returns "b" alone. *)
Lemma sibling_list_offset_then_reverse_witness :
  let args := mkArgs None None None None None (Some 1) (Some true) in
  let m := [("a", "1"); ("b", "2")] in
  single_leaf ab_tree m ∧ (2 ≤ 3)%nat
  ∧ arg_limit args = None ∧ arg_lt args = None ∧ arg_lte args = None
  ∧ list_sibling 3 args ab_tree = Ok [(Some "b", Some "2")] ab_tree.
Proof.
  intros args m.
  assert (H1 : single_leaf ab_tree m).
  { split; [reflexivity|]. split; [reflexivity|]. split; [discriminate|].
    split; [vm_compute; reflexivity|].
    apply strictly_ascending_ascending. reflexivity. }
  assert (H2 : (2 ≤ 3)%nat) by lia.
  split; [exact H1|]. split; [exact H2|]. split; [reflexivity|].
  split; [reflexivity|]. split; [reflexivity|].
  exact (sibling_list_offset_then_reverse ab_tree m args 3 H1 H2
           eq_refl eq_refl eq_refl).
Defined.

(** The theorem applies to the two-leaf tree of the small-fanout scenario,
    reopened with the default sizes. *)
Lemma reopened_tree_reads_alike_witness :
  metadata_current split_tree
  ∧ value_of (tree_get "d"
                (fresh_object (store split_tree)
                   MAX_LEAF_SIZE MAX_INTERNAL_SIZE))
    = value_of (tree_get "d" split_tree).
Proof.
  assert (H : metadata_current split_tree) by apply persistent_split_tree.
  split; [exact H|].
  exact (proj1 (reopened_tree_reads_alike split_tree
                  MAX_LEAF_SIZE MAX_INTERNAL_SIZE 0 "d" no_args H)).
Defined.

(** ** What [list] of [src/bptree/bptree.ts] never reads *)

(** [list] of [src/bptree/bptree.ts] never reads [offset] and [reverse]: in
    every state, two calls whose arguments differ in these two options only
    have the same outcome and leave the same state. *)
Theorem list_never_reads_offset_or_reverse (fuel : nat) (t : Tree)
    (gt gte lt lte : option string) (limit o o' : option Z)
    (r r' : option bool) :
  list_bptree fuel (mkArgs gt gte lt lte limit o r) t
  = list_bptree fuel (mkArgs gt gte lt lte limit o' r') t.
Proof. apply list_bptree_alike. repeat split. Qed.
